(** * Path tracing of a solved mechanism (Pyslvs-UI)

    Shallow embedding of [DimensionalSynthesis.__get_path]
    (src/core/synthesis/dimensional_synthesis/__init__.py, lines 530-600):
    the sweep that drives every 'PLAP' input through a revolution, calls the
    position solver at each step and records one sample per joint.

    Modelling choices.
    - Angles and cumulative progress are Python floats that only ever hold
      small integers (0., then [+= 3], [-= 3], [%= 360], [+= abs(3)]); these
      operations are exact on such floats, so both are modelled as [Z], with
      Python's [%] (sign of the divisor) as [Z.modulo].
    - A coordinate is an opaque value of type [coord]; the sentinel
      [(nan, nan)] is the constructor [NaN] of [sample].
    - [expr_solving], [VPoint], [VPoint.move] and the parsing helpers of
      [core.io] live outside the source set: the solver and the joint
      operations are parameters, and the trace starts from the parsed
      expression tuples, the mapping and the joint list built by
      [graph2vpoints].
    - [expr_solving] raising [ValueError] is the solver answering [None].
    - The list indexings of the loop body raise [IndexError] when out of
      range, and a solved entry of the wrong shape for its joint raises
      [TypeError]; both are kept, as [Raise]. *)

From Stdlib Require Import ZArith Lia Sorted.
From stdpp Require Import base tactics option list strings.

Open Scope Z_scope.

(** ** Exceptions and the error monad *)

Inductive exn : Set := IndexError | TypeError.

Inductive outcome (A : Type) : Type :=
| Ok (a : A)
| Raise (e : exn).
Arguments Ok {A} a.
Arguments Raise {A} e.

#[global] Instance outcome_ret : MRet outcome := fun A a => Ok a.
#[global] Instance outcome_bind : MBind outcome := fun A B f m =>
  match m with
  | Ok a => f a
  | Raise e => Raise e
  end.
#[global] Instance outcome_fmap : FMap outcome := fun A B f m =>
  match m with
  | Ok a => Ok (f a)
  | Raise e => Raise e
  end.

(** [l[i]] of Python: [IndexError] when [i] is out of range. *)
Definition getitem {A : Type} (l : list A) (i : nat) : outcome A :=
  match l !! i with
  | Some x => Ok x
  | None => Raise IndexError
  end.

(** ** Data *)

(** The joint kinds of [VJoint]. *)
Module VJoint.
Inductive t : Set := R | P | RP.
End VJoint.

(** [vpoints[i].type in {VJoint.P, VJoint.RP}] *)
Definition is_sliding (k : VJoint.t) : bool :=
  match k with
  | VJoint.P | VJoint.RP => true
  | VJoint.R => false
  end.

(** One tuple of [exprs]: [(func, *params, target)]. *)
Record expr : Set := mk_expr {
  func : string;
  params : list string;
  target : string
}.

(** [sum(1 for e in exprs if e[0] == 'PLAP')] *)
Definition i_count_of (exprs : list expr) : nat :=
  length (filter (fun e => func e = "PLAP"%string) exprs).

Section PathTracer.

(** A coordinate pair, and a joint with its kind and its [move] method
    ([move(c1, c2=None)]). *)
Variable coord : Type.
Variable VPoint : Type.
Variable vtype : VPoint -> VJoint.t.
Variable move : VPoint -> coord -> option coord -> VPoint.

(** An entry of [solved_result]: a coordinate, or a (slot, pin) pair. *)
Inductive solved : Type :=
| Coord (c : coord)
| SlotPin (slot pin : coord).

(** An entry of a joint's path: a coordinate or [(nan, nan)]. *)
Inductive sample : Type :=
| At (c : coord)
| NaN.

(** The position solver; [None] is [ValueError]. *)
Variable Mapping : Type.
Variable expr_solving :
  list expr -> Mapping -> list VPoint -> list Z -> option (list solved).

(** The parsed expression and the joint-name mapping of the traced result;
    the loop hands them to the solver unchanged. *)
Variable exprs : list expr.
Variable mapping : Mapping.

Abbreviation i_count := (i_count_of exprs).

(** A call of the solver: the sweep direction and the driver pointer at
    the call, the arguments that vary, and the answer. *)
Record call : Type := mk_call {
  call_interval : Z;
  call_dp : nat;
  call_vpoints : list VPoint;
  call_angles : list Z;
  call_result : option (list solved)
}.

(** The variables of the loop, and the history of the solver calls made
    so far (oldest first). *)
Record state : Type := mk_state {
  path : list (list sample);
  vpoints : list VPoint;
  angles : list Z;
  angles_params : list Z;
  dp : nat;
  calls : list call
}.

(** [for i in range(vpoint_count): path[i].append((nan, nan))] *)
Fixpoint update_with_error (range : list nat) (path : list (list sample))
  : outcome (list (list sample)) :=
  match range with
  | [] => Ok path
  | i :: range =>
      p ← getitem path i;
      update_with_error range (<[i := p ++ [NaN]]> path)
  end.

(** The body of the loop over the joints after a successful solve. *)
Definition update_joint (solved_result : list solved) (i : nat)
    (pv : list (list sample) * list VPoint)
  : outcome (list (list sample) * list VPoint) :=
  let '(path, vpoints) := pv in
  v ← getitem vpoints i;
  r ← getitem solved_result i;
  p ← getitem path i;
  if is_sliding (vtype v) then
    match r with
    | SlotPin slot pin =>
        Ok (<[i := p ++ [At pin]]> path, <[i := move v slot (Some pin)]> vpoints)
    | Coord _ => Raise TypeError
    end
  else
    match r with
    | Coord c =>
        Ok (<[i := p ++ [At c]]> path, <[i := move v c None]> vpoints)
    | SlotPin _ _ => Raise TypeError
    end.

(** [for i in range(vpoint_count): ...] of the [else] branch. *)
Fixpoint update_with_result (solved_result : list solved) (range : list nat)
    (pv : list (list sample) * list VPoint)
  : outcome (list (list sample) * list VPoint) :=
  match range with
  | [] => Ok pv
  | i :: range =>
      pv' ← update_joint solved_result i pv;
      update_with_result solved_result range pv'
  end.

(** The body of [while dp < i_count]. *)
Definition step (vpoint_count : nat) (interval : Z) (s : state) : outcome state :=
  let solved_result := expr_solving exprs mapping (vpoints s) (angles s) in
  let history :=
    calls s ++ [mk_call interval (dp s) (vpoints s) (angles s) solved_result] in
  match solved_result with
  | None =>
      path' ← update_with_error (seq 0 vpoint_count) (path s);
      a ← getitem (angles s) (dp s);
      Ok (mk_state path' (vpoints s)
            (<[dp s := a - interval]> (angles s))
            (angles_params s) (S (dp s)) history)
  | Some solved_result =>
      pv ← update_with_result solved_result (seq 0 vpoint_count)
             (path s, vpoints s);
      a ← getitem (angles s) (dp s);
      let a := (a + interval) mod 360 in
      c ← getitem (angles_params s) (dp s);
      let c := c + Z.abs interval in
      if 360 <? c then
        Ok (mk_state pv.1 pv.2
              (<[dp s := a - interval]> (angles s))
              (<[dp s := c]> (angles_params s)) (S (dp s)) history)
      else
        Ok (mk_state pv.1 pv.2
              (<[dp s := a]> (angles s))
              (<[dp s := c]> (angles_params s)) (dp s) history)
  end.

(** One turn of the [while]: the test, then the body. *)
Definition iteration (vpoint_count : nat) (interval : Z) (s : state)
  : outcome state :=
  if decide (dp s < i_count)%nat then step vpoint_count interval s else Ok s.

(** [n] turns of the [while]; a state whose test fails is left as it is,
    so the loop has ended once [dp] is no longer below [i_count]. *)
Fixpoint while_loop (vpoint_count : nat) (interval : Z) (n : nat) (s : state)
  : outcome state :=
  match n with
  | O => Ok s
  | S n =>
      s' ← iteration vpoint_count interval s;
      while_loop vpoint_count interval n s'
  end.

(** The number of successful solves a driver whose cumulative progress is
    [c] still needs before the progress exceeds 360. *)
Definition steps_left (interval : Z) (c : Z) : nat :=
  Z.to_nat (Z.max 1 ((360 - c) / Z.abs interval + 1)).

(** A bound on the turns left: every turn either moves [dp] on or uses one
    of the steps left of the active driver. *)
Definition turns_left (interval : Z) (s : state) : nat :=
  sum_list (steps_left interval <$> drop (dp s) (angles_params s)).

(** The whole [while] loop, from [s]. *)
Definition sweep (vpoint_count : nat) (interval : Z) (s : state) : outcome state :=
  while_loop vpoint_count interval (turns_left interval s) s.

(** The state when the trace begins: empty paths, no progress. *)
Definition init_state (vpoints : list VPoint) : state :=
  mk_state (replicate (length vpoints) []) vpoints
    (replicate i_count 0) (replicate i_count 0) 0 [].

(** The head of the [for interval in (3, -3)] body:
    [dp = 0; angles = [0.] * i_count]. *)
Definition start_sweep (s : state) : state :=
  mk_state (path s) (vpoints s) (replicate i_count 0) (angles_params s) 0 (calls s).

(** One turn of [for interval in ...]. *)
Definition direction (vpoint_count : nat) (s : state) (interval : Z)
  : outcome state :=
  sweep vpoint_count interval (start_sweep s).

Fixpoint directions (vpoint_count : nat) (intervals : list Z) (s : state)
  : outcome state :=
  match intervals with
  | [] => Ok s
  | interval :: intervals =>
      s' ← direction vpoint_count s interval;
      directions vpoint_count intervals s'
  end.

(** [__get_path] from the line [vpoint_count = len(vpoints)] on, with the
    final state kept. *)
Definition get_path_state (vpoints : list VPoint) : outcome state :=
  directions (length vpoints) [3; -3] (init_state vpoints).

(** [__get_path]: the paths. *)
Definition get_path (vpoints : list VPoint) : outcome (list (list sample)) :=
  path <$> get_path_state vpoints.

(** ** Vocabulary of the statements *)

(** What a successful solve appends to a joint's path: the pin of a
    (slot, pin) pair, the coordinate otherwise. *)
Definition sample_of (r : solved) : sample :=
  match r with
  | Coord c => At c
  | SlotPin _ pin => At pin
  end.

(** The joint after [move] with a solved entry. *)
Definition moved (v : VPoint) (r : solved) : VPoint :=
  match r with
  | Coord c => move v c None
  | SlotPin slot pin => move v slot (Some pin)
  end.

(** The solver's contract on the shape of its answer: a (slot, pin) pair
    exactly for the sliding joints. *)
Definition shape_ok (v : VPoint) (r : solved) : Prop :=
  match r with
  | Coord _ => is_sliding (vtype v) = false
  | SlotPin _ _ => is_sliding (vtype v) = true
  end.

Definition solver_ok : Prop :=
  forall vps angs sr,
    expr_solving exprs mapping vps angs = Some sr -> Forall2 shape_ok vps sr.

(** The lists the loop indexes have the lengths [__get_path] gives them. *)
Definition well_formed (vpoint_count : nat) (s : state) : Prop :=
  length (path s) = vpoint_count /\ length (vpoints s) = vpoint_count /\
  length (angles s) = i_count /\ length (angles_params s) = i_count.

(** The entry a solver call contributes to joint [i]'s path. *)
Definition entry_of (i : nat) (c : call) : option sample :=
  match call_result c with
  | None => Some NaN
  | Some sr => sample_of <$> sr !! i
  end.

(** [s] is a state the trace of [vpoints0] goes through while sweeping in
    the direction [interval]: after some turns of the first [while] loop,
    or, once that loop has ended in [s1], of the second. *)
Definition during_trace (vpoints0 : list VPoint) (interval : Z) (s : state) : Prop :=
  (interval = 3 /\
   exists n, while_loop (length vpoints0) 3 n
               (start_sweep (init_state vpoints0)) = Ok s) \/
  (interval = -3 /\
   exists s1 n, direction (length vpoints0) (init_state vpoints0) 3 = Ok s1 /\
                while_loop (length vpoints0) (-3) n (start_sweep s1) = Ok s).

(** The state after a turn whose solve failed, [a] being the active
    driver's angle. *)
Definition after_failure (interval : Z) (s : state) (a : Z) : state :=
  mk_state ((fun p => p ++ [NaN]) <$> path s) (vpoints s)
    (<[dp s := a - interval]> (angles s)) (angles_params s) (S (dp s))
    (calls s ++ [mk_call interval (dp s) (vpoints s) (angles s) None]).

(** The state after a turn whose solve answered [sr], [a] and [c] being the
    active driver's angle and cumulative progress. *)
Definition after_success (interval : Z) (s : state) (sr : list solved)
    (a c : Z) : state :=
  let over := 360 <? c + Z.abs interval in
  mk_state (zip_with (fun p r => p ++ [sample_of r]) (path s) sr)
    (zip_with moved (vpoints s) sr)
    (<[dp s := if over then (a + interval) mod 360 - interval
               else (a + interval) mod 360]> (angles s))
    (<[dp s := c + Z.abs interval]> (angles_params s))
    (if over then S (dp s) else dp s)
    (calls s ++ [mk_call interval (dp s) (vpoints s) (angles s) (Some sr)]).


(** A solver call made in the direction [interval] while driver [k] was
    active, that succeeded, the other drivers' angles being those of
    [angs]. *)
Definition block_call (interval : Z) (k : nat) (angs : list Z) (c : call) : Prop :=
  call_interval c = interval /\ call_dp c = k /\ is_Some (call_result c) /\
  length (call_angles c) = length angs /\
  forall j, j <> k -> call_angles c !! j = angs !! j.

(** The angle of the active driver at its [j]-th solve of a revolution that
    began at [a]. *)
Definition angle_at (interval a : Z) (j : nat) : Z :=
  match j with
  | O => a
  | S _ => (a + Z.of_nat j * interval) mod 360
  end.

(** The solver answers every call, with an answer of the right shape. *)
Definition always_solves : Prop :=
  forall vps angs,
    exists sr, expr_solving exprs mapping vps angs = Some sr /\
               Forall2 shape_ok vps sr.

(** The solver calls [cs] sweep the drivers in the direction [interval]:
    all are made in that direction, the drivers they are made for are those
    below [i_count], every one of them, and come in increasing order. *)
Definition drivers_swept (interval : Z) (cs : list call) : Prop :=
  Forall (fun c => call_interval c = interval) cs /\
  (forall k, (k < i_count)%nat <-> exists c, c ∈ cs /\ call_dp c = k) /\
  StronglySorted (fun c c' => (call_dp c <= call_dp c')%nat) cs.


(** ** The error monad *)

Lemma bind_Ok_inv {A B : Type} (m : outcome A) (f : A -> outcome B) (b : B) :
  m ≫= f = Ok b -> exists a, m = Ok a /\ f a = Ok b.
Proof. destruct m as [a|e]; simpl; [eauto | discriminate]. Qed.

Lemma getitem_Ok {A : Type} (l : list A) (i : nat) (x : A) :
  getitem l i = Ok x <-> l !! i = Some x.
Proof. unfold getitem. destruct (l !! i); split; congruence. Qed.

Lemma getitem_middle {A : Type} (pre post : list A) (x : A) :
  getitem (pre ++ x :: post) (length pre) = Ok x.
Proof. apply getitem_Ok, list_lookup_middle. reflexivity. Qed.

Lemma insert_middle {A : Type} (pre post : list A) (x y : A) :
  <[length pre := y]> (pre ++ x :: post) = pre ++ y :: post.
Proof.
  replace (length pre) with (length pre + 0)%nat at 1 by lia.
  rewrite insert_app_r. reflexivity.
Qed.

(** ** The loops over the joints *)

Lemma update_with_error_middle (mid pre post : list (list sample)) :
  update_with_error (seq (length pre) (length mid)) (pre ++ mid ++ post)
  = Ok (pre ++ ((fun p => p ++ [NaN]) <$> mid) ++ post).
Proof.
  revert pre. induction mid as [|p mid IH]; intros pre; simpl; [reflexivity|].
  rewrite getitem_middle. simpl. rewrite insert_middle.
  specialize (IH (pre ++ [p ++ [NaN]])).
  rewrite length_app, Nat.add_1_r, <- !app_assoc in IH. exact IH.
Qed.

Lemma update_with_error_all (n : nat) (pth : list (list sample)) :
  length pth = n ->
  update_with_error (seq 0 n) pth = Ok ((fun p => p ++ [NaN]) <$> pth).
Proof.
  intros <-. pose proof (update_with_error_middle pth [] []) as H.
  simpl in H. rewrite !app_nil_r in H. exact H.
Qed.

Lemma update_with_error_length (range : list nat) (pth pth' : list (list sample)) :
  update_with_error range pth = Ok pth' -> length pth' = length pth.
Proof.
  revert pth. induction range as [|i range IH]; intros pth; simpl.
  - intros [= <-]. reflexivity.
  - intros H. apply bind_Ok_inv in H as (p & _ & H).
    apply IH in H. rewrite length_insert in H. exact H.
Qed.

Lemma update_joint_shape (sr : list solved) (i : nat) (v : VPoint) (r : solved)
    (p : list sample) (ppre ppost : list (list sample))
    (vpre vpost : list VPoint) :
  shape_ok v r -> length ppre = i -> length vpre = i -> sr !! i = Some r ->
  update_joint sr i (ppre ++ p :: ppost, vpre ++ v :: vpost)
  = Ok (ppre ++ (p ++ [sample_of r]) :: ppost, vpre ++ moved v r :: vpost).
Proof.
  intros Hs Hp Hv Hr.
  pose proof (getitem_middle ppre ppost p) as Gp.
  pose proof (getitem_middle vpre vpost v) as Gv.
  pose proof (fun y => insert_middle ppre ppost p y) as Ip.
  pose proof (fun y => insert_middle vpre vpost v y) as Iv.
  rewrite Hp in Gp, Ip. rewrite Hv in Gv, Iv.
  apply getitem_Ok in Hr. unfold update_joint.
  rewrite Gv. simpl. rewrite Hr. simpl. rewrite Gp. simpl.
  destruct r; simpl in Hs; rewrite Hs; rewrite Ip, Iv; reflexivity.
Qed.

Lemma update_with_result_middle (vmid : list VPoint) (smid : list solved) :
  Forall2 shape_ok vmid smid ->
  forall (pmid ppre ppost : list (list sample)) (vpre vpost : list VPoint)
         (spre spost : list solved),
    length pmid = length vmid ->
    length vpre = length ppre -> length spre = length ppre ->
    update_with_result (spre ++ smid ++ spost) (seq (length ppre) (length vmid))
      (ppre ++ pmid ++ ppost, vpre ++ vmid ++ vpost)
    = Ok (ppre ++ zip_with (fun p r => p ++ [sample_of r]) pmid smid ++ ppost,
          vpre ++ zip_with moved vmid smid ++ vpost).
Proof.
  induction 1 as [|v r vmid smid Hvr _ IH];
    intros pmid ppre ppost vpre vpost spre spost Hp Hv Hs.
  - destruct pmid; [reflexivity | discriminate].
  - destruct pmid as [|p pmid]; [discriminate|]. simpl in Hp.
    cbn [length seq update_with_result app zip_with].
    rewrite (update_joint_shape _ _ v r); [|auto..|].
    2:{ rewrite <- Hs. apply list_lookup_middle. reflexivity. }
    simpl.
    specialize (IH pmid (ppre ++ [p ++ [sample_of r]]) ppost
                  (vpre ++ [moved v r]) vpost (spre ++ [r]) spost).
    rewrite !length_app, !Nat.add_1_r, <- !app_assoc in IH.
    apply IH; simpl; lia.
Qed.

Lemma update_with_result_all (pth : list (list sample)) (vps : list VPoint)
    (sr : list solved) :
  Forall2 shape_ok vps sr -> length pth = length vps ->
  update_with_result sr (seq 0 (length vps)) (pth, vps)
  = Ok (zip_with (fun p r => p ++ [sample_of r]) pth sr, zip_with moved vps sr).
Proof.
  intros Hs Hl.
  pose proof (update_with_result_middle vps sr Hs pth [] [] [] [] [] []) as H.
  simpl in H. rewrite !app_nil_r in H. apply H; auto.
Qed.

Lemma update_with_result_length (sr : list solved) (range : list nat)
    (pv pv' : list (list sample) * list VPoint) :
  update_with_result sr range pv = Ok pv' ->
  length pv'.1 = length pv.1 /\ length pv'.2 = length pv.2.
Proof.
  revert pv. induction range as [|i range IH]; intros pv; simpl.
  - intros [= <-]. auto.
  - intros H. apply bind_Ok_inv in H as (pv1 & H1 & H).
    apply IH in H as [-> ->]. clear IH.
    destruct pv as [pth vps]. unfold update_joint in H1.
    apply bind_Ok_inv in H1 as (v & _ & H1).
    apply bind_Ok_inv in H1 as (r & _ & H1).
    apply bind_Ok_inv in H1 as (p & _ & H1).
    destruct (is_sliding (vtype v)), r; try discriminate;
      injection H1 as <-; simpl; rewrite !length_insert; auto.
Qed.

(** ** One turn of the loop *)

Lemma step_failure (n : nat) (interval : Z) (s : state) (a : Z) :
  well_formed n s ->
  expr_solving exprs mapping (vpoints s) (angles s) = None ->
  angles s !! dp s = Some a ->
  step n interval s = Ok (after_failure interval s a).
Proof.
  intros (Hp & _) Hn Ha. unfold step. rewrite Hn.
  rewrite update_with_error_all by exact Hp. simpl.
  apply getitem_Ok in Ha. rewrite Ha. reflexivity.
Qed.

Lemma step_success (n : nat) (interval : Z) (s : state) (sr : list solved)
    (a c : Z) :
  well_formed n s ->
  expr_solving exprs mapping (vpoints s) (angles s) = Some sr ->
  Forall2 shape_ok (vpoints s) sr ->
  angles s !! dp s = Some a -> angles_params s !! dp s = Some c ->
  step n interval s = Ok (after_success interval s sr a c).
Proof.
  intros (Hp & Hv & _) Hsr Hshape Ha Hc. unfold step. rewrite Hsr.
  rewrite <- Hv, update_with_result_all by (auto; congruence). simpl.
  apply getitem_Ok in Ha, Hc. rewrite Ha. simpl. rewrite Hc. simpl.
  unfold after_success. destruct (360 <? c + Z.abs interval); reflexivity.
Qed.

(** What a turn that raised nothing has done, whatever the solver is. *)
Lemma step_Ok_inv (n : nat) (interval : Z) (s s' : state) :
  step n interval s = Ok s' ->
  exists a,
    angles s !! dp s = Some a /\
    calls s' = calls s ++ [mk_call interval (dp s) (vpoints s) (angles s)
                             (expr_solving exprs mapping (vpoints s) (angles s))] /\
    match expr_solving exprs mapping (vpoints s) (angles s) with
    | None =>
        update_with_error (seq 0 n) (path s) = Ok (path s') /\
        vpoints s' = vpoints s /\
        angles s' = <[dp s := a - interval]> (angles s) /\
        angles_params s' = angles_params s /\ dp s' = S (dp s)
    | Some sr =>
        update_with_result sr (seq 0 n) (path s, vpoints s)
        = Ok (path s', vpoints s') /\
        exists c,
          angles_params s !! dp s = Some c /\
          angles_params s' = <[dp s := c + Z.abs interval]> (angles_params s) /\
          if 360 <? c + Z.abs interval
          then angles s' = <[dp s := (a + interval) mod 360 - interval]> (angles s)
               /\ dp s' = S (dp s)
          else angles s' = <[dp s := (a + interval) mod 360]> (angles s)
               /\ dp s' = dp s
    end.
Proof.
  unfold step. destruct (expr_solving exprs mapping (vpoints s) (angles s)) as [sr|].
  - intros H. apply bind_Ok_inv in H as ([pth vps] & Hu & H).
    apply bind_Ok_inv in H as (a & Ha & H).
    apply bind_Ok_inv in H as (c & Hc & H).
    apply getitem_Ok in Ha, Hc. exists a. split; [exact Ha|].
    destruct (360 <? c + Z.abs interval) eqn:E;
      injection H as <-; simpl; (split; [reflexivity|]);
      (split; [exact Hu|]); exists c; rewrite E; auto.
  - intros H. apply bind_Ok_inv in H as (pth & Hu & H).
    apply bind_Ok_inv in H as (a & Ha & H).
    apply getitem_Ok in Ha. exists a. injection H as <-. simpl. auto 10.
Qed.

Lemma well_formed_step (n : nat) (interval : Z) (s s' : state) :
  well_formed n s -> step n interval s = Ok s' -> well_formed n s'.
Proof.
  intros (Hp & Hv & Ha & Hc) H.
  apply step_Ok_inv in H as (a & _ & _ & H). unfold well_formed.
  destruct (expr_solving exprs mapping (vpoints s) (angles s)) as [sr|].
  - destruct H as (Hu & c & _ & -> & H).
    apply update_with_result_length in Hu as [Hu1 Hu2]. simpl in Hu1, Hu2.
    rewrite Hu1, Hu2, length_insert.
    destruct (360 <? c + Z.abs interval); destruct H as [-> _];
      rewrite length_insert; auto.
  - destruct H as (Hu & -> & -> & -> & _).
    apply update_with_error_length in Hu. rewrite Hu, length_insert. auto.
Qed.

Lemma dp_step (n : nat) (interval : Z) (s s' : state) :
  step n interval s = Ok s' -> dp s' = dp s \/ dp s' = S (dp s).
Proof.
  intros H. apply step_Ok_inv in H as (a & _ & _ & H).
  destruct (expr_solving exprs mapping (vpoints s) (angles s)) as [sr|].
  - destruct H as (_ & c & _ & _ & H).
    destruct (360 <? c + Z.abs interval); destruct H as [_ ->]; auto.
  - destruct H as (_ & _ & _ & _ & ->). auto.
Qed.

(** Under the solver's contract the body raises nothing. *)
Lemma step_total (n : nat) (interval : Z) (s : state) :
  solver_ok -> well_formed n s -> (dp s < i_count)%nat ->
  exists s', step n interval s = Ok s'.
Proof.
  intros Hok Hwf Hdp.
  destruct (lookup_lt_is_Some_2 (angles s) (dp s)) as [a Ha].
  { destruct Hwf as (_ & _ & -> & _). exact Hdp. }
  destruct (lookup_lt_is_Some_2 (angles_params s) (dp s)) as [c Hc].
  { destruct Hwf as (_ & _ & _ & ->). exact Hdp. }
  destruct (expr_solving exprs mapping (vpoints s) (angles s)) as [sr|] eqn:E.
  - eexists. eapply step_success; eauto.
  - eexists. eapply step_failure; eauto.
Qed.

(** ** Termination of the [while] loop *)

Lemma steps_left_pos (interval c : Z) : (1 <= steps_left interval c)%nat.
Proof. unfold steps_left. lia. Qed.

Lemma steps_left_next (interval c : Z) :
  interval <> 0 -> c + Z.abs interval <= 360 ->
  steps_left interval c = S (steps_left interval (c + Z.abs interval)).
Proof.
  intros Hi Hc. unfold steps_left.
  assert (0 < Z.abs interval) as Hd by lia.
  replace (360 - c) with ((360 - (c + Z.abs interval)) + 1 * Z.abs interval) by lia.
  rewrite Z.div_add by lia.
  assert (0 <= (360 - (c + Z.abs interval)) / Z.abs interval)
    by (apply Z.div_pos; lia).
  lia.
Qed.

Lemma turns_left_at (interval : Z) (s : state) (c : Z) :
  angles_params s !! dp s = Some c ->
  turns_left interval s
  = (steps_left interval c
     + sum_list (steps_left interval <$> drop (S (dp s)) (angles_params s)))%nat.
Proof.
  intros Hc. unfold turns_left. rewrite (drop_S _ _ _ Hc). reflexivity.
Qed.

Lemma turns_left_step (n : nat) (interval : Z) (s s' : state) :
  interval <> 0 -> well_formed n s -> (dp s < i_count)%nat ->
  step n interval s = Ok s' ->
  (turns_left interval s' < turns_left interval s)%nat.
Proof.
  intros Hi (_ & _ & _ & Hlen) Hdp H.
  destruct (lookup_lt_is_Some_2 (angles_params s) (dp s)) as [c Hc];
    [lia|].
  rewrite (turns_left_at interval s c Hc).
  pose proof (steps_left_pos interval c) as Hpos.
  apply step_Ok_inv in H as (a & _ & _ & H).
  destruct (expr_solving exprs mapping (vpoints s) (angles s)) as [sr|].
  - destruct H as (_ & c' & Hc' & Hp & H).
    assert (c' = c) as -> by congruence.
    destruct (360 <? c + Z.abs interval) eqn:E; destruct H as [_ Hd].
    + unfold turns_left. rewrite Hp, Hd, drop_insert_lt by lia. lia.
    + apply Z.ltb_ge in E.
      rewrite (turns_left_at interval s' (c + Z.abs interval)).
      2:{ rewrite Hp, Hd. apply list_lookup_insert_eq. lia. }
      rewrite Hp, Hd, drop_insert_lt by lia.
      rewrite (steps_left_next interval c) by assumption. lia.
  - destruct H as (_ & _ & _ & Hp & Hd).
    unfold turns_left. rewrite Hp, Hd. lia.
Qed.

Lemma while_loop_done (n : nat) (interval : Z) (k : nat) (s : state) :
  ~ (dp s < i_count)%nat -> while_loop n interval k s = Ok s.
Proof.
  intros Hdp. induction k as [|k IH]; simpl; [reflexivity|].
  unfold iteration. destruct (decide (dp s < i_count)%nat); [contradiction|].
  simpl. exact IH.
Qed.

Lemma while_loop_S (n : nat) (interval : Z) (k : nat) (s s1 : state) :
  (dp s < i_count)%nat -> step n interval s = Ok s1 ->
  while_loop n interval (S k) s = while_loop n interval k s1.
Proof.
  intros Hdp H. simpl. unfold iteration.
  destruct (decide (dp s < i_count)%nat); [|contradiction].
  rewrite H. reflexivity.
Qed.

(** An invariant of the body holds after any number of turns. *)
Lemma while_loop_invariant (n : nat) (interval : Z) (I : state -> Prop) :
  (forall s s', I s -> (dp s < i_count)%nat -> step n interval s = Ok s' -> I s') ->
  forall k s s', I s -> while_loop n interval k s = Ok s' -> I s'.
Proof.
  intros Hstep. induction k as [|k IH]; intros s s' Hs; simpl.
  - intros [= <-]. exact Hs.
  - intros H. apply bind_Ok_inv in H as (s1 & H1 & H).
    apply (IH s1); [|exact H]. unfold iteration in H1.
    destruct (decide (dp s < i_count)%nat).
    + eapply Hstep; eauto.
    + injection H1 as <-. exact Hs.
Qed.

Lemma while_loop_well_formed (n : nat) (interval : Z) (k : nat) (s s' : state) :
  well_formed n s /\ (dp s <= i_count)%nat ->
  while_loop n interval k s = Ok s' ->
  well_formed n s' /\ (dp s' <= i_count)%nat.
Proof.
  apply (while_loop_invariant n interval
           (fun s => well_formed n s /\ (dp s <= i_count)%nat)).
  clear. intros s s' [Hwf _] Hdp H. split.
  - eapply well_formed_step; eauto.
  - apply dp_step in H. lia.
Qed.

(** Once the bound on the turns is used up, the test of the loop fails. *)
Lemma while_loop_exits (n : nat) (interval : Z) :
  interval <> 0 ->
  forall k s s',
    well_formed n s -> (turns_left interval s <= k)%nat ->
    while_loop n interval k s = Ok s' -> (i_count <= dp s')%nat.
Proof.
  intros Hi. induction k as [|k IH]; intros s s' Hwf Hk.
  - simpl. intros [= <-].
    destruct (decide (dp s < i_count)%nat) as [Hdp|]; [|lia].
    destruct (lookup_lt_is_Some_2 (angles_params s) (dp s)) as [c Hc].
    { destruct Hwf as (_ & _ & _ & ->). exact Hdp. }
    rewrite (turns_left_at interval s c Hc) in Hk.
    pose proof (steps_left_pos interval c). lia.
  - destruct (decide (dp s < i_count)%nat) as [Hdp|Hdp].
    + simpl. unfold iteration.
      destruct (decide (dp s < i_count)%nat); [|contradiction].
      intros H. apply bind_Ok_inv in H as (s1 & H1 & H).
      apply (IH s1 s'); [eapply well_formed_step; eauto | | exact H].
      pose proof (turns_left_step n interval s s1 Hi Hwf Hdp H1). lia.
    + rewrite while_loop_done by exact Hdp. intros [= <-]. lia.
Qed.

Lemma while_loop_total (n : nat) (interval : Z) :
  solver_ok ->
  forall k s, well_formed n s -> exists s', while_loop n interval k s = Ok s'.
Proof.
  intros Hok. induction k as [|k IH]; intros s Hwf; simpl; [eauto|].
  unfold iteration. destruct (decide (dp s < i_count)%nat) as [Hdp|Hdp].
  - destruct (step_total n interval s Hok Hwf Hdp) as [s1 H1].
    rewrite H1. simpl. apply IH. eapply well_formed_step; eauto.
  - simpl. apply IH. exact Hwf.
Qed.

(** The loop ends, and under the solver's contract in a state. *)
Lemma sweep_Ok_inv (n : nat) (interval : Z) (s s' : state) :
  interval <> 0 -> well_formed n s -> (dp s <= i_count)%nat ->
  sweep n interval s = Ok s' -> well_formed n s' /\ dp s' = i_count.
Proof.
  intros Hi Hwf Hdp H. unfold sweep in H.
  pose proof (while_loop_exits n interval Hi _ s s' Hwf (Nat.le_refl _) H).
  pose proof (while_loop_well_formed n interval _ s s' (conj Hwf Hdp) H) as [? ?].
  split; [assumption | lia].
Qed.

Lemma sweep_total (n : nat) (interval : Z) (s : state) :
  solver_ok -> interval <> 0 -> well_formed n s -> (dp s <= i_count)%nat ->
  exists s', sweep n interval s = Ok s' /\ well_formed n s' /\ dp s' = i_count.
Proof.
  intros Hok Hi Hwf Hdp.
  destruct (while_loop_total n interval Hok (turns_left interval s) s Hwf)
    as [s' H].
  exists s'. split; [exact H|]. eapply sweep_Ok_inv; eauto.
Qed.

(** Turns beyond the end of the loop change nothing. *)
Lemma while_loop_stable (n : nat) (interval : Z) (s s' : state) (k : nat) :
  interval <> 0 -> well_formed n s ->
  sweep n interval s = Ok s' ->
  while_loop n interval (turns_left interval s + k) s = Ok s'.
Proof.
  intros Hi Hwf H. unfold sweep in H.
  pose proof (while_loop_exits n interval Hi _ s s' Hwf (Nat.le_refl _) H) as He.
  revert H. generalize (turns_left interval s). clear Hwf.
  intros m. revert s. induction m as [|m IH]; intros s; simpl.
  - intros [= <-]. apply while_loop_done. lia.
  - intros H. destruct (iteration n interval s) as [s1|e]; simpl in *;
      [auto | discriminate].
Qed.


(** ** A driver's revolution *)

Lemma steps_left_over (interval c : Z) :
  interval <> 0 -> 360 < c + Z.abs interval -> steps_left interval c = 1%nat.
Proof.
  intros Hi Hc. unfold steps_left.
  assert ((360 - c) / Z.abs interval < 1)
    by (apply Z.div_lt_upper_bound; lia).
  lia.
Qed.

Lemma path_after_success (interval : Z) (s : state) (sr : list solved)
    (a c : Z) (i : nat) (p : list sample) :
  length (path s) = length (vpoints s) -> Forall2 shape_ok (vpoints s) sr ->
  path s !! i = Some p ->
  exists r, sr !! i = Some r /\
    path (after_success interval s sr a c) !! i = Some (p ++ [sample_of r]).
Proof.
  intros Hl Hs Hp. apply Forall2_length in Hs.
  destruct (lookup_lt_is_Some_2 sr i) as [r Hr].
  { apply lookup_lt_Some in Hp. lia. }
  exists r. split; [exact Hr|]. simpl.
  rewrite lookup_zip_with, Hp. simpl. rewrite Hr. reflexivity.
Qed.

Lemma well_formed_lookups (n : nat) (s : state) :
  well_formed n s -> (dp s < i_count)%nat ->
  exists a c, angles s !! dp s = Some a /\ angles_params s !! dp s = Some c.
Proof.
  intros (_ & _ & Ha & Hc) Hdp.
  destruct (lookup_lt_is_Some_2 (angles s) (dp s)) as [a ?]; [lia|].
  destruct (lookup_lt_is_Some_2 (angles_params s) (dp s)) as [c ?]; [lia|].
  eauto.
Qed.

(** From the turn a driver becomes active with cumulative progress [c], and
    as long as no solve fails, the pointer stays on it for exactly
    [steps_left interval c] turns, each adding one accepted sample to every
    path. *)
Lemma driver_block (n : nat) (interval : Z) :
  interval <> 0 ->
  forall (m : nat) (s : state) (a c : Z),
    well_formed n s -> (dp s < i_count)%nat ->
    angles s !! dp s = Some a -> angles_params s !! dp s = Some c ->
    steps_left interval c = m ->
    (forall j sj, (j < m)%nat -> while_loop n interval j s = Ok sj ->
       exists sr, expr_solving exprs mapping (vpoints sj) (angles sj) = Some sr /\
                  Forall2 shape_ok (vpoints sj) sr) ->
    exists s',
      while_loop n interval m s = Ok s' /\ well_formed n s' /\
      dp s' = S (dp s) /\
      (forall j, (j < m)%nat ->
         exists sj, while_loop n interval j s = Ok sj /\ dp sj = dp s) /\
      angles_params s'
      = <[dp s := c + Z.of_nat m * Z.abs interval]> (angles_params s) /\
      angles s'
      = <[dp s := (a + Z.of_nat m * interval) mod 360 - interval]> (angles s) /\
      (exists blk, calls s' = calls s ++ blk /\ length blk = m /\
                   Forall (block_call interval (dp s) (angles s)) blk /\
                   forall j cl, blk !! j = Some cl ->
                     call_angles cl !! dp s = Some (angle_at interval a j)) /\
      (forall i p, path s !! i = Some p ->
         exists new, path s' !! i = Some (p ++ new) /\ length new = m /\
                     NaN ∉ new).
Proof.
  intros Hi. induction m as [|m IH]; intros s a c Hwf Hdp Ha Hc Hm Hsolve.
  { pose proof (steps_left_pos interval c). lia. }
  destruct (Hsolve 0%nat s) as (sr & Hsr & Hshape); [lia | reflexivity |].
  pose proof (step_success n interval s sr a c Hwf Hsr Hshape Ha Hc) as Hstep.
  pose proof (well_formed_step n interval s _ Hwf Hstep) as Hwf1.
  assert (length (path s) = length (vpoints s)) as Hlen
    by (destruct Hwf as (-> & -> & _); reflexivity).
  assert (dp s < length (angles s))%nat as Hla
    by (apply lookup_lt_Some in Ha; exact Ha).
  assert (dp s < length (angles_params s))%nat as Hlc
    by (apply lookup_lt_Some in Hc; exact Hc).
  set (s1 := after_success interval s sr a c) in *.
  assert (block_call interval (dp s) (angles s)
            (mk_call interval (dp s) (vpoints s) (angles s) (Some sr))) as Hcall.
  { repeat split; simpl; eauto. }
  destruct (360 <? c + Z.abs interval) eqn:E.
  - (* the progress passes 360: the pointer moves on *)
    apply Z.ltb_lt in E.
    rewrite (steps_left_over interval c Hi E) in Hm.
    injection Hm as <-.
    exists s1. split.
    { rewrite (while_loop_S n interval 0 s s1 Hdp Hstep). reflexivity. }
    split; [exact Hwf1|].
    apply Z.ltb_lt in E. subst s1. unfold after_success. rewrite E.
    cbn [dp angles angles_params calls path].
    replace (c + Z.of_nat 1 * Z.abs interval) with (c + Z.abs interval) by lia.
    replace (a + Z.of_nat 1 * interval) with (a + interval) by lia.
    split; [reflexivity|]. split.
    { intros j Hj. exists s. replace j with 0%nat by lia. auto. }
    split; [reflexivity|]. split; [reflexivity|]. split.
    { exists [mk_call interval (dp s) (vpoints s) (angles s) (Some sr)].
      split; [reflexivity|]. split; [reflexivity|]. split; [auto|].
      intros [|j] cl; [|intros Hj; discriminate].
      intros [= <-]. exact Ha. }
    intros i p Hp.
    destruct (path_after_success interval s sr a c i p Hlen Hshape Hp)
      as (r & _ & Hr).
    unfold after_success in Hr. simpl in Hr.
    exists [sample_of r]. split; [exact Hr|]. split; [reflexivity|].
    intros Hin. apply list_elem_of_singleton in Hin. destruct r; discriminate.
  - (* one more step of the revolution *)
    apply Z.ltb_ge in E.
    rewrite (steps_left_next interval c Hi E) in Hm. injection Hm as Hm.
    assert (dp s1 = dp s) as Hdp1.
    { subst s1. unfold after_success. apply Z.ltb_ge in E. rewrite E.
      reflexivity. }
    assert (angles s1 = <[dp s := (a + interval) mod 360]> (angles s)) as Ha1.
    { subst s1. unfold after_success. apply Z.ltb_ge in E. rewrite E.
      reflexivity. }
    assert (angles_params s1
            = <[dp s := c + Z.abs interval]> (angles_params s)) as Hc1
      by reflexivity.
    destruct (IH s1 ((a + interval) mod 360) (c + Z.abs interval))
      as (s' & Hrun & Hwf' & Hdp' & Hmid & Hpar & Hang
          & (blk & Hblk & Hlb & Hfb & Hact) & Hpath); try assumption.
    { rewrite Hdp1. exact Hdp. }
    { rewrite Hdp1, Ha1. apply list_lookup_insert_eq. exact Hla. }
    { rewrite Hdp1, Hc1. apply list_lookup_insert_eq. exact Hlc. }
    { intros j sj Hj Hrun. apply (Hsolve (S j) sj); [lia|].
      rewrite (while_loop_S n interval j s s1 Hdp Hstep). exact Hrun. }
    exists s'. split.
    { rewrite (while_loop_S n interval m s s1 Hdp Hstep). exact Hrun. }
    split; [exact Hwf'|]. split; [congruence|]. split.
    { intros [|j] Hj; [exists s; auto|].
      destruct (Hmid j) as (sj & Hsj & Hdj); [lia|].
      exists sj. split; [|congruence].
      rewrite (while_loop_S n interval j s s1 Hdp Hstep). exact Hsj. }
    split.
    { rewrite Hpar, Hdp1, Hc1, list_insert_insert_eq. f_equal. lia. }
    split.
    { rewrite Hang, Hdp1, Ha1, list_insert_insert_eq, Zplus_mod_idemp_l.
      replace (a + interval + Z.of_nat m * interval)
        with (a + Z.of_nat (S m) * interval) by lia.
      reflexivity. }
    split.
    { exists (mk_call interval (dp s) (vpoints s) (angles s) (Some sr) :: blk).
      split; [|split; [|split]].
      - rewrite Hblk. simpl. rewrite <- app_assoc. reflexivity.
      - simpl. congruence.
      - constructor; [exact Hcall|].
        eapply Forall_impl; [exact Hfb|].
        intros cl (? & ? & ? & Hlen1 & Hother). rewrite Hdp1 in *.
        rewrite Ha1, length_insert in Hlen1.
        repeat split; auto. intros j Hj. rewrite (Hother j Hj), Ha1.
        apply list_lookup_insert_ne. auto.
      - intros [|j] cl; [intros [= <-]; exact Ha|]. simpl. intros Hcl.
        rewrite <- Hdp1, (Hact j cl Hcl). f_equal.
        destruct j as [|j]; unfold angle_at.
        + f_equal. lia.
        + rewrite Zplus_mod_idemp_l. f_equal. lia. }
    intros i p Hp.
    destruct (path_after_success interval s sr a c i p Hlen Hshape Hp)
      as (r & _ & Hr).
    destruct (Hpath i _ Hr) as (new & Hnew & Hln & Hnan).
    exists (sample_of r :: new). split; [|split].
    + rewrite Hnew, <- app_assoc. reflexivity.
    + simpl. congruence.
    + intros Hin. apply elem_of_cons in Hin as [Hin|Hin]; [|auto].
      destruct r; discriminate.
Qed.


(** ** The two directions *)

Lemma well_formed_init (vpoints0 : list VPoint) :
  well_formed (length vpoints0) (init_state vpoints0).
Proof.
  unfold well_formed, init_state. simpl. rewrite !length_replicate. auto.
Qed.

Lemma well_formed_start (n : nat) (s : state) :
  well_formed n s -> well_formed n (start_sweep s).
Proof.
  intros (? & ? & ? & ?). unfold well_formed, start_sweep. simpl.
  rewrite length_replicate. auto.
Qed.

Lemma get_path_state_inv (vpoints0 : list VPoint) (s : state) :
  get_path_state vpoints0 = Ok s ->
  exists s1, direction (length vpoints0) (init_state vpoints0) 3 = Ok s1 /\
             direction (length vpoints0) s1 (-3) = Ok s.
Proof.
  unfold get_path_state. simpl. intros H.
  apply bind_Ok_inv in H as (s1 & H1 & H).
  apply bind_Ok_inv in H as (s2 & H2 & H). injection H as <-. eauto.
Qed.

Lemma get_path_state_total (vpoints0 : list VPoint) :
  solver_ok ->
  exists s1 s2,
    direction (length vpoints0) (init_state vpoints0) 3 = Ok s1 /\
    well_formed (length vpoints0) s1 /\ dp s1 = i_count /\
    direction (length vpoints0) s1 (-3) = Ok s2 /\
    well_formed (length vpoints0) s2 /\ dp s2 = i_count /\
    get_path_state vpoints0 = Ok s2.
Proof.
  intros Hok. unfold direction.
  destruct (sweep_total (length vpoints0) 3 (start_sweep (init_state vpoints0)))
    as (s1 & H1 & Hwf1 & Hdp1); [assumption | lia | | simpl; lia |].
  { apply well_formed_start, well_formed_init. }
  destruct (sweep_total (length vpoints0) (-3) (start_sweep s1))
    as (s2 & H2 & Hwf2 & Hdp2); [assumption | lia | | simpl; lia |].
  { apply well_formed_start, Hwf1. }
  exists s1, s2. repeat (split; [assumption|]).
  unfold get_path_state, directions, direction. rewrite H1. simpl.
  rewrite H2. reflexivity.
Qed.

(** A property that holds when the trace begins, that the head of a
    direction keeps and that the body of the loop keeps, holds throughout. *)
Lemma during_trace_invariant (vpoints0 : list VPoint) (I : state -> Prop) :
  I (init_state vpoints0) ->
  (forall s, I s -> I (start_sweep s)) ->
  (forall interval s s',
     interval = 3 \/ interval = -3 -> I s -> (dp s < i_count)%nat ->
     step (length vpoints0) interval s = Ok s' -> I s') ->
  forall interval s, during_trace vpoints0 interval s -> I s.
Proof.
  intros Hinit Hstart Hstep interval s
    [(-> & k & H) | (-> & s1 & k & H1 & H)].
  - eapply (while_loop_invariant (length vpoints0) 3 I);
      [|apply Hstart, Hinit|exact H].
    intros s0 s' ? ? ?. apply (Hstep 3 s0 s'); auto.
  - eapply (while_loop_invariant (length vpoints0) (-3) I); [| |exact H].
    { intros s0 s' ? ? ?. apply (Hstep (-3) s0 s'); auto. }
    apply Hstart.
    eapply (while_loop_invariant (length vpoints0) 3 I);
      [|apply Hstart, Hinit|exact H1].
    intros s0 s' ? ? ?. apply (Hstep 3 s0 s'); auto.
Qed.

Lemma during_trace_final (vpoints0 : list VPoint) (s : state) :
  get_path_state vpoints0 = Ok s -> during_trace vpoints0 (-3) s.
Proof.
  intros H. apply get_path_state_inv in H as (s1 & H1 & H).
  right. split; [reflexivity|]. exists s1. eexists. split; [exact H1|exact H].
Qed.

Lemma during_trace_well_formed (vpoints0 : list VPoint) (interval : Z) (s : state) :
  during_trace vpoints0 interval s -> well_formed (length vpoints0) s.
Proof.
  apply during_trace_invariant.
  - apply well_formed_init.
  - apply well_formed_start.
  - intros i s0 s' _ Hwf _ H. eapply well_formed_step; eauto.
Qed.

(** Under the solver's contract a turn of the loop is one of the two
    explicit transitions. *)
Lemma step_cases (n : nat) (interval : Z) (s s' : state) :
  solver_ok -> well_formed n s -> step n interval s = Ok s' ->
  exists a,
    angles s !! dp s = Some a /\
    ((expr_solving exprs mapping (vpoints s) (angles s) = None /\
      s' = after_failure interval s a) \/
     (exists sr c,
        expr_solving exprs mapping (vpoints s) (angles s) = Some sr /\
        Forall2 shape_ok (vpoints s) sr /\
        angles_params s !! dp s = Some c /\
        s' = after_success interval s sr a c)).
Proof.
  intros Hok Hwf H. pose proof H as H0.
  apply step_Ok_inv in H0 as (a & Ha & _ & H0). exists a. split; [exact Ha|].
  destruct (expr_solving exprs mapping (vpoints s) (angles s)) as [sr|] eqn:E.
  - right. destruct H0 as (_ & c & Hc & _). exists sr, c.
    pose proof (Hok _ _ _ E) as Hshape.
    rewrite (step_success n interval s sr a c Hwf E Hshape Ha Hc) in H.
    injection H as <-. auto.
  - left. rewrite (step_failure n interval s a Hwf E Ha) in H.
    injection H as <-. auto.
Qed.

(** The wrapped angle after an advance by 3 degrees either way. *)
Lemma wrap_range (a interval : Z) :
  interval = 3 \/ interval = -3 -> (3 | a) ->
  (3 | (a + interval) mod 360) /\ 0 <= (a + interval) mod 360 <= 357.
Proof.
  intros Hi [q ->].
  pose proof (Z.div_mod (q * 3 + interval) 360 ltac:(lia)) as Hdm.
  pose proof (Z.mod_pos_bound (q * 3 + interval) 360 ltac:(lia)) as Hb.
  set (m := (q * 3 + interval) mod 360) in *.
  set (d := (q * 3 + interval) / 360) in *.
  assert ((3 | m)) as Hdiv.
  { exists (q + interval / 3 - 120 * d).
    destruct Hi as [-> | ->]; change (3 / 3) with 1; change (-3 / 3) with (-1); lia. }
  split; [exact Hdiv|]. destruct Hdiv as [t Ht]. lia.
Qed.


(** ** Solver failure *)

(** C4. When the solve fails, the turn appends exactly one [(nan, nan)] to
    every joint's path (the joints and the progress are left alone), takes
    one interval off the active driver's angle and moves the pointer on by
    one, after that single call of the solver. In particular, when the very
    first solve fails, after one turn every path is the one sentinel and the
    pointer is on driver 1. *)
Theorem solver_failure_records_sentinel :
  (forall (n : nat) (interval : Z) (s : state) (a : Z),
     well_formed n s -> angles s !! dp s = Some a ->
     expr_solving exprs mapping (vpoints s) (angles s) = None ->
     exists s',
       step n interval s = Ok s' /\
       path s' = (fun p => p ++ [NaN]) <$> path s /\
       vpoints s' = vpoints s /\
       angles s' = <[dp s := a - interval]> (angles s) /\
       angles_params s' = angles_params s /\
       dp s' = S (dp s) /\
       calls s'
       = calls s ++ [mk_call interval (dp s) (vpoints s) (angles s) None]) /\
  (forall vpoints0 : list VPoint,
     (0 < i_count)%nat ->
     expr_solving exprs mapping vpoints0 (replicate i_count 0) = None ->
     exists s1,
       while_loop (length vpoints0) 3 1 (start_sweep (init_state vpoints0))
       = Ok s1 /\
       path s1 = replicate (length vpoints0) [NaN] /\
       dp s1 = 1%nat /\
       calls s1 = [mk_call 3 0 vpoints0 (replicate i_count 0) None]).
Proof.
  split.
  - intros n interval s a Hwf Ha Hnone.
    exists (after_failure interval s a).
    split; [apply step_failure; assumption|]. unfold after_failure. simpl.
    auto 10.
  - intros vpoints0 Hpos Hnone.
    set (s0 := start_sweep (init_state vpoints0)).
    assert (well_formed (length vpoints0) s0) as Hwf
      by apply well_formed_start, well_formed_init.
    assert (angles s0 !! dp s0 = Some 0) as Ha
      by (apply lookup_replicate_2; exact Hpos).
    pose proof (step_failure (length vpoints0) 3 s0 0 Hwf Hnone Ha) as Hstep.
    exists (after_failure 3 s0 0). split.
    { rewrite (while_loop_S _ _ 0 s0 _ Hpos Hstep). reflexivity. }
    unfold after_failure. simpl. rewrite fmap_replicate. auto.
Qed.

(** ** Sliding joints *)

(** C8. When the solve succeeds with an answer of the right shape, the turn
    appends, for a sliding joint (kind P or RP), the pin of its solved
    (slot, pin) pair and moves the joint to that slot and pin; for any other
    joint it appends the solved coordinate and moves the joint there. The
    moved joints are the ones handed to the next call of the solver. *)
Theorem sliding_joint_records_pin (n : nat) (interval : Z) (s : state)
    (sr : list solved) :
  well_formed n s -> (dp s < i_count)%nat ->
  expr_solving exprs mapping (vpoints s) (angles s) = Some sr ->
  Forall2 shape_ok (vpoints s) sr ->
  exists s',
    step n interval s = Ok s' /\
    (forall i v, vpoints s !! i = Some v ->
       exists p, path s !! i = Some p /\
         if is_sliding (vtype v)
         then exists slot pin,
                sr !! i = Some (SlotPin slot pin) /\
                path s' !! i = Some (p ++ [At pin]) /\
                vpoints s' !! i = Some (move v slot (Some pin))
         else exists c,
                sr !! i = Some (Coord c) /\
                path s' !! i = Some (p ++ [At c]) /\
                vpoints s' !! i = Some (move v c None)) /\
    (forall interval' s'',
       step n interval' s' = Ok s'' ->
       exists c, calls s'' = calls s' ++ [c] /\ call_vpoints c = vpoints s').
Proof.
  intros Hwf Hdp Hsr Hshape.
  destruct (well_formed_lookups n s Hwf Hdp) as (a & c & Ha & Hc).
  exists (after_success interval s sr a c).
  split; [apply step_success; assumption|]. split.
  - intros i v Hv.
    destruct (lookup_lt_is_Some_2 (path s) i) as [p Hp].
    { apply lookup_lt_Some in Hv. destruct Hwf as (-> & <- & _). exact Hv. }
    exists p. split; [exact Hp|].
    destruct (Forall2_lookup_l _ _ _ _ _ Hshape Hv) as (r & Hr & Hvr).
    assert (path (after_success interval s sr a c) !! i
            = Some (p ++ [sample_of r])) as Hp'.
    { simpl. rewrite lookup_zip_with, Hp. simpl. rewrite Hr. reflexivity. }
    assert (vpoints (after_success interval s sr a c) !! i
            = Some (moved v r)) as Hv'.
    { simpl. rewrite lookup_zip_with, Hv. simpl. rewrite Hr. reflexivity. }
    destruct r as [co|slot pin]; simpl in Hvr; rewrite Hvr; eauto 10.
  - intros interval' s'' H. apply step_Ok_inv in H as (_ & _ & H & _).
    eexists. split; [exact H|]. reflexivity.
Qed.

(** ** The drivers' angles *)

Lemma pending_at_zero (vpoints0 : list VPoint) (interval : Z) (s : state) :
  during_trace vpoints0 interval s ->
  forall j, (dp s < j < i_count)%nat -> angles s !! j = Some 0.
Proof.
  apply (during_trace_invariant vpoints0
           (fun s => forall j, (dp s < j < i_count)%nat -> angles s !! j = Some 0)).
  - intros j Hj. apply lookup_replicate_2. lia.
  - intros s0 _ j Hj. apply lookup_replicate_2. lia.
  - intros i s0 s' _ Hs0 _ H j Hj.
    pose proof (dp_step _ _ _ _ H) as Hdp.
    apply step_Ok_inv in H as (a & _ & _ & H).
    assert (exists x, angles s' = <[dp s0 := x]> (angles s0)) as [x ->].
    { destruct (expr_solving exprs mapping (vpoints s0) (angles s0)).
      - destruct H as (_ & c & _ & _ & H).
        destruct (360 <? c + Z.abs i); destruct H as [-> _]; eauto.
      - destruct H as (_ & _ & -> & _). eauto. }
    rewrite list_lookup_insert_ne by lia. apply Hs0. lia.
Qed.

(** C6. While driver [k] is active, a turn of the loop, whether the solve
    succeeds or fails, leaves the angle of every other driver as it was;
    the drivers after [k] are at angle 0 before and after the turn, and the
    pointer never moves back. *)
Theorem only_active_driver_changes (vpoints0 : list VPoint) (interval : Z)
    (s s' : state) :
  during_trace vpoints0 interval s ->
  step (length vpoints0) interval s = Ok s' ->
  (forall j, j <> dp s -> angles s' !! j = angles s !! j) /\
  (forall j, (dp s < j < i_count)%nat ->
     angles s !! j = Some 0 /\ angles s' !! j = Some 0) /\
  (dp s <= dp s' <= S (dp s))%nat.
Proof.
  intros Htrace H.
  assert (forall j, j <> dp s -> angles s' !! j = angles s !! j) as Hother.
  { intros j Hj. apply step_Ok_inv in H as (a & _ & _ & H).
    destruct (expr_solving exprs mapping (vpoints s) (angles s)).
    - destruct H as (_ & c & _ & _ & H).
      destruct (360 <? c + Z.abs interval); destruct H as [-> _];
        apply list_lookup_insert_ne; auto.
    - destruct H as (_ & _ & -> & _). apply list_lookup_insert_ne; auto. }
  split; [exact Hother|]. split.
  - intros j Hj.
    pose proof (pending_at_zero vpoints0 interval s Htrace j Hj) as H0.
    split; [exact H0|]. rewrite Hother by lia. exact H0.
  - apply dp_step in H. lia.
Qed.

Lemma angles_invariant (vpoints0 : list VPoint) (interval : Z) (s : state) :
  during_trace vpoints0 interval s ->
  forall j a, angles s !! j = Some a ->
    (3 | a) /\ ((dp s <= j)%nat -> 0 <= a < 360) /\
    ((j < dp s)%nat -> -3 <= a <= 360).
Proof.
  apply (during_trace_invariant vpoints0
           (fun s => forall j a, angles s !! j = Some a ->
              (3 | a) /\ ((dp s <= j)%nat -> 0 <= a < 360) /\
              ((j < dp s)%nat -> -3 <= a <= 360))).
  - intros j a Hj. apply lookup_replicate_1 in Hj as [-> _].
    split; [apply Z.divide_0_r|]. simpl. lia.
  - intros s0 _ j a Hj. apply lookup_replicate_1 in Hj as [-> _].
    split; [apply Z.divide_0_r|]. simpl. lia.
  - intros i s0 s' Hi Hs0 _ H j x Hx.
    apply step_Ok_inv in H as (a & Ha & _ & H).
    destruct (Hs0 _ _ Ha) as (Hdiv & Hact & _).
    specialize (Hact (Nat.le_refl _)).
    pose proof (wrap_range a i Hi Hdiv) as [Hwdiv Hwrange].
    assert (dp s0 < length (angles s0))%nat as Hlen
      by (apply lookup_lt_Some in Ha; exact Ha).
    assert ((3 | i)) as Hidiv
      by (destruct Hi as [-> | ->]; [exists 1 | exists (-1)]; lia).
    assert (a <= 357) as Ha357 by (destruct Hdiv as [q Hq]; lia).
    assert (forall y d,
              angles s' = <[dp s0 := y]> (angles s0) -> dp s' = d ->
              (3 | y) ->
              ((d <= dp s0)%nat -> 0 <= y < 360) -> -3 <= y <= 360 ->
              (dp s0 <= d)%nat ->
              (3 | x) /\ ((d <= j)%nat -> 0 <= x < 360) /\
              ((j < d)%nat -> -3 <= x <= 360)) as Hupd.
    { intros y d Hy _ Hy3 Hyact Hyset Hd. rewrite Hy in Hx.
      destruct (decide (j = dp s0)) as [-> | Hne].
      - rewrite list_lookup_insert_eq in Hx by exact Hlen.
        injection Hx as <-. split; [exact Hy3|]. split; intros; auto.
      - rewrite list_lookup_insert_ne in Hx by auto.
        destruct (Hs0 _ _ Hx) as (? & Hge & Hlt).
        split; [assumption|]. split; intros.
        + apply Hge. lia.
        + destruct (decide (j < dp s0)%nat); [auto|].
          assert (0 <= x < 360) by (apply Hge; lia). lia. }
    destruct (expr_solving exprs mapping (vpoints s0) (angles s0)).
    + destruct H as (_ & c & _ & _ & H).
      destruct (360 <? c + Z.abs i); destruct H as [Hy Hd]; rewrite Hd.
      * apply (Hupd _ _ Hy Hd); [apply Z.divide_sub_r; assumption|lia|lia|lia].
      * apply (Hupd _ _ Hy Hd); [assumption|lia|lia|lia].
    + destruct H as (_ & _ & Hy & _ & Hd). rewrite Hd.
      apply (Hupd _ _ Hy Hd); [apply Z.divide_sub_r; assumption|lia|lia|lia].
Qed.

(** C7 (as the code has it). Throughout a trace the angle of the active
    driver and of the drivers not yet started lies in [0, 360): the wrap
    follows every advance. The angle a settled driver is left at, after a
    failure back-off or the roll-back that ends its revolution, is not
    wrapped again: it lies within one interval of that range, from -3 to
    360 inclusive. *)
Theorem settled_angles_within_one_interval (vpoints0 : list VPoint)
    (interval : Z) (s : state) (j : nat) (a : Z) :
  during_trace vpoints0 interval s -> angles s !! j = Some a ->
  ((dp s <= j)%nat -> 0 <= a < 360) /\ ((j < dp s)%nat -> -3 <= a <= 360).
Proof.
  intros Htrace Ha.
  destruct (angles_invariant vpoints0 interval s Htrace j a Ha) as (_ & ? & ?).
  auto.
Qed.


(** ** Paths and solver calls *)

Lemma paths_aligned (vpoints0 : list VPoint) (interval : Z) (s : state) :
  solver_ok -> during_trace vpoints0 interval s ->
  forall i seq, path s !! i = Some seq ->
    Forall2 (fun smp c => entry_of i c = Some smp) seq (calls s).
Proof.
  intros Hok Htrace.
  cut (well_formed (length vpoints0) s /\
       forall i seq, path s !! i = Some seq ->
         Forall2 (fun smp c => entry_of i c = Some smp) seq (calls s)).
  { intros [_ H]. exact H. }
  revert interval s Htrace. apply during_trace_invariant.
  - split; [apply well_formed_init|]. intros i seq Hseq. simpl in *.
    apply lookup_replicate_1 in Hseq as [-> _]. constructor.
  - intros s [Hwf H]. split; [apply well_formed_start, Hwf|]. exact H.
  - intros interval s s' _ [Hwf H] _ Hstep.
    split; [eapply well_formed_step; eauto|].
    destruct (step_cases _ _ _ _ Hok Hwf Hstep)
      as (a & _ & [[Hnone ->] | (sr & c & Hsr & _ & _ & ->)]);
      intros i seq' Hseq'; simpl in Hseq' |- *.
    + rewrite list_lookup_fmap in Hseq'.
      apply fmap_Some in Hseq' as (seq & Hseq & ->).
      apply Forall2_app; [apply H, Hseq|].
      repeat constructor.
    + apply lookup_zip_with_Some in Hseq' as (seq & r & -> & Hseq & Hr).
      apply Forall2_app; [apply H, Hseq|].
      repeat constructor. unfold entry_of. simpl. rewrite Hr. reflexivity.
Qed.

(** C3. For a solver that keeps its contract, the trace returns a Path
    with one sequence per joint, every sequence as long as the list of the
    solver calls made over the two directions, successes and failures
    together, and entry [k] of every sequence is what call [k] gave that
    joint: the sentinel when the call failed, the joint's sample of the
    answer otherwise. *)
Theorem path_aligned_with_solver_calls (vpoints0 : list VPoint) :
  solver_ok ->
  exists s,
    get_path_state vpoints0 = Ok s /\ get_path vpoints0 = Ok (path s) /\
    length (path s) = length vpoints0 /\
    forall i seq, path s !! i = Some seq ->
      length seq = length (calls s) /\
      forall k c, calls s !! k = Some c ->
        exists smp, seq !! k = Some smp /\ entry_of i c = Some smp.
Proof.
  intros Hok.
  destruct (get_path_state_total vpoints0 Hok)
    as (s1 & s & _ & _ & _ & _ & Hwf & _ & Hs).
  exists s. split; [exact Hs|]. split.
  { unfold get_path. rewrite Hs. reflexivity. }
  split; [apply Hwf|]. intros i seq Hseq.
  pose proof (paths_aligned vpoints0 (-3) s Hok
                (during_trace_final vpoints0 s Hs) i seq Hseq) as Hall.
  split; [eapply Forall2_length; eauto|].
  intros k c Hc. exact (Forall2_lookup_r _ _ _ _ _ Hall Hc).
Qed.

(** ** The number of drivers *)

Lemma i_count_of_no_plap (es : list expr) :
  (forall e, e ∈ es -> func e <> "PLAP"%string) -> i_count_of es = 0%nat.
Proof.
  unfold i_count_of. induction es as [|e es IH]; intros H; [reflexivity|].
  rewrite filter_cons. destruct (decide (func e = "PLAP"%string)) as [He|_].
  - exfalso. apply (H e); [left | exact He].
  - apply IH. intros e' He'. apply H. right. exact He'.
Qed.

Lemma get_path_state_no_driver (vpoints0 : list VPoint) :
  i_count = 0%nat ->
  get_path_state vpoints0
  = Ok (mk_state (replicate (length vpoints0) []) vpoints0 [] [] 0 []).
Proof.
  intros H0.
  unfold get_path_state, directions, direction, sweep, turns_left,
    start_sweep, init_state.
  rewrite H0. reflexivity.
Qed.

Lemma calls_below_count (vpoints0 : list VPoint) (interval : Z) (s : state) :
  during_trace vpoints0 interval s ->
  forall c, c ∈ calls s ->
    (call_dp c < i_count)%nat /\ length (call_angles c) = i_count.
Proof.
  intros Htrace.
  cut (well_formed (length vpoints0) s /\
       forall c, c ∈ calls s ->
         (call_dp c < i_count)%nat /\ length (call_angles c) = i_count).
  { intros [_ H]. exact H. }
  revert interval s Htrace. apply during_trace_invariant.
  - split; [apply well_formed_init|]. intros c Hc. simpl in Hc.
    apply elem_of_nil in Hc. contradiction.
  - intros s [Hwf H]. split; [apply well_formed_start, Hwf|]. exact H.
  - intros interval s s' _ [Hwf H] Hdp Hstep.
    split; [eapply well_formed_step; eauto|].
    apply step_Ok_inv in Hstep as (_ & _ & -> & _).
    intros c Hc. apply elem_of_app in Hc as [Hc|Hc]; [auto|].
    apply list_elem_of_singleton in Hc as ->. simpl.
    split; [exact Hdp | apply Hwf].
Qed.

(** The calls the loop adds, from a state [s] to its end: they are made in
    the direction of the loop, driver after driver from [dp s] on, and no
    driver below [i_count] is left out. *)
Lemma while_loop_calls (n : nat) (interval : Z) (k : nat) :
  forall s s',
    while_loop n interval k s = Ok s' -> (i_count <= dp s')%nat ->
    exists new,
      calls s' = calls s ++ new /\
      Forall (fun c => call_interval c = interval /\ (dp s <= call_dp c)%nat) new /\
      (forall d, (dp s <= d < i_count)%nat -> exists c, c ∈ new /\ call_dp c = d) /\
      StronglySorted (fun c c' => (call_dp c <= call_dp c')%nat) new.
Proof.
  induction k as [|k IH]; intros s s'; simpl.
  - intros [= <-] Hend. exists []. rewrite app_nil_r.
    repeat split; [constructor | intros d Hd; lia | constructor].
  - intros H Hend. apply bind_Ok_inv in H as (s1 & H1 & H).
    destruct (IH s1 s' H Hend) as (new & Hcalls & Hall & Hcover & Hsort).
    unfold iteration in H1.
    destruct (decide (dp s < i_count)%nat) as [Hdp|Hdp].
    + pose proof (dp_step _ _ _ _ H1) as Hnext.
      apply step_Ok_inv in H1 as (_ & _ & Hc1 & _).
      assert (Forall (fun c => (dp s <= call_dp c)%nat) new) as Hfrom.
      { eapply Forall_impl; [exact Hall|]. intros c [_ Hc]. simpl. lia. }
      eexists (_ :: new). split; [|split; [|split]].
      * rewrite Hcalls, Hc1, <- app_assoc. reflexivity.
      * constructor; [simpl; auto|].
        eapply Forall_impl; [exact Hall|]. intros c [Hi Hc]. simpl. split; [exact Hi | lia].
      * intros d Hd. destruct (decide (d = dp s)) as [->|Hne].
        -- eexists. split; [left | reflexivity].
        -- destruct (Hcover d) as (c & Hin & Hcd); [lia|].
           exists c. split; [right; exact Hin | exact Hcd].
      * constructor; [exact Hsort | exact Hfrom].
    + injection H1 as <-. exists new. auto.
Qed.

(** The calls of a whole loop that starts with the first driver. *)
Lemma sweep_calls (n : nat) (interval : Z) (s s' : state) :
  interval <> 0 -> well_formed n s -> dp s = 0%nat ->
  (forall c, c ∈ calls s' -> (call_dp c < i_count)%nat) ->
  sweep n interval s = Ok s' ->
  exists new, calls s' = calls s ++ new /\ drivers_swept interval new.
Proof.
  intros Hi Hwf Hdp Hbelow H.
  pose proof (sweep_Ok_inv n interval s s' Hi Hwf ltac:(lia) H) as [_ Hend].
  destruct (while_loop_calls n interval _ s s' H ltac:(lia))
    as (new & Hcalls & Hall & Hcover & Hsort).
  exists new. split; [exact Hcalls|]. split; [|split; [|exact Hsort]].
  - eapply Forall_impl; [exact Hall|]. intros c [Hc _]. exact Hc.
  - intros k. split.
    + intros Hk. apply Hcover. lia.
    + intros (c & Hin & <-). apply Hbelow. rewrite Hcalls.
      apply elem_of_app. right. exact Hin.
Qed.

(** C10. The drivers swept are the steps of the expression tagged 'PLAP':
    with a solver that keeps its contract, the loop of either direction
    ends with the pointer equal to the number of those steps, and every
    solver call was made with the pointer below that number and with that
    many angles. The calls are those of the forward direction followed by
    those of the backward direction, and each direction solves for every
    driver below that number at least once, for no other, one driver after
    the other. An expression with no 'PLAP' step gives one empty sequence
    per joint, and the solver is never called. *)
Theorem driver_count_is_plap_count (vpoints0 : list VPoint) :
  (solver_ok ->
   exists s1 s2,
     direction (length vpoints0) (init_state vpoints0) 3 = Ok s1 /\
     dp s1 = i_count_of exprs /\
     direction (length vpoints0) s1 (-3) = Ok s2 /\
     dp s2 = i_count_of exprs /\
     get_path_state vpoints0 = Ok s2 /\
     (forall c, c ∈ calls s2 ->
        (call_dp c < i_count_of exprs)%nat /\
        length (call_angles c) = i_count_of exprs) /\
     exists backward,
       calls s2 = calls s1 ++ backward /\
       drivers_swept 3 (calls s1) /\ drivers_swept (-3) backward) /\
  ((forall e, e ∈ exprs -> func e <> "PLAP"%string) ->
   get_path vpoints0 = Ok (replicate (length vpoints0) []) /\
   exists s, get_path_state vpoints0 = Ok s /\ calls s = []).
Proof.
  split.
  - intros Hok.
    destruct (get_path_state_total vpoints0 Hok)
      as (s1 & s2 & H1 & Hwf1 & Hdp1 & H2 & _ & Hdp2 & Hs).
    exists s1, s2. repeat (split; [assumption|]).
    assert (forall c, c ∈ calls s2 ->
              (call_dp c < i_count)%nat /\ length (call_angles c) = i_count)
      as Hbelow2
      by (apply (calls_below_count vpoints0 (-3)), during_trace_final, Hs).
    assert (forall c, c ∈ calls s1 -> (call_dp c < i_count)%nat) as Hbelow1.
    { intros c Hc.
      apply (calls_below_count vpoints0 3 s1); [|exact Hc].
      left. split; [reflexivity|]. eexists. exact H1. }
    split; [exact Hbelow2|].
    unfold direction in H1, H2.
    destruct (sweep_calls _ 3 _ s1 ltac:(lia)
                (well_formed_start _ _ (well_formed_init vpoints0))
                eq_refl Hbelow1 H1) as (forward & Hf & Hforward).
    destruct (sweep_calls _ (-3) _ s2 ltac:(lia)
                (well_formed_start _ _ Hwf1) eq_refl
                (fun c Hc => proj1 (Hbelow2 c Hc)) H2)
      as (backward & Hb & Hbackward).
    simpl in Hf, Hb. exists backward.
    split; [exact Hb|]. split; [rewrite Hf; exact Hforward | exact Hbackward].
  - intros Hno. apply i_count_of_no_plap in Hno.
    pose proof (get_path_state_no_driver vpoints0 Hno) as Hs.
    split; [unfold get_path; rewrite Hs; reflexivity|].
    eexists. split; [exact Hs | reflexivity].
Qed.

(** ** Errors *)

(** C5 (as the code has it). The trace checks none of its inputs and has no
    configuration error to raise. A failing solve never escapes: the turn
    goes on to the next state. With a solver that keeps its contract every
    expression, mapping and joint list gives a Path of one sequence per
    joint, and an expression without drivers, the empty one included,
    gives the Path of empty sequences whatever the solver. *)
Theorem trace_returns_path_on_any_input (vpoints0 : list VPoint) :
  (forall interval s,
     during_trace vpoints0 interval s -> (dp s < i_count)%nat ->
     expr_solving exprs mapping (vpoints s) (angles s) = None ->
     exists s', step (length vpoints0) interval s = Ok s') /\
  (solver_ok ->
   exists p, get_path vpoints0 = Ok p /\ length p = length vpoints0) /\
  (i_count_of exprs = 0%nat ->
   get_path vpoints0 = Ok (replicate (length vpoints0) [])).
Proof.
  split; [|split].
  - intros interval s Htrace Hdp Hnone.
    pose proof (during_trace_well_formed vpoints0 interval s Htrace) as Hwf.
    destruct (well_formed_lookups _ s Hwf Hdp) as (a & _ & Ha & _).
    eexists. apply step_failure; eauto.
  - intros Hok.
    destruct (get_path_state_total vpoints0 Hok)
      as (s1 & s & _ & _ & _ & _ & Hwf & _ & Hs).
    exists (path s). split; [unfold get_path; rewrite Hs; reflexivity|].
    apply Hwf.
  - intros H0. unfold get_path.
    rewrite (get_path_state_no_driver vpoints0 H0). reflexivity.
Qed.

(** ** The length of a revolution *)

(** C2 (as the code has it). From the turn a driver becomes active with
    cumulative progress [c], and as long as no solve fails, the pointer
    stays on that driver for exactly [(360 - c) / 3 + 1] turns (one turn
    when [c] is already above 360), each adding one accepted sample to
    every path, and then moves on: the progress has to exceed 360, so a
    driver that starts at progress 0 gives 121 samples and ends at progress
    363, and a driver whose progress is already above 360 gives one. *)
Theorem revolution_sample_count (n : nat) (interval : Z) (s : state) (a c : Z) :
  interval = 3 \/ interval = -3 ->
  well_formed n s -> (dp s < i_count)%nat ->
  angles s !! dp s = Some a -> angles_params s !! dp s = Some c ->
  (forall j sj, (j < steps_left interval c)%nat ->
     while_loop n interval j s = Ok sj ->
     exists sr, expr_solving exprs mapping (vpoints sj) (angles sj) = Some sr /\
                Forall2 shape_ok (vpoints sj) sr) ->
  exists s',
    while_loop n interval (steps_left interval c) s = Ok s' /\
    dp s' = S (dp s) /\
    (forall j, (j < steps_left interval c)%nat ->
       exists sj, while_loop n interval j s = Ok sj /\ dp sj = dp s) /\
    (forall i p, path s !! i = Some p ->
       exists new, path s' !! i = Some (p ++ new) /\
                   length new = steps_left interval c /\ NaN ∉ new) /\
    angles_params s' !! dp s
    = Some (c + Z.of_nat (steps_left interval c) * 3) /\
    steps_left interval c = Z.to_nat (Z.max 1 ((360 - c) / 3 + 1)) /\
    (c = 0 -> steps_left interval c = 121%nat) /\
    (360 < c -> steps_left interval c = 1%nat).
Proof.
  intros Hi Hwf Hdp Ha Hc Hsolve.
  assert (interval <> 0) as Hne by lia.
  assert (Z.abs interval = 3) as Habs by lia.
  destruct (driver_block n interval Hne (steps_left interval c) s a c
              Hwf Hdp Ha Hc eq_refl Hsolve)
    as (s' & Hrun & _ & Hdp' & Hmid & Hpar & _ & _ & Hpath).
  exists s'. repeat (split; [assumption|]). split.
  { rewrite Hpar, Habs. apply list_lookup_insert_eq.
    apply lookup_lt_Some in Hc. exact Hc. }
  unfold steps_left. rewrite Habs. split; [reflexivity|]. split.
  - intros ->. reflexivity.
  - intros Hc'. assert ((360 - c) / 3 < 0)
      by (apply Z.div_lt_upper_bound; lia).
    lia.
Qed.


(** ** Two drivers, every solve succeeding *)

Lemma while_loop_add (n : nat) (interval : Z) (k1 k2 : nat) (s : state) :
  while_loop n interval (k1 + k2) s
  = while_loop n interval k1 s ≫= while_loop n interval k2.
Proof.
  revert s. induction k1 as [|k1 IH]; intros s; simpl; [reflexivity|].
  destruct (iteration n interval s) as [s1|e]; simpl; [apply IH | reflexivity].
Qed.

(** A run that has reached the end of the loop is the whole loop. *)
Lemma sweep_of_ended_run (n : nat) (interval : Z) (k : nat) (s s' : state) :
  interval <> 0 -> well_formed n s ->
  while_loop n interval k s = Ok s' -> ~ (dp s' < i_count)%nat ->
  sweep n interval s = Ok s'.
Proof.
  intros Hi Hwf Hrun Hend. unfold sweep.
  destruct (Nat.le_gt_cases k (turns_left interval s)) as [Hle|Hgt].
  - replace (turns_left interval s) with (k + (turns_left interval s - k))%nat
      by lia.
    rewrite while_loop_add, Hrun. simpl. apply while_loop_done, Hend.
  - replace k with (turns_left interval s + (k - turns_left interval s))%nat
      in Hrun by lia.
    rewrite while_loop_add in Hrun.
    apply bind_Ok_inv in Hrun as (s2 & H2 & Hrun).
    pose proof (while_loop_exits n interval Hi _ s s2 Hwf (Nat.le_refl _) H2).
    rewrite while_loop_done in Hrun by lia. congruence.
Qed.

Lemma angle_at_0 (j : nat) : angle_at 3 0 j = (3 * Z.of_nat j) mod 360.
Proof.
  destruct j as [|j]; [reflexivity|]. unfold angle_at. f_equal. lia.
Qed.

(** The angles of a call of a revolution of driver [k], as a list. *)
Lemma block_call_angles (interval : Z) (k : nat) (angs : list Z) (c : call)
    (x : Z) :
  block_call interval k angs c ->
  call_angles c !! k = Some x ->
  call_interval c = interval /\ call_dp c = k /\
  call_angles c = <[k := x]> angs.
Proof.
  intros (Hi & Hk & _ & Hlen & Hother) Hx.
  split; [exact Hi|]. split; [exact Hk|].
  apply list_eq. intros j. destruct (decide (j = k)) as [-> | Hne].
  - rewrite Hx. symmetry. apply list_lookup_insert_eq.
    apply lookup_lt_Some in Hx. lia.
  - rewrite list_lookup_insert_ne by auto. apply Hother. exact Hne.
Qed.


Lemma driver_block_always (n : nat) (interval : Z) (s : state) (a c : Z) :
  interval <> 0 -> always_solves ->
  well_formed n s -> (dp s < i_count)%nat ->
  angles s !! dp s = Some a -> angles_params s !! dp s = Some c ->
  exists s' blk,
    while_loop n interval (steps_left interval c) s = Ok s' /\
    well_formed n s' /\ dp s' = S (dp s) /\
    angles_params s'
    = <[dp s := c + Z.of_nat (steps_left interval c) * Z.abs interval]>
        (angles_params s) /\
    angles s'
    = <[dp s := (a + Z.of_nat (steps_left interval c) * interval) mod 360
                - interval]> (angles s) /\
    calls s' = calls s ++ blk /\ length blk = steps_left interval c /\
    (forall j cl, blk !! j = Some cl ->
       call_interval cl = interval /\ call_dp cl = dp s /\
       call_angles cl = <[dp s := angle_at interval a j]> (angles s)) /\
    (forall i p, path s !! i = Some p ->
       exists new, path s' !! i = Some (p ++ new) /\
                   length new = steps_left interval c /\ NaN ∉ new).
Proof.
  intros Hi Halways Hwf Hdp Ha Hc.
  destruct (driver_block n interval Hi (steps_left interval c) s a c
              Hwf Hdp Ha Hc eq_refl)
    as (s' & Hrun & Hwf' & Hdp' & _ & Hpar & Hang
        & (blk & Hblk & Hlb & Hfb & Hact) & Hpath).
  { intros j sj _ _. apply Halways. }
  exists s', blk. repeat (split; [assumption|]). split; [|exact Hpath].
  intros j cl Hcl. apply (block_call_angles interval); [|eauto].
  rewrite Forall_lookup in Hfb. eauto.
Qed.

(** C1 (as the code has it). With two drivers and a solver that answers
    every call, the trace makes 244 calls: 121 for each driver in the
    forward direction, then one for each driver in the backward direction,
    since the cumulative progress is carried over from the forward
    direction and is already above 360. Either direction starts with both
    angles at 0. In the forward direction driver 0 is solved at
    [3 j mod 360] for [j] from 0 to 120, and driver 1's samples are taken
    with driver 0 at 0, the angle of its last solve; in the backward
    direction driver 1's sample is taken with driver 0 left at 360. Every
    path holds the 244 accepted samples. *)
Theorem two_drivers_always_solved (vpoints0 : list VPoint) :
  i_count_of exprs = 2%nat -> always_solves ->
  exists s F0 F1 B0 B1,
    get_path_state vpoints0 = Ok s /\ get_path vpoints0 = Ok (path s) /\
    calls s = F0 ++ F1 ++ B0 ++ B1 /\
    length F0 = 121%nat /\ length F1 = 121%nat /\
    length B0 = 1%nat /\ length B1 = 1%nat /\
    (forall j c, F0 !! j = Some c ->
       call_interval c = 3 /\ call_dp c = 0%nat /\
       call_angles c = [(3 * Z.of_nat j) mod 360; 0]) /\
    (forall j c, F1 !! j = Some c ->
       call_interval c = 3 /\ call_dp c = 1%nat /\
       call_angles c = [0; (3 * Z.of_nat j) mod 360]) /\
    (forall c, c ∈ B0 ->
       call_interval c = -3 /\ call_dp c = 0%nat /\ call_angles c = [0; 0]) /\
    (forall c, c ∈ B1 ->
       call_interval c = -3 /\ call_dp c = 1%nat /\ call_angles c = [360; 0]) /\
    (forall i seq, path s !! i = Some seq ->
       length seq = 244%nat /\ NaN ∉ seq).
Proof.
  intros H2 Halways.
  set (n := length vpoints0).
  set (s0 := start_sweep (init_state vpoints0)).
  assert (well_formed n s0) as Hwf0
    by apply well_formed_start, well_formed_init.
  assert (angles s0 = [0; 0]) as Ha0 by (simpl; rewrite H2; reflexivity).
  assert (angles_params s0 = [0; 0]) as Hc0 by (simpl; rewrite H2; reflexivity).
  (* forward, driver 0 *)
  destruct (driver_block_always n 3 s0 0 0) as
    (s1 & F0 & Hrun1 & Hwf1 & Hdp1 & Hc1 & Ha1 & Hcalls1 & HlF0 & HF0 & Hp1);
    [lia | exact Halways | exact Hwf0 | simpl; lia
     | rewrite Ha0; reflexivity | rewrite Hc0; reflexivity |].
  change (dp s0) with 0%nat in *. change (calls s0) with (@nil call) in *.
  change (steps_left 3 0) with 121%nat in *.
  rewrite Ha0 in Ha1, HF0. rewrite Hc0 in Hc1.
  change (<[0%nat := (0 + Z.of_nat 121 * 3) mod 360 - 3]> [0; 0])
    with [0; 0] in Ha1.
  change (<[0%nat := 0 + Z.of_nat 121 * Z.abs 3]> [0; 0]) with [363; 0] in Hc1.
  (* forward, driver 1 *)
  destruct (driver_block_always n 3 s1 0 0) as
    (s2 & F1 & Hrun2 & Hwf2 & Hdp2 & Hc2 & Ha2 & Hcalls2 & HlF1 & HF1 & Hp2);
    [lia | exact Halways | exact Hwf1 | lia
     | rewrite Hdp1, Ha1; reflexivity | rewrite Hdp1, Hc1; reflexivity |].
  change (steps_left 3 0) with 121%nat in *.
  rewrite Hdp1 in *. rewrite Ha1 in Ha2, HF1. rewrite Hc1 in Hc2.
  change (<[1%nat := (0 + Z.of_nat 121 * 3) mod 360 - 3]> [0; 0])
    with [0; 0] in Ha2.
  change (<[1%nat := 0 + Z.of_nat 121 * Z.abs 3]> [363; 0])
    with [363; 363] in Hc2.
  assert (direction n (init_state vpoints0) 3 = Ok s2) as Hfwd.
  { unfold direction. apply (sweep_of_ended_run n 3 (121 + 121));
      [lia | exact Hwf0 | | lia].
    rewrite while_loop_add. fold s0. rewrite Hrun1. exact Hrun2. }
  (* backward, driver 0 *)
  set (t0 := start_sweep s2).
  assert (well_formed n t0) as Hwft0 by apply well_formed_start, Hwf2.
  assert (angles t0 = [0; 0]) as Hat0 by (simpl; rewrite H2; reflexivity).
  assert (angles_params t0 = [363; 363]) as Hct0 by exact Hc2.
  destruct (driver_block_always n (-3) t0 0 363) as
    (s3 & B0 & Hrun3 & Hwf3 & Hdp3 & Hc3 & Ha3 & Hcalls3 & HlB0 & HB0 & Hp3);
    [lia | exact Halways | exact Hwft0 | simpl; lia
     | rewrite Hat0; reflexivity | rewrite Hct0; reflexivity |].
  change (dp t0) with 0%nat in *. change (calls t0) with (calls s2) in *.
  change (path t0) with (path s2) in *.
  change (steps_left (-3) 363) with 1%nat in *.
  rewrite Hat0 in Ha3, HB0. rewrite Hct0 in Hc3.
  change (<[0%nat := (0 + Z.of_nat 1 * -3) mod 360 - -3]> [0; 0])
    with [360; 0] in Ha3.
  change (<[0%nat := 363 + Z.of_nat 1 * Z.abs (-3)]> [363; 363])
    with [366; 363] in Hc3.
  (* backward, driver 1 *)
  destruct (driver_block_always n (-3) s3 0 363) as
    (s4 & B1 & Hrun4 & Hwf4 & Hdp4 & Hc4 & Ha4 & Hcalls4 & HlB1 & HB1 & Hp4);
    [lia | exact Halways | exact Hwf3 | lia
     | rewrite Hdp3, Ha3; reflexivity | rewrite Hdp3, Hc3; reflexivity |].
  change (steps_left (-3) 363) with 1%nat in *.
  rewrite Hdp3 in *. rewrite Ha3 in HB1.
  assert (direction n s2 (-3) = Ok s4) as Hbwd.
  { unfold direction. apply (sweep_of_ended_run n (-3) (1 + 1));
      [lia | exact Hwft0 | | lia].
    rewrite while_loop_add. fold t0. rewrite Hrun3. exact Hrun4. }
  assert (get_path_state vpoints0 = Ok s4) as Hs4.
  { unfold get_path_state, directions. fold n. rewrite Hfwd. simpl.
    rewrite Hbwd. reflexivity. }
  exists s4, F0, F1, B0, B1.
  split; [exact Hs4|]. split; [unfold get_path; rewrite Hs4; reflexivity|].
  split.
  { rewrite Hcalls4, Hcalls3, Hcalls2, Hcalls1. simpl.
    rewrite <- !app_assoc. reflexivity. }
  do 4 (split; [assumption|]). split.
  { intros j c Hc. destruct (HF0 j c Hc) as (? & ? & ->).
    rewrite angle_at_0. auto. }
  split.
  { intros j c Hc. destruct (HF1 j c Hc) as (? & ? & ->).
    rewrite angle_at_0. auto. }
  split.
  { intros c Hc. apply list_elem_of_lookup in Hc as [j Hc].
    assert (j = 0%nat) as -> by (apply lookup_lt_Some in Hc; lia).
    destruct (HB0 0%nat c Hc) as (? & ? & ->). auto. }
  split.
  { intros c Hc. apply list_elem_of_lookup in Hc as [j Hc].
    assert (j = 0%nat) as -> by (apply lookup_lt_Some in Hc; lia).
    destruct (HB1 0%nat c Hc) as (? & ? & ->). auto. }
  intros i seq Hseq.
  assert (path s0 !! i = Some []) as Hi0.
  { apply lookup_lt_Some in Hseq. simpl. apply lookup_replicate_2.
    destruct Hwf4 as (Hl4 & _). fold n. lia. }
  destruct (Hp1 i _ Hi0) as (n1 & Hn1 & Hl1 & Hnan1).
  destruct (Hp2 i _ Hn1) as (n2 & Hn2 & Hl2 & Hnan2).
  destruct (Hp3 i _ Hn2) as (n3 & Hn3 & Hl3 & Hnan3).
  destruct (Hp4 i _ Hn3) as (n4 & Hn4 & Hl4 & Hnan4).
  rewrite Hn4 in Hseq. injection Hseq as <-.
  split.
  - rewrite !length_app. simpl. lia.
  - rewrite !elem_of_app. pose proof (elem_of_nil (NaN : sample)). tauto.
Qed.


End PathTracer.

Arguments Coord {coord} c.
Arguments SlotPin {coord} slot pin.
Arguments At {coord} c.
Arguments NaN {coord}.
Arguments mk_call {coord VPoint} call_interval call_dp call_vpoints
  call_angles call_result.
Arguments call_interval {coord VPoint} c.
Arguments call_dp {coord VPoint} c.
Arguments call_vpoints {coord VPoint} c.
Arguments call_angles {coord VPoint} c.
Arguments call_result {coord VPoint} c.
Arguments mk_state {coord VPoint} path vpoints angles angles_params dp calls.
Arguments path {coord VPoint} s.
Arguments vpoints {coord VPoint} s.
Arguments angles {coord VPoint} s.
Arguments angles_params {coord VPoint} s.
Arguments dp {coord VPoint} s.
Arguments calls {coord VPoint} s.
Arguments step {coord VPoint} vtype move {Mapping} expr_solving exprs mapping
  vpoint_count interval s.
Arguments iteration {coord VPoint} vtype move {Mapping} expr_solving exprs
  mapping vpoint_count interval s.
Arguments while_loop {coord VPoint} vtype move {Mapping} expr_solving exprs
  mapping vpoint_count interval n s.
Arguments turns_left {coord VPoint} interval s.
Arguments sweep {coord VPoint} vtype move {Mapping} expr_solving exprs mapping
  vpoint_count interval s.
Arguments init_state {coord VPoint} exprs vpoints.
Arguments start_sweep {coord VPoint} exprs s.
Arguments direction {coord VPoint} vtype move {Mapping} expr_solving exprs
  mapping vpoint_count s interval.
Arguments directions {coord VPoint} vtype move {Mapping} expr_solving exprs
  mapping vpoint_count intervals s.
Arguments get_path_state {coord VPoint} vtype move {Mapping} expr_solving exprs
  mapping vpoints.
Arguments get_path {coord VPoint} vtype move {Mapping} expr_solving exprs
  mapping vpoints.
Arguments shape_ok {coord VPoint} vtype v r.
Arguments solver_ok {coord VPoint} vtype {Mapping} expr_solving exprs mapping.
Arguments always_solves {coord VPoint} vtype {Mapping} expr_solving exprs
  mapping.
Arguments well_formed {coord VPoint} exprs vpoint_count s.
Arguments entry_of {coord VPoint} i c.
Arguments during_trace {coord VPoint} vtype move {Mapping} expr_solving exprs
  mapping vpoints0 interval s.

(** ** A sample mechanism *)

(** Joints that keep their kind and the two coordinates of their last
    [move]; coordinates are pairs of integers. *)
Definition xy : Type := (Z * Z)%type.

Record vpoint : Type := mk_vpoint {
  vp_type : VJoint.t;
  vp_c1 : xy;
  vp_c2 : xy
}.

Definition vp_move (v : vpoint) (c1 : xy) (c2 : option xy) : vpoint :=
  mk_vpoint (vp_type v) c1 (default c1 c2).

(** A pin joint, a slider and a pin in a slot. *)
Definition three_joints : list vpoint :=
  [mk_vpoint VJoint.R (0, 0) (0, 0);
   mk_vpoint VJoint.P (10, 0) (10, 0);
   mk_vpoint VJoint.RP (5, 5) (5, 5)].

Definition names : list (nat * string) :=
  [(0%nat, "P0"%string); (1%nat, "P1"%string); (2%nat, "P2"%string)].

Definition plap (t : string) : expr := mk_expr "PLAP" ["P0"; "L0"; "a0"]%string t.
Definition pllp (t : string) : expr := mk_expr "PLLP" ["P1"; "L1"; "L2"]%string t.

(** Expressions with two inputs, one input and none. *)
Definition two_inputs : list expr := [plap "P1"; pllp "P2"; plap "P2"]%string.
Definition one_input : list expr := [plap "P1"; pllp "P2"]%string.
Definition no_input : list expr := [pllp "P2"]%string.

(** Where a solve puts a joint: at the sum of the angles. *)
Definition place (angs : list Z) (v : vpoint) : solved xy :=
  let t := foldr Z.add 0 angs in
  if is_sliding (vp_type v) then SlotPin (vp_c1 v) (t, 1) else Coord (t, 0).

(** A solver that answers every call, one that answers none, and one that
    fails when some driver stands at 90 degrees. *)
Definition solve_always (es : list expr) (m : list (nat * string))
    (vps : list vpoint) (angs : list Z) : option (list (solved xy)) :=
  Some (place angs <$> vps).

Definition solve_never (es : list expr) (m : list (nat * string))
    (vps : list vpoint) (angs : list Z) : option (list (solved xy)) :=
  None.

Definition solve_limited (es : list expr) (m : list (nat * string))
    (vps : list vpoint) (angs : list Z) : option (list (solved xy)) :=
  if bool_decide (90 ∈ angs) then None else Some (place angs <$> vps).

(** The state in which the forward direction starts. *)
Definition forward_start (es : list expr) : state xy vpoint :=
  start_sweep es (init_state es three_joints).

(** The final state of a trace, or the state before it when it raised. *)
Definition final_state (r : outcome (state xy vpoint)) : state xy vpoint :=
  match r with
  | Ok s => s
  | Raise _ => init_state [] []
  end.

#[global] Instance sample_eq_dec : EqDecision (sample xy).
Proof. solve_decision. Defined.

(** The number of solver calls made for driver [k] in a direction. *)
Definition calls_for (interval : Z) (k : nat) (s : state xy vpoint) : nat :=
  length (filter (fun c => call_interval c = interval /\ call_dp c = k) (calls s)).

Lemma place_shape_ok (angs : list Z) (vps : list vpoint) :
  Forall2 (shape_ok vp_type) vps (place angs <$> vps).
Proof.
  induction vps as [|v vps IH]; simpl; constructor; [|exact IH].
  unfold place, shape_ok. destruct (is_sliding (vp_type v)); reflexivity.
Qed.

Lemma solve_always_answers (es : list expr) (m : list (nat * string)) :
  always_solves vp_type solve_always es m.
Proof.
  intros vps angs. exists (place angs <$> vps).
  split; [reflexivity | apply place_shape_ok].
Qed.

Lemma solve_limited_ok (es : list expr) (m : list (nat * string)) :
  solver_ok vp_type solve_limited es m.
Proof.
  intros vps angs sr. unfold solve_limited.
  destruct (bool_decide (90 ∈ angs)); [discriminate|].
  intros [= <-]. apply place_shape_ok.
Qed.

(** ** The claims on the sample mechanism *)

Lemma two_drivers_always_solved_witness :
  i_count_of two_inputs = 2%nat /\
  always_solves vp_type solve_always two_inputs names /\
  exists s,
    get_path_state vp_type vp_move solve_always two_inputs names three_joints
    = Ok s /\
    length (calls s) = 244%nat.
Proof.
  split; [reflexivity|]. split; [apply solve_always_answers|].
  destruct (two_drivers_always_solved xy vpoint vp_type vp_move _ solve_always
              two_inputs names three_joints eq_refl
              (solve_always_answers two_inputs names))
    as (s & F0 & F1 & B0 & B1 & Hs & _ & Hcalls & H0 & H1 & H2 & H3 & _).
  exists s. split; [exact Hs|].
  rewrite Hcalls, !length_app, H0, H1, H2, H3. reflexivity.
Defined.

(** C1, as stated, fails on the sample mechanism with two inputs and the
    solver that always answers: the backward direction takes one sample per
    driver, and the forward direction 121, not 120 and 120. *)
Lemma two_drivers_not_120_each_way :
  let s := final_state (get_path_state vp_type vp_move solve_always
                          two_inputs names three_joints) in
  get_path_state vp_type vp_move solve_always two_inputs names three_joints
  = Ok s /\
  Forall (fun c => is_Some (call_result c)) (calls s) /\
  calls_for 3 0 s = 121%nat /\ calls_for 3 1 s = 121%nat /\
  calls_for (-3) 0 s = 1%nat /\ calls_for (-3) 1 s = 1%nat /\
  (length <$> path s) = [244; 244; 244]%nat /\
  ~ (calls_for 3 0 s = 120%nat /\ calls_for (-3) 0 s = 120%nat /\
     calls_for 3 1 s = 120%nat /\ calls_for (-3) 1 s = 120%nat).
Proof.
  cbv zeta. split; [vm_compute; reflexivity|].
  split; [apply (bool_decide_unpack _); vm_compute; exact I|].
  repeat (split; [vm_compute; reflexivity|]).
  intros (H & _). vm_compute in H. discriminate.
Qed.

Lemma revolution_sample_count_witness :
  well_formed one_input 3 (forward_start one_input) /\
  angles (forward_start one_input) !! 0%nat = Some 0 /\
  angles_params (forward_start one_input) !! 0%nat = Some 0 /\
  exists s',
    while_loop vp_type vp_move solve_always one_input names 3 3 121
      (forward_start one_input) = Ok s' /\
    dp s' = 1%nat.
Proof.
  assert (well_formed one_input 3 (forward_start one_input)) as Hwf
    by (vm_compute; auto).
  split; [exact Hwf|]. split; [reflexivity|]. split; [reflexivity|].
  destruct (revolution_sample_count xy vpoint vp_type vp_move _ solve_always
              one_input names 3 3 (forward_start one_input) 0 0
              (or_introl eq_refl) Hwf (Nat.lt_0_1) eq_refl eq_refl)
    as (s' & Hrun & Hdp & _).
  { intros j sj _ _. apply solve_always_answers. }
  exists s'. split; [exact Hrun | exact Hdp].
Defined.

(** C2, as stated, fails on the sample mechanism with one input and the
    solver that always answers: after 120 accepted samples the pointer is
    still on driver 0, and it moves on after the 121st. *)
Lemma revolution_takes_121_samples :
  let run := while_loop vp_type vp_move solve_always one_input names 3 3 in
  let s120 := final_state (run 120%nat (forward_start one_input)) in
  let s121 := final_state (run 121%nat (forward_start one_input)) in
  run 120%nat (forward_start one_input) = Ok s120 /\
  dp s120 = 0%nat /\ (length <$> path s120) = [120; 120; 120]%nat /\
  run 121%nat (forward_start one_input) = Ok s121 /\
  dp s121 = 1%nat /\ (length <$> path s121) = [121; 121; 121]%nat /\
  Forall (fun p => NaN ∉ p) (path s121) /\
  Z.of_nat 121 <> 360 / Z.abs 3.
Proof.
  cbv zeta. repeat (split; [vm_compute; reflexivity|]).
  split; [apply (bool_decide_unpack _); vm_compute; exact I|].
  vm_compute. discriminate.
Qed.

Lemma path_aligned_with_solver_calls_witness :
  solver_ok vp_type solve_limited two_inputs names /\
  exists s,
    get_path_state vp_type vp_move solve_limited two_inputs names three_joints
    = Ok s /\
    length (path s) = 3%nat.
Proof.
  split; [apply solve_limited_ok|].
  destruct (path_aligned_with_solver_calls xy vpoint vp_type vp_move _
              solve_limited two_inputs names three_joints
              (solve_limited_ok two_inputs names))
    as (s & Hs & _ & Hlen & _).
  exists s. split; [exact Hs | exact Hlen].
Defined.

Lemma solver_failure_records_sentinel_witness :
  (0 < i_count_of two_inputs)%nat /\
  solve_never two_inputs names three_joints
    (replicate (i_count_of two_inputs) 0) = None /\
  exists s1,
    while_loop vp_type vp_move solve_never two_inputs names 3 3 1
      (forward_start two_inputs) = Ok s1 /\
    path s1 = [[NaN]; [NaN]; [NaN]] /\ dp s1 = 1%nat.
Proof.
  assert (0 < i_count_of two_inputs)%nat as Hpos by (vm_compute; lia).
  split; [exact Hpos|]. split; [reflexivity|].
  destruct (solver_failure_records_sentinel xy vpoint vp_type vp_move _
              solve_never two_inputs names) as [_ Hfirst].
  destruct (Hfirst three_joints Hpos eq_refl) as (s1 & Hrun & Hpath & Hdp & _).
  exists s1. split; [exact Hrun|]. split; [exact Hpath | exact Hdp].
Defined.

Lemma trace_returns_path_on_any_input_witness :
  solver_ok vp_type solve_limited two_inputs names /\
  (exists p,
     get_path vp_type vp_move solve_limited two_inputs names three_joints
     = Ok p /\ length p = 3%nat) /\
  i_count_of no_input = 0%nat /\
  get_path vp_type vp_move solve_limited no_input names three_joints
  = Ok [[]; []; []].
Proof.
  split; [apply solve_limited_ok|].
  destruct (trace_returns_path_on_any_input xy vpoint vp_type vp_move _
              solve_limited two_inputs names three_joints) as (_ & Hpath & _).
  destruct (trace_returns_path_on_any_input xy vpoint vp_type vp_move _
              solve_limited no_input names three_joints) as (_ & _ & Hnone).
  split; [exact (Hpath (solve_limited_ok two_inputs names))|].
  split; [reflexivity | exact (Hnone eq_refl)].
Defined.

(** C5, as stated, fails on the sample joints: an empty expression and an
    empty mapping give a Path of empty sequences and no error, and so does
    the tuple an empty expression string parses to. *)
Lemma empty_expression_returns_path :
  get_path vp_type vp_move solve_never [] [] three_joints = Ok [[]; []; []] /\
  get_path vp_type vp_move solve_never [mk_expr "" [""%string] ""] []
    three_joints = Ok [[]; []; []] /\
  (forall e,
     get_path vp_type vp_move solve_never [] [] three_joints <> Raise e).
Proof.
  split; [reflexivity|]. split; [reflexivity|]. intros e. discriminate.
Qed.

(** The state of the sample trace after two turns, and after three. *)
Definition after_two_turns : state xy vpoint :=
  final_state (while_loop vp_type vp_move solve_always two_inputs names 3 3 2
                 (forward_start two_inputs)).

Definition after_three_turns : state xy vpoint :=
  final_state (step vp_type vp_move solve_always two_inputs names 3 3
                 after_two_turns).

Lemma only_active_driver_changes_witness :
  during_trace vp_type vp_move solve_always two_inputs names three_joints 3
    after_two_turns /\
  step vp_type vp_move solve_always two_inputs names 3 3 after_two_turns
  = Ok after_three_turns /\
  angles after_three_turns !! 1%nat = angles after_two_turns !! 1%nat.
Proof.
  assert (during_trace vp_type vp_move solve_always two_inputs names
            three_joints 3 after_two_turns) as Htrace.
  { left. split; [reflexivity|]. exists 2%nat. vm_compute. reflexivity. }
  assert (step vp_type vp_move solve_always two_inputs names 3 3 after_two_turns
          = Ok after_three_turns) as Hstep by (vm_compute; reflexivity).
  split; [exact Htrace|]. split; [exact Hstep|].
  destruct (only_active_driver_changes xy vpoint vp_type vp_move _ solve_always
              two_inputs names three_joints 3 after_two_turns after_three_turns
              Htrace Hstep) as (Hother & _).
  apply Hother. vm_compute. discriminate.
Defined.

(** The state of the sample trace after a first solve that failed. *)
Definition after_first_failure : state xy vpoint :=
  final_state (while_loop vp_type vp_move solve_never two_inputs names 3 3 1
                 (forward_start two_inputs)).

(** The state after the first backward turn of the sample trace in which
    every solve succeeds. *)
Definition after_first_backward_turn : state xy vpoint :=
  final_state
    (while_loop vp_type vp_move solve_always two_inputs names 3 (-3) 1
       (start_sweep two_inputs
          (final_state (direction vp_type vp_move solve_always two_inputs names
                          3 (init_state two_inputs three_joints) 3)))).

Lemma settled_angles_within_one_interval_witness :
  during_trace vp_type vp_move solve_never two_inputs names three_joints 3
    after_first_failure /\
  angles after_first_failure !! 0%nat = Some (-3) /\
  ((0 < dp after_first_failure)%nat -> -3 <= -3 <= 360).
Proof.
  assert (during_trace vp_type vp_move solve_never two_inputs names
            three_joints 3 after_first_failure) as Htrace.
  { left. split; [reflexivity|]. exists 1%nat. vm_compute. reflexivity. }
  split; [exact Htrace|]. split; [reflexivity|].
  destruct (settled_angles_within_one_interval xy vpoint vp_type vp_move _
              solve_never two_inputs names three_joints 3 after_first_failure
              0%nat (-3) Htrace eq_refl) as [_ H].
  exact H.
Defined.

(** C7, as stated, fails on the sample mechanism: after a first solve that
    failed, driver 0 is left at -3; after the roll-back of the first
    backward turn of a trace without failure, it is left at 360. *)
Lemma settled_angle_outside_range :
  (during_trace vp_type vp_move solve_never two_inputs names three_joints 3
     after_first_failure /\
   angles after_first_failure = [-3; 0]) /\
  (during_trace vp_type vp_move solve_always two_inputs names three_joints (-3)
     after_first_backward_turn /\
   angles after_first_backward_turn = [360; 0]) /\
  ~ (forall (solver : list expr -> list (nat * string) -> list vpoint ->
               list Z -> option (list (solved xy)))
       interval s j a,
       during_trace vp_type vp_move solver two_inputs names three_joints
         interval s ->
       angles s !! j = Some a -> 0 <= a < 360).
Proof.
  assert (during_trace vp_type vp_move solve_never two_inputs names
            three_joints 3 after_first_failure) as Hfail.
  { left. split; [reflexivity|]. exists 1%nat. vm_compute. reflexivity. }
  assert (during_trace vp_type vp_move solve_always two_inputs names
            three_joints (-3) after_first_backward_turn) as Hback.
  { right. split; [reflexivity|].
    exists (final_state (direction vp_type vp_move solve_always two_inputs names
                           3 (init_state two_inputs three_joints) 3)), 1%nat.
    split; vm_compute; reflexivity. }
  split; [split; [exact Hfail | reflexivity]|].
  split; [split; [exact Hback | vm_compute; reflexivity]|].
  intros H. specialize (H solve_never 3 after_first_failure 0%nat (-3) Hfail eq_refl).
  lia.
Qed.

Lemma sliding_joint_records_pin_witness :
  well_formed two_inputs 3 (forward_start two_inputs) /\
  solve_always two_inputs names (vpoints (forward_start two_inputs))
    (angles (forward_start two_inputs))
  = Some [Coord (0, 0); SlotPin (10, 0) (0, 1); SlotPin (5, 5) (0, 1)] /\
  exists s',
    step vp_type vp_move solve_always two_inputs names 3 3
      (forward_start two_inputs) = Ok s' /\
    path s' !! 1%nat = Some [At (0, 1)] /\
    vpoints s' !! 1%nat = Some (mk_vpoint VJoint.P (10, 0) (0, 1)).
Proof.
  assert (well_formed two_inputs 3 (forward_start two_inputs)) as Hwf
    by (vm_compute; auto).
  split; [exact Hwf|]. split; [reflexivity|].
  destruct (sliding_joint_records_pin xy vpoint vp_type vp_move _ solve_always
              two_inputs names 3 3 (forward_start two_inputs)
              [Coord (0, 0); SlotPin (10, 0) (0, 1); SlotPin (5, 5) (0, 1)]
              Hwf (Nat.lt_0_2) eq_refl)
    as (s' & Hstep & Hjoint & _).
  { repeat constructor. }
  exists s'. split; [exact Hstep|].
  destruct (Hjoint 1%nat (mk_vpoint VJoint.P (10, 0) (10, 0)) eq_refl)
    as (p & Hp & slot & pin & Hsr & Hpath & Hvp).
  injection Hp as <-. injection Hsr as <- <-.
  split; [exact Hpath | exact Hvp].
Defined.

Lemma driver_count_is_plap_count_witness :
  solver_ok vp_type solve_limited two_inputs names /\
  (exists s,
     get_path_state vp_type vp_move solve_limited two_inputs names three_joints
     = Ok s /\ dp s = 2%nat /\
     exists c, c ∈ calls s /\ call_interval c = -3 /\ call_dp c = 1%nat) /\
  (forall e, e ∈ no_input -> func e <> "PLAP"%string) /\
  get_path vp_type vp_move solve_limited no_input names three_joints
  = Ok [[]; []; []].
Proof.
  assert (forall e, e ∈ no_input -> func e <> "PLAP"%string) as Hno.
  { intros e He. apply list_elem_of_singleton in He as ->. discriminate. }
  split; [apply solve_limited_ok|].
  destruct (driver_count_is_plap_count xy vpoint vp_type vp_move _
              solve_limited two_inputs names three_joints) as [Hcount _].
  destruct (driver_count_is_plap_count xy vpoint vp_type vp_move _
              solve_limited no_input names three_joints) as [_ Hnone].
  split.
  { destruct (Hcount (solve_limited_ok two_inputs names))
      as (s1 & s2 & _ & _ & _ & Hdp & Hs & _ & backward & Hcalls & _ & Hback).
    destruct Hback as (Hall & Hcover & _).
    destruct (proj1 (Hcover 1%nat)) as (c & Hin & Hc); [vm_compute; lia|].
    exists s2. split; [exact Hs|]. split; [exact Hdp|].
    exists c. split; [|split; [|exact Hc]].
    - rewrite Hcalls. apply elem_of_app. right. exact Hin.
    - exact (proj1 (Forall_forall _ _) Hall c Hin). }
  split; [exact Hno|]. exact (proj1 (Hnone Hno)).
Defined.

(** * The rest of the synthesis widget

    The other code of [DimensionalSynthesis] that works on data: the
    inputs [__get_path] prepares for the solver, the editing of the target
    paths, the checks of [__synthesis], the saving of a profile and the
    options of the algorithm. Calls that only show the data in the widgets
    are left out. *)

From stdpp Require Import gmap pretty.

Open Scope Z_scope.

(** ** Python values *)

(** The exceptions of this part, and a computation that returns or
    raises. *)
Inductive pyexc : Set :=
| PyIndexError
| PyKeyError
| PyValueError
| PyAttributeError
| PyTypeError.

Inductive res (A : Type) : Type :=
| Ret (a : A)
| Exc (e : pyexc).
Arguments Ret {A} a.
Arguments Exc {A} e.

#[global] Instance res_ret : MRet res := fun A a => Ret a.
#[global] Instance res_bind : MBind res := fun A B f m =>
  match m with
  | Ret a => f a
  | Exc e => Exc e
  end.

(** A dict as the list of its items in insertion order; [d[k] = v] replaces
    the value of a key that is present and appends a new key. *)
Fixpoint dict_set {K V : Type} `{EqDecision K} (d : list (K * V)) (k : K) (v : V)
  : list (K * V) :=
  match d with
  | [] => [(k, v)]
  | (k', v') :: d' =>
      if decide (k' = k) then (k, v) :: d' else (k', v') :: dict_set d' k v
  end.

(** [f'P{n}'] *)
Definition joint_name (n : Z) : string := "P" +:+ pretty n.

(** ** The inputs of the solver: [__get_path], lines 543-553 *)

Section TraceInputs.

Context {coord : Type}.

(** The entries of a result that the loop reads: [result['pos']] (joint to
    coordinate, in the order of the dict), [result['same']] and the entries
    of the result itself, by key. *)
Record result_entries : Type := mk_result_entries {
  res_pos : list (Z * coord);
  res_same : gmap Z Z;
  res_items : gmap string coord
}.

(** The body of [for n in result['pos']], on [(pos, mapping, p_count)]. *)
Definition input_step (r : result_entries)
    (st : list (Z * coord) * list (nat * string) * nat) (entry : Z * coord)
  : list (Z * coord) * list (nat * string) * nat :=
  let '(pos, mapping, p_count) := st in
  let '(n, c) := entry in
  let pos :=
    dict_set pos n
      (match res_items r !! joint_name n with
       | Some c' => c'
       | None => c
       end) in
  if decide (is_Some (res_same r !! n))
  then (pos, mapping, p_count)
  else (pos, dict_set mapping p_count (joint_name n), S p_count).

(** [pos], [mapping] and [p_count] after the loop. *)
Definition trace_inputs (r : result_entries)
  : list (Z * coord) * list (nat * string) * nat :=
  fold_left (input_step r) (res_pos r) ([], [], 0%nat).

(** The joints that are not duplicates of another joint. *)
Definition own_joints (r : result_entries) : list Z :=
  filter (fun n => res_same r !! n = None) (res_pos r).*1.

End TraceInputs.

Arguments result_entries coord : clear implicits.

Lemma dict_set_fresh {K V : Type} `{EqDecision K} (d : list (K * V)) (k : K) (v : V) :
  k ∉ d.*1 -> dict_set d k v = d ++ [(k, v)].
Proof.
  induction d as [|[k' v'] d IH]; simpl; [reflexivity|].
  intros Hk. rewrite not_elem_of_cons in Hk. destruct Hk as [Hne Hk].
  destruct (decide (k' = k)); [congruence|]. rewrite IH by exact Hk.
  reflexivity.
Qed.

#[global] Instance joint_name_inj : Inj (=) (=) joint_name.
Proof.
  intros n m H. unfold joint_name in H. injection H as H.
  exact (inj (pretty : Z -> string) n m H).
Qed.

Section TraceInputsFacts.

Context {coord : Type}.
Implicit Types r : result_entries coord.

Lemma fold_input_step r (entries : list (Z * coord))
    (pos : list (Z * coord)) (mapping : list (nat * string)) :
  let kept := filter (fun n => res_same r !! n = None) entries.*1 in
  mapping.*1 = seq 0 (length mapping) ->
  NoDup (pos.*1 ++ entries.*1) ->
  fold_left (input_step r) entries (pos, mapping, length mapping)
  = (pos ++ ((fun e => (e.1, default e.2 (res_items r !! joint_name e.1)))
              <$> entries),
     mapping ++ imap (fun i n => ((length mapping + i)%nat, joint_name n)) kept,
     (length mapping + length kept)%nat).
Proof.
  cbv zeta. revert pos mapping.
  induction entries as [|[n c] entries IH]; intros pos mapping Hkeys Hnd.
  { simpl. rewrite !app_nil_r, Nat.add_0_r. reflexivity. }
  cbn [fold_left]. unfold input_step at 2.
  assert (n ∉ pos.*1) as Hfresh.
  { simpl in Hnd. apply NoDup_app in Hnd as (_ & Hdisj & _).
    intros Hin. apply (Hdisj n Hin). left. }
  rewrite (dict_set_fresh pos) by exact Hfresh.
  assert (NoDup ((pos ++ [(n, default c (res_items r !! joint_name n))]).*1
                 ++ entries.*1)) as Hnd'.
  { rewrite fmap_app. simpl. rewrite <- app_assoc. exact Hnd. }
  replace (match res_items r !! joint_name n with
           | Some c' => c'
           | None => c
           end) with (default c (res_items r !! joint_name n))
    by (destruct (res_items r !! joint_name n); reflexivity).
  rewrite !fmap_cons, filter_cons. cbn [fst snd].
  destruct (decide (is_Some (res_same r !! n))) as [Hsame|Hown].
  - destruct (decide (res_same r !! n = None)) as [Hnone|_].
    { rewrite Hnone in Hsame. destruct Hsame as [? ?]. discriminate. }
    rewrite (IH _ mapping Hkeys Hnd'). cbn [fmap list_fmap fst snd].
    rewrite <- app_assoc. reflexivity.
  - destruct (decide (res_same r !! n = None)) as [_|Hsome].
    2:{ exfalso. apply Hown. destruct (res_same r !! n); [eauto | congruence]. }
    assert (length mapping ∉ mapping.*1) as Hnew.
    { rewrite Hkeys, elem_of_seq. lia. }
    rewrite (dict_set_fresh mapping) by exact Hnew.
    replace (S (length mapping))
      with (length (mapping ++ [(length mapping, joint_name n)]))
      by (rewrite length_app; simpl; lia).
    rewrite IH; [| |exact Hnd'].
    2:{ rewrite fmap_app, length_app, Hkeys. simpl.
        rewrite Nat.add_1_r, seq_S. reflexivity. }
    rewrite length_app. cbn [length fmap list_fmap fst snd].
    rewrite <- !app_assoc. cbn [app]. rewrite imap_cons.
    f_equal; [f_equal|lia].
    f_equal. rewrite Nat.add_0_r. f_equal.
    apply imap_ext. intros i x _. simpl. f_equal. lia.
Qed.

(** X1. The mapping numbers the joints of [result['pos']] that are not in
    [result['same']], in the order of the dict, consecutively from 0, each
    under its name [P<n>]; [p_count] ends as their number. *)
Theorem mapping_numbers_own_joints r :
  NoDup (res_pos r).*1 ->
  (trace_inputs r).1.2 = imap (fun i n => (i, joint_name n)) (own_joints r) /\
  (trace_inputs r).2 = length (own_joints r).
Proof.
  intros Hnd. unfold trace_inputs.
  pose proof (fold_input_step r (res_pos r) [] [] eq_refl Hnd) as H.
  cbv zeta in H. simpl in H. rewrite H. simpl. auto.
Qed.

(** X2. [pos] has the joints of [result['pos']] in the same order; a joint
    takes the coordinate the result holds under its name [P<n>] when there
    is one, and keeps its coordinate of [result['pos']] otherwise. *)
Theorem pos_prefers_result_entry r :
  NoDup (res_pos r).*1 ->
  (trace_inputs r).1.1
  = (fun e => (e.1, default e.2 (res_items r !! joint_name e.1))) <$> res_pos r.
Proof.
  intros Hnd. unfold trace_inputs.
  pose proof (fold_input_step r (res_pos r) [] [] eq_refl Hnd) as H.
  cbv zeta in H. simpl in H. rewrite H. reflexivity.
Qed.

(** X3. Two numbers of the mapping never name the same joint, and no
    joint of [result['same']] is named. *)
Theorem mapping_names_distinct r (i j : nat) (name : string) :
  NoDup (res_pos r).*1 ->
  (i, name) ∈ (trace_inputs r).1.2 -> (j, name) ∈ (trace_inputs r).1.2 ->
  i = j /\ exists n, name = joint_name n /\ res_same r !! n = None /\
                     n ∈ (res_pos r).*1.
Proof.
  intros Hnd Hi Hj.
  destruct (mapping_numbers_own_joints r Hnd) as [Hmap _].
  rewrite Hmap in Hi, Hj.
  apply list_elem_of_lookup in Hi as [a Hi], Hj as [b Hj].
  rewrite list_lookup_imap in Hi, Hj.
  apply fmap_Some in Hi as (n & Hn & Hi), Hj as (m & Hm & Hj).
  assert (i = a /\ name = joint_name n) as [-> ->]
    by (split; congruence).
  assert (j = b /\ joint_name n = joint_name m) as [-> Hname]
    by (split; congruence).
  apply (inj joint_name) in Hname. subst m.
  assert (NoDup (own_joints r)) as Hown by (apply NoDup_filter, Hnd).
  split; [exact (NoDup_lookup _ _ _ _ Hown Hn Hm)|].
  exists n. split; [reflexivity|].
  apply list_elem_of_lookup_2 in Hn. unfold own_joints in Hn.
  apply list_elem_of_filter in Hn. exact Hn.
Qed.

End TraceInputsFacts.

(** ** Python lists *)

(** The position that [l[i]] and [del l[i]] address in a list of [len]
    items: a negative index counts from the end. *)
Definition index_of (len : nat) (i : Z) : option nat :=
  if decide (0 <= i < Z.of_nat len) then Some (Z.to_nat i)
  else if decide (- Z.of_nat len <= i < 0) then Some (Z.to_nat (Z.of_nat len + i))
  else None.

(** [l[i]] *)
Definition list_get {A : Type} (l : list A) (i : Z) : res A :=
  match index_of (length l) i ≫= (fun k => l !! k) with
  | Some x => Ret x
  | None => Exc PyIndexError
  end.

(** [del l[i]] *)
Definition list_del {A : Type} (l : list A) (i : Z) : res (list A) :=
  match index_of (length l) i with
  | Some k => Ret (delete k l)
  | None => Exc PyIndexError
  end.

(** [l.insert(i, x)]: the index is clamped to the list. *)
Definition list_ins {A : Type} (l : list A) (i : Z) (x : A) : list A :=
  let k :=
    if decide (i < 0) then Z.to_nat (Z.max 0 (Z.of_nat (length l) + i))
    else Nat.min (Z.to_nat i) (length l) in
  take k l ++ x :: drop k l.

(** [s.replace('P', '')] *)
Fixpoint remove_P (s : string) : string :=
  match s with
  | EmptyString => EmptyString
  | String c s' =>
      if Ascii.eqb c (Ascii.ascii_of_nat 80) then remove_P s' else String c (remove_P s')
  end.

(** ** The target paths: lines 172-178, 188-201 and 230-368 *)

Section TargetPaths.

(** A coordinate is a float; [round4] is [round(_, 4)], [to_float] is
    [float(_)] and [to_int] is [int(_)], [None] being their [ValueError].
    [tuple_ne a b] is [a != b] on two points. Python compares the floats of
    the tuples, so that a point that holds a nan can differ from itself:
    nothing is assumed of [tuple_ne], and a statement that needs two points
    to compare equal says so. *)
Context {num : Type}.
Variable round4 : num -> num.
Variable to_int : string -> option Z.
Variable to_float : string -> option num.
Variable tuple_ne : num * num -> num * num -> bool.

(** [current_path]: the path of the current item of [target_points], with
    its key in [self.path], or a new empty list when there is no current
    item. The list is the one stored: [store] writes a change of it back. *)
Definition current_path (paths : gmap Z (list (num * num))) (item : option string)
  : res (option Z * list (num * num)) :=
  match item with
  | None => Ret (None, [])
  | Some text =>
      match to_int (remove_P text) with
      | None => Exc PyValueError
      | Some n =>
          match paths !! n with
          | Some p => Ret (Some n, p)
          | None => Exc PyKeyError
          end
      end
  end.

Definition store (paths : gmap Z (list (num * num))) (key : option Z)
    (p : list (num * num)) : gmap Z (list (num * num)) :=
  match key with
  | Some n => <[n := p]> paths
  | None => paths
  end.

(** [add_point], on [self.path]. *)
Definition add_point (paths : gmap Z (list (num * num))) (item : option string)
    (x y : num) : res (gmap Z (list (num * num))) :=
  let x := round4 x in
  let y := round4 y in
  kp ← current_path paths item;
  Ret (store paths kp.1 (kp.2 ++ [(x, y)])).

(** [__clear_path]; [confirmed] is the answer to the question when [ask]
    is set. *)
Definition clear_path (paths : gmap Z (list (num * num))) (item : option string)
    (ask confirmed : bool) : res (gmap Z (list (num * num))) :=
  if ask && negb confirmed then Ret paths
  else
    kp ← current_path paths item;
    Ret (store paths kp.1 []).

(** [__delete_point], with the current row of the list widget. *)
Definition delete_point (paths : gmap Z (list (num * num))) (item : option string)
    (row : Z) : res (gmap Z (list (num * num))) :=
  if decide (row > -1) then
    kp ← current_path paths item;
    p ← list_del kp.2 row;
    Ret (store paths kp.1 p)
  else Ret paths.

(** The statements of [__move_up_point] on the path:
    [path.insert(row - 1, (path[row][0], path[row][1])); del path[row + 1]]. *)
Definition move_up_in (path : list (num * num)) (row : Z)
  : res (list (num * num)) :=
  pt ← list_get path row;
  list_del (list_ins path (row - 1) (pt.1, pt.2)) (row + 1).

(** [self.path_list.currentItem().text()], read by both moves after they
    have changed the path: [currentItem()] is [None], which has no [text],
    when no row is current, that is when the current row is -1. The text
    itself only goes to the list widget. *)
Definition current_item_text (row : Z) : res unit :=
  if decide (row < 0) then Exc PyAttributeError else Ret tt.

(** [__move_up_point], with the count and the current row of the list
    widget; the result is [self.path] and the row made current. *)
Definition move_up_point (paths : gmap Z (list (num * num))) (item : option string)
    (count row : Z) : res (gmap Z (list (num * num)) * Z) :=
  if decide (row > 0 /\ count > 1) then
    kp ← current_path paths item;
    p ← move_up_in kp.2 row;
    _ ← current_item_text row;
    Ret (store paths kp.1 p, row - 1)
  else Ret (paths, row).

(** The statements of [__move_down_point] on the path:
    [path.insert(row + 2, (path[row][0], path[row][1])); del path[row]]. *)
Definition move_down_in (path : list (num * num)) (row : Z)
  : res (list (num * num)) :=
  pt ← list_get path row;
  list_del (list_ins path (row + 2) (pt.1, pt.2)) row.

(** [__move_down_point]. Its test lets the row -1 of a list with no
    current row through: the path is changed as for any row, and the read
    of the current item then raises [AttributeError], the changed path
    staying in [self.path] (see [move_down_no_current_row]). *)
Definition move_down_point (paths : gmap Z (list (num * num)))
    (item : option string) (count row : Z)
  : res (gmap Z (list (num * num)) * Z) :=
  if decide (row < count - 1 /\ count > 1) then
    kp ← current_path paths item;
    p ← move_down_in kp.2 row;
    _ ← current_item_text row;
    Ret (store paths kp.1 p, row + 1)
  else Ret (paths, row).

(** [__close_path] *)
Definition close_path (paths : gmap Z (list (num * num))) (item : option string)
    (count : Z) : res (gmap Z (list (num * num))) :=
  kp ← current_path paths item;
  if decide (count > 1) then
    first ← list_get kp.2 0;
    last ← list_get kp.2 (-1);
    if tuple_ne first last then add_point paths item first.1 first.2
    else Ret paths
  else Ret paths.

(** The item [i] of the list comprehension of [__read_path_from_csv]. *)
Definition csv_point (raw_data : list string) (i : nat) : res (num * num) :=
  a ← list_get raw_data (Z.of_nat i);
  x ← match to_float a with Some x => Ret x | None => Exc PyValueError end;
  b ← list_get raw_data (Z.of_nat i + 1);
  y ← match to_float b with Some y => Ret y | None => Exc PyValueError end;
  Ret (round4 x, round4 y).

(** [range(0, n, 2)] *)
Definition range_by_2 (n : nat) : list nat :=
  (fun k => 2 * k)%nat <$> seq 0 (Nat.div2 (S n)).

Fixpoint csv_data (raw_data : list string) (range : list nat)
  : res (list (num * num)) :=
  match range with
  | [] => Ret []
  | i :: range =>
      pt ← csv_point raw_data i;
      data ← csv_data raw_data range;
      Ret (pt :: data)
  end.

(** [for x, y in data: self.add_point(x, y)] *)
Fixpoint add_points (paths : gmap Z (list (num * num))) (item : option string)
    (data : list (num * num)) : res (gmap Z (list (num * num))) :=
  match data with
  | [] => Ret paths
  | (x, y) :: data =>
      paths' ← add_point paths item x y;
      add_points paths' item data
  end.

(** [__read_path_from_csv]: a field that is missing or is no number only
    shows a warning. *)
Definition read_path_from_csv (paths : gmap Z (list (num * num)))
    (item : option string) (raw_data : list string)
  : res (gmap Z (list (num * num))) :=
  match csv_data raw_data (range_by_2 (length raw_data)) with
  | Exc PyIndexError | Exc PyValueError => Ret paths
  | Exc e => Exc e
  | Ret data => add_points paths item data
  end.

(** The check of [__synthesis] that the target paths have one length, on
    [self.path.values()]; [length] starts at -1. *)
Fixpoint same_length_from (length : Z) (paths : list (list (num * num))) : bool :=
  match paths with
  | [] => true
  | path :: paths =>
      let length :=
        if decide (length < 0) then Z.of_nat (List.length path) else length in
      if decide (Z.of_nat (List.length path) <> length) then false
      else same_length_from length paths
  end.

Definition targets_same_length (paths : list (list (num * num))) : bool :=
  same_length_from (-1) paths.


(** [__adjust_path]: [accepted] and [r_path] are what the dialog returns. *)
Definition adjust_path (paths : gmap Z (list (num * num))) (item : option string)
    (accepted : bool) (r_path : list (num * num))
  : res (gmap Z (list (num * num))) :=
  if negb accepted then Ret paths
  else
    paths ← clear_path paths item false false;
    add_points paths item r_path.

(** The search of [set_point]: the index of the first point of the path
    that is near, from index [i] on. *)
Fixpoint first_near (near : num * num -> bool) (path : list (num * num)) (i : nat)
  : option nat :=
  match path with
  | [] => None
  | c :: path => if near c then Some i else first_near near path (S i)
  end.

(** [set_point]; [near x y c] is [hypot(x - cx, y - cy) < 3], and
    [edit_checked] the state of the edit button. The second call of
    [current_path] returns what the first one did. *)
Definition set_point (near : num -> num -> num * num -> bool)
    (paths : gmap Z (list (num * num))) (item : option string)
    (edit_checked : bool) (x y : num) : res (gmap Z (list (num * num))) :=
  if negb edit_checked then Ret paths
  else
    kp ← current_path paths item;
    match first_near (near x y) kp.2 0 with
    | None => Ret paths
    | Some index => Ret (store paths kp.1 (<[index := (x, y)]> kp.2))
    end.

(** The fields of a csv text taken two by two, as the comprehension means
    them: [None] when a field is left over or is no number. *)
Fixpoint pairs_of (raw_data : list string) : option (list (num * num)) :=
  match raw_data with
  | [] => Some []
  | a :: rest =>
      match rest with
      | [] => None
      | b :: rest' =>
          x ← to_float a;
          y ← to_float b;
          data ← pairs_of rest';
          Some ((round4 x, round4 y) :: data)
      end
  end.

(** *** Facts on Python lists *)

Lemma index_of_nat (len k : nat) :
  (k < len)%nat -> index_of len (Z.of_nat k) = Some k.
Proof.
  intros Hk. unfold index_of.
  destruct (decide (0 <= Z.of_nat k < Z.of_nat len)); [|lia].
  rewrite Nat2Z.id. reflexivity.
Qed.

Lemma index_of_bounds (len : nat) (i : Z) (k : nat) :
  index_of len i = Some k ->
  (k < len)%nat /\
  (0 <= i /\ Z.of_nat k = i \/ i < 0 /\ Z.of_nat k = Z.of_nat len + i).
Proof.
  unfold index_of. intros H0.
  destruct (decide (0 <= i < Z.of_nat len)); [injection H0 as <-; lia|].
  destruct (decide (- Z.of_nat len <= i < 0)); [injection H0 as <-; lia|].
  discriminate.
Qed.

Lemma list_get_middle {A : Type} (pre post : list A) (x : A) (i : Z) :
  i = Z.of_nat (length pre) -> list_get (pre ++ x :: post) i = Ret x.
Proof.
  intros ->. unfold list_get. rewrite index_of_nat.
  - simpl. rewrite list_lookup_middle; reflexivity.
  - rewrite length_app. simpl. lia.
Qed.

Lemma list_del_middle {A : Type} (pre post : list A) (x : A) (i : Z) :
  i = Z.of_nat (length pre) -> list_del (pre ++ x :: post) i = Ret (pre ++ post).
Proof.
  intros ->. unfold list_del. rewrite index_of_nat.
  - rewrite delete_middle. reflexivity.
  - rewrite length_app. simpl. lia.
Qed.

Lemma list_ins_middle {A : Type} (pre post : list A) (x : A) (i : Z) :
  i = Z.of_nat (length pre) -> list_ins (pre ++ post) i x = pre ++ x :: post.
Proof.
  intros ->. unfold list_ins.
  destruct (decide (Z.of_nat (length pre) < 0)); [lia|].
  rewrite Nat2Z.id, length_app, Nat.min_l by lia.
  rewrite take_app_length, drop_app_length. reflexivity.
Qed.

Lemma list_get_Ret {A : Type} (l : list A) (i : Z) (x : A) :
  list_get l i = Ret x ->
  exists k, index_of (length l) i = Some k /\ l !! k = Some x.
Proof.
  unfold list_get. destruct (index_of (length l) i) as [k|]; simpl;
    [|discriminate].
  destruct (l !! k) eqn:E; [|discriminate]. intros [= ->]. eauto.
Qed.

(** A list cut before two neighbours. *)
Lemma split_neighbours {A : Type} (l : list A) (k : nat) :
  (S k < length l)%nat ->
  exists pre a b post, l = pre ++ a :: b :: post /\ length pre = k.
Proof.
  intros Hk.
  destruct (lookup_lt_is_Some_2 l k) as [a Ha]; [lia|].
  destruct (lookup_lt_is_Some_2 l (S k)) as [b Hb]; [lia|].
  exists (take k l), a, b, (drop (S (S k)) l). split.
  - rewrite <- (take_drop_middle l k a Ha) at 1. f_equal. f_equal.
    rewrite <- (take_drop_middle l (S k) b Hb) at 1.
    rewrite drop_app_length'; [reflexivity|].
    rewrite length_take. lia.
  - rewrite length_take. lia.
Qed.

(** *** Moving a point *)

Lemma move_up_in_neighbours (pre post : list (num * num)) (a b : num * num)
    (row : Z) :
  row = Z.of_nat (length pre) + 1 ->
  move_up_in (pre ++ a :: b :: post) row = Ret (pre ++ b :: a :: post).
Proof.
  intros ->. unfold move_up_in.
  replace (pre ++ a :: b :: post) with ((pre ++ [a]) ++ b :: post) at 1
    by (rewrite <- app_assoc; reflexivity).
  rewrite list_get_middle by (rewrite length_app; simpl; lia).
  cbn [mbind res_bind]. rewrite <- surjective_pairing.
  rewrite (list_ins_middle pre (a :: b :: post)) by lia.
  replace (pre ++ b :: a :: b :: post) with ((pre ++ [b; a]) ++ b :: post)
    by (rewrite <- app_assoc; reflexivity).
  rewrite list_del_middle by (rewrite length_app; simpl; lia).
  rewrite <- app_assoc. reflexivity.
Qed.

Lemma move_down_in_neighbours (pre post : list (num * num)) (a b : num * num)
    (row : Z) :
  row = Z.of_nat (length pre) ->
  move_down_in (pre ++ a :: b :: post) row = Ret (pre ++ b :: a :: post).
Proof.
  intros ->. unfold move_down_in.
  rewrite list_get_middle by reflexivity.
  cbn [mbind res_bind]. rewrite <- surjective_pairing.
  replace (pre ++ a :: b :: post) with ((pre ++ [a; b]) ++ post)
    by (rewrite <- app_assoc; reflexivity).
  rewrite list_ins_middle by (rewrite length_app; simpl; lia).
  rewrite <- app_assoc. cbn [app].
  rewrite list_del_middle by reflexivity. reflexivity.
Qed.

(** A move up that returns has swapped two neighbours. *)
Lemma move_up_in_Ret (p p' : list (num * num)) (row : Z) :
  0 < row -> move_up_in p row = Ret p' ->
  exists pre a b post,
    p = pre ++ a :: b :: post /\ row = Z.of_nat (length pre) + 1 /\
    p' = pre ++ b :: a :: post.
Proof.
  intros Hrow Hup.
  assert (exists pt, list_get p row = Ret pt) as [pt Hget].
  { unfold move_up_in in Hup. destruct (list_get p row); [eauto|discriminate]. }
  apply list_get_Ret in Hget as (k & Hk & _).
  apply index_of_bounds in Hk as [Hlt [[_ Hk]|[Hneg _]]]; [|lia].
  destruct (split_neighbours p (k - 1)) as (pre & a & b & post & -> & Hpre);
    [lia|].
  assert (row = Z.of_nat (length pre) + 1) as Hr by lia.
  rewrite (move_up_in_neighbours pre post a b row Hr) in Hup.
  injection Hup as <-. eauto 10.
Qed.

Lemma move_down_in_Ret (p p' : list (num * num)) (row : Z) :
  0 <= row -> row + 1 < Z.of_nat (length p) -> move_down_in p row = Ret p' ->
  exists pre a b post,
    p = pre ++ a :: b :: post /\ row = Z.of_nat (length pre) /\
    p' = pre ++ b :: a :: post.
Proof.
  intros Hrow Hlen Hdown.
  destruct (split_neighbours p (Z.to_nat row)) as (pre & a & b & post & -> & Hpre);
    [lia|].
  assert (row = Z.of_nat (length pre)) as Hr by lia.
  rewrite (move_down_in_neighbours pre post a b row Hr) in Hdown.
  injection Hdown as <-. eauto 10.
Qed.

Lemma current_path_store (paths : gmap Z (list (num * num))) (item : option string)
    (n : Z) (p q : list (num * num)) :
  current_path paths item = Ret (Some n, p) ->
  current_path (<[n := q]> paths) item = Ret (Some n, q).
Proof.
  unfold current_path. destruct item as [text|]; [|discriminate].
  destruct (to_int (remove_P text)) as [m|]; [|discriminate].
  destruct (paths !! m) eqn:E; [|discriminate].
  intros [= -> ->]. rewrite lookup_insert_eq. reflexivity.
Qed.

Lemma current_path_lookup (paths : gmap Z (list (num * num))) (item : option string)
    (n : Z) (p : list (num * num)) :
  current_path paths item = Ret (Some n, p) -> paths !! n = Some p.
Proof.
  unfold current_path. destruct item as [text|]; [|discriminate].
  destruct (to_int (remove_P text)) as [m|]; [|discriminate].
  destruct (paths !! m) eqn:E; [|discriminate].
  intros [= <- <-]. exact E.
Qed.

Lemma current_item_text_Ret (row : Z) :
  0 <= row -> current_item_text row = Ret tt.
Proof.
  intros Hrow. unfold current_item_text.
  destruct (decide (row < 0)); [lia | reflexivity].
Qed.

(** A move down that returns had a current row. *)
Lemma move_down_no_current_row (paths : gmap Z (list (num * num)))
    (item : option string) (count row : Z) (key : option Z)
    (p p' : list (num * num)) :
  row < 0 -> row < count - 1 -> count > 1 ->
  current_path paths item = Ret (key, p) -> move_down_in p row = Ret p' ->
  move_down_point paths item count row = Exc PyAttributeError.
Proof.
  intros Hrow Hless Hcount Hcur Hin. unfold move_down_point.
  destruct (decide (row < count - 1 /\ count > 1)); [|lia].
  rewrite Hcur. cbn [mbind res_bind fst snd]. rewrite Hin.
  cbn [mbind res_bind]. unfold current_item_text.
  destruct (decide (row < 0)); [reflexivity | lia].
Qed.

(** X4. Moving the point of the current row up, when there is a point
    above it, swaps the two in the stored path of the current target,
    leaves the other points and targets alone and makes the row above
    current; moving a point down swaps it with the point below and makes
    the row below current. *)
Theorem move_swaps_neighbours (paths : gmap Z (list (num * num)))
    (item : option string) (n : Z) (pre post : list (num * num))
    (a b : num * num) (count : Z) :
  current_path paths item = Ret (Some n, pre ++ a :: b :: post) ->
  Z.of_nat (length pre) + 1 < count ->
  move_up_point paths item count (Z.of_nat (length pre) + 1)
  = Ret (<[n := pre ++ b :: a :: post]> paths, Z.of_nat (length pre)) /\
  move_down_point paths item count (Z.of_nat (length pre))
  = Ret (<[n := pre ++ b :: a :: post]> paths, Z.of_nat (length pre) + 1).
Proof.
  intros Hcur Hcount. split.
  - unfold move_up_point.
    destruct (decide (Z.of_nat (length pre) + 1 > 0 /\ count > 1)); [|lia].
    rewrite Hcur. cbn [mbind res_bind fst snd].
    rewrite move_up_in_neighbours by reflexivity.
    rewrite current_item_text_Ret by lia.
    cbn [mbind res_bind store]. do 2 f_equal. lia.
  - unfold move_down_point.
    destruct (decide (Z.of_nat (length pre) < count - 1 /\ count > 1)); [|lia].
    rewrite Hcur. cbn [mbind res_bind fst snd].
    rewrite move_down_in_neighbours by reflexivity.
    rewrite current_item_text_Ret by lia. reflexivity.
Qed.

(** X5. Moving a point up and then moving the point of the row made
    current down gives back the stored paths and the row, and so does
    moving down and then up, when the list widget shows at least the rows
    used. *)
Theorem move_up_then_down (paths : gmap Z (list (num * num)))
    (item : option string) (n : Z) (p : list (num * num)) (count row : Z) :
  current_path paths item = Ret (Some n, p) ->
  0 < row < Z.of_nat (length p) -> row < count ->
  (move_up_point paths item count row ≫=
     fun pr => move_down_point pr.1 item count pr.2) = Ret (paths, row) /\
  (move_down_point paths item count (row - 1) ≫=
     fun pr => move_up_point pr.1 item count pr.2) = Ret (paths, row - 1).
Proof.
  intros Hcur Hrow Hcount.
  destruct (split_neighbours p (Z.to_nat (row - 1)))
    as (pre & a & b & post & -> & Hpre); [lia|].
  assert (row = Z.of_nat (length pre) + 1) as -> by lia.
  pose proof (current_path_lookup _ _ _ _ Hcur) as Hp.
  pose proof (current_path_store paths item n _ (pre ++ b :: a :: post) Hcur)
    as Hcur'.
  assert (<[n := pre ++ a :: b :: post]>
            (<[n := pre ++ b :: a :: post]> paths) = paths) as Hback
    by (rewrite insert_insert_eq; apply insert_id, Hp).
  split.
  - unfold move_up_point.
    destruct (decide (Z.of_nat (length pre) + 1 > 0 /\ count > 1)); [|lia].
    rewrite Hcur. cbn [mbind res_bind fst snd].
    rewrite move_up_in_neighbours by reflexivity.
    rewrite current_item_text_Ret by lia.
    cbn [mbind res_bind fst snd store]. unfold move_down_point.
    destruct (decide (Z.of_nat (length pre) + 1 - 1 < count - 1 /\ count > 1));
      [|lia].
    rewrite Hcur'. cbn [mbind res_bind fst snd].
    rewrite move_down_in_neighbours by lia.
    rewrite current_item_text_Ret by lia.
    cbn [mbind res_bind store]. rewrite Hback. do 2 f_equal. lia.
  - unfold move_down_point.
    destruct (decide (Z.of_nat (length pre) + 1 - 1 < count - 1 /\ count > 1));
      [|lia].
    rewrite Hcur. cbn [mbind res_bind fst snd].
    rewrite move_down_in_neighbours by lia.
    rewrite current_item_text_Ret by lia.
    cbn [mbind res_bind fst snd store]. unfold move_up_point.
    destruct (decide (Z.of_nat (length pre) + 1 - 1 + 1 > 0 /\ count > 1));
      [|lia].
    rewrite Hcur'. cbn [mbind res_bind fst snd].
    rewrite move_up_in_neighbours by lia.
    rewrite current_item_text_Ret by lia.
    cbn [mbind res_bind store]. rewrite Hback. do 2 f_equal. lia.
Qed.

Lemma move_down_in_last (pre : list (num * num)) (a : num * num) (row : Z) :
  row = Z.of_nat (length pre) ->
  move_down_in (pre ++ [a]) row = Ret (pre ++ [a]).
Proof.
  intros ->. unfold move_down_in.
  rewrite list_get_middle by reflexivity.
  cbn [mbind res_bind]. rewrite <- surjective_pairing.
  assert (list_ins (pre ++ [a]) (Z.of_nat (length pre) + 2) a
          = (pre ++ [a]) ++ [a]) as ->.
  { unfold list_ins.
    destruct (decide (Z.of_nat (length pre) + 2 < 0)); [lia|].
    rewrite Nat.min_r by (rewrite length_app; simpl; lia).
    rewrite take_ge, drop_ge by lia. reflexivity. }
  rewrite <- app_assoc. cbn [app].
  rewrite list_del_middle by reflexivity. reflexivity.
Qed.

Lemma store_keeps_points (paths : gmap Z (list (num * num))) (n : Z)
    (p p' : list (num * num)) :
  paths !! n = Some p -> p' ≡ₚ p ->
  forall k, option_Forall2 Permutation (<[n := p']> paths !! k) (paths !! k).
Proof.
  intros Hp Hperm k. destruct (decide (k = n)) as [-> | Hne].
  - rewrite lookup_insert_eq, Hp. constructor. exact Hperm.
  - rewrite lookup_insert_ne by auto. destruct (paths !! k); constructor.
    reflexivity.
Qed.

(** X6. A move that returns never adds, drops or copies a point: every
    stored path holds the same points as before, and no target is added or
    removed. *)
Theorem move_keeps_points (paths paths' : gmap Z (list (num * num)))
    (item : option string) (count row row' : Z) :
  move_up_point paths item count row = Ret (paths', row') \/
  (0 <= row /\ move_down_point paths item count row = Ret (paths', row')) ->
  forall k, option_Forall2 Permutation (paths' !! k) (paths !! k).
Proof.
  assert (forall k, option_Forall2 Permutation (paths !! k) (paths !! k)) as Hsame
    by (intros k; destruct (paths !! k); constructor; reflexivity).
  intros [Hup | [Hrow Hdown]].
  - unfold move_up_point in Hup.
    destruct (decide (row > 0 /\ count > 1)) as [[Hr _]|_];
      [|injection Hup as <- _; exact Hsame].
    destruct (current_path paths item) as [[[n|] p]|] eqn:Hcur;
      cbn [mbind res_bind fst snd] in Hup; [| |discriminate].
    + destruct (move_up_in p row) as [p'|] eqn:Hin; [|discriminate].
      cbn [mbind res_bind] in Hup.
      rewrite current_item_text_Ret in Hup by lia. injection Hup as <- _.
      apply move_up_in_Ret in Hin as (pre & a & b & post & -> & _ & ->); [|lia].
      apply (store_keeps_points paths n _ _ (current_path_lookup _ _ _ _ Hcur)).
      apply Permutation_app_head, perm_swap.
    + destruct (move_up_in p row); [|discriminate].
      cbn [mbind res_bind] in Hup.
      rewrite current_item_text_Ret in Hup by lia.
      injection Hup as <- _. exact Hsame.
  - unfold move_down_point in Hdown.
    destruct (decide (row < count - 1 /\ count > 1)) as [_|_];
      [|injection Hdown as <- _; exact Hsame].
    destruct (current_path paths item) as [[[n|] p]|] eqn:Hcur;
      cbn [mbind res_bind fst snd] in Hdown; [| |discriminate].
    + destruct (move_down_in p row) as [p'|] eqn:Hin; [|discriminate].
      cbn [mbind res_bind] in Hdown.
      rewrite current_item_text_Ret in Hdown by lia. injection Hdown as <- _.
      apply (store_keeps_points paths n _ _ (current_path_lookup _ _ _ _ Hcur)).
      assert (row < Z.of_nat (length p)) as Hlt.
      { unfold move_down_in in Hin.
        destruct (list_get p row) as [pt|] eqn:Hget; [|discriminate].
        apply list_get_Ret in Hget as (k & Hk & _).
        apply index_of_bounds in Hk. lia. }
      destruct (decide (row + 1 < Z.of_nat (length p))) as [Hin2|Hlast].
      * apply move_down_in_Ret in Hin as (pre & a & b & post & -> & _ & ->);
          [|lia..].
        apply Permutation_app_head, perm_swap.
      * destruct (lookup_lt_is_Some_2 p (Z.to_nat row)) as [a Ha]; [lia|].
        pose proof (take_drop_middle p _ a Ha) as Hsplit.
        rewrite drop_ge in Hsplit by lia. rewrite <- Hsplit in Hin.
        rewrite move_down_in_last in Hin by (rewrite length_take; lia).
        injection Hin as <-. rewrite Hsplit. reflexivity.
    + destruct (move_down_in p row); [|discriminate].
      cbn [mbind res_bind] in Hdown.
      rewrite current_item_text_Ret in Hdown by lia.
      injection Hdown as <- _. exact Hsame.
Qed.

(** *** Adding and deleting points *)

(** X7. Deleting the point of a row of the current target removes that
    point and no other from its stored path; a row beyond the stored path
    raises [IndexError], and with no current row nothing changes. *)
Theorem delete_point_removes_row (paths : gmap Z (list (num * num)))
    (item : option string) (n : Z) (p : list (num * num)) (row : Z) :
  current_path paths item = Ret (Some n, p) ->
  (forall pre a post,
     p = pre ++ a :: post -> row = Z.of_nat (length pre) ->
     delete_point paths item row = Ret (<[n := pre ++ post]> paths)) /\
  (Z.of_nat (length p) <= row -> delete_point paths item row = Exc PyIndexError) /\
  (row <= -1 -> delete_point paths item row = Ret paths).
Proof.
  intros Hcur. unfold delete_point. split; [|split].
  - intros pre a post -> ->.
    destruct (decide (Z.of_nat (length pre) > -1)); [|lia].
    rewrite Hcur. cbn [mbind res_bind fst snd].
    rewrite list_del_middle by reflexivity. reflexivity.
  - intros Hrow. destruct (decide (row > -1)); [|lia].
    rewrite Hcur. cbn [mbind res_bind fst snd]. unfold list_del, index_of.
    destruct (decide (0 <= row < Z.of_nat (length p))); [lia|].
    destruct (decide (- Z.of_nat (length p) <= row < 0)); [lia|]. reflexivity.
  - intros Hrow. destruct (decide (row > -1)); [lia|]. reflexivity.
Qed.

(** X8. A point is added, rounded, at the end of the stored path of the
    current target, so that deleting the row after the last one of the old
    path gives back the stored paths; other targets are never touched. *)
Theorem add_then_delete_point (paths : gmap Z (list (num * num)))
    (item : option string) (n : Z) (p : list (num * num)) (x y : num) :
  current_path paths item = Ret (Some n, p) ->
  add_point paths item x y = Ret (<[n := p ++ [(round4 x, round4 y)]]> paths) /\
  (add_point paths item x y ≫=
     fun paths' => delete_point paths' item (Z.of_nat (length p))) = Ret paths.
Proof.
  intros Hcur.
  assert (add_point paths item x y
          = Ret (<[n := p ++ [(round4 x, round4 y)]]> paths)) as Hadd
    by (unfold add_point; rewrite Hcur; reflexivity).
  split; [exact Hadd|]. rewrite Hadd. cbn [mbind res_bind].
  unfold delete_point.
  destruct (decide (Z.of_nat (length p) > -1)); [|lia].
  rewrite (current_path_store paths item n p _ Hcur).
  cbn [mbind res_bind fst snd].
  rewrite list_del_middle by reflexivity. cbn [mbind res_bind store].
  rewrite insert_insert_eq, app_nil_r. f_equal.
  apply insert_id, (current_path_lookup _ _ _ _ Hcur).
Qed.

Lemma list_get_first_last (a b : num * num) (mid : list (num * num)) :
  list_get (a :: mid ++ [b]) 0 = Ret a /\
  list_get (a :: mid ++ [b]) (-1) = Ret b.
Proof.
  split; [reflexivity|]. unfold list_get, index_of.
  cbn [length]. rewrite length_app. cbn [length].
  destruct (decide (0 <= -1 < Z.of_nat (S (length mid + 1)))); [lia|].
  destruct (decide (- Z.of_nat (S (length mid + 1)) <= -1 < 0)); [|lia].
  replace (Z.to_nat (Z.of_nat (S (length mid + 1)) + -1)) with (S (length mid))
    by lia.
  cbn [mbind option_bind lookup list_lookup].
  rewrite (list_lookup_middle mid [] b) by reflexivity. reflexivity.
Qed.

(** X9. Closing a path of two points or more adds the first point,
    rounded, at its end exactly when [!=] finds its ends different. So when
    the first point compares equal to its rounded copy (it is a rounded
    point and holds no nan), the ends of the closed path compare equal and
    closing it again changes nothing. *)
Theorem close_path_joins_ends (paths : gmap Z (list (num * num)))
    (item : option string) (n : Z) (a b : num * num) (mid : list (num * num))
    (count : Z) :
  current_path paths item = Ret (Some n, a :: mid ++ [b]) -> 1 < count ->
  (tuple_ne a b = true ->
   close_path paths item count
   = Ret (<[n := (a :: mid ++ [b]) ++ [(round4 a.1, round4 a.2)]]> paths)) /\
  (tuple_ne a b = false -> close_path paths item count = Ret paths) /\
  (tuple_ne a (round4 a.1, round4 a.2) = false ->
   exists paths',
     close_path paths item count = Ret paths' /\
     (exists mid' e,
        paths' !! n = Some (a :: mid' ++ [e]) /\ tuple_ne a e = false) /\
     forall count', close_path paths' item count' = Ret paths').
Proof.
  intros Hcur Hcount.
  assert (close_path paths item count
          = if tuple_ne a b then add_point paths item a.1 a.2 else Ret paths)
    as Hclose.
  { unfold close_path. rewrite Hcur. cbn [mbind res_bind fst snd].
    destruct (decide (count > 1)); [|lia].
    destruct (list_get_first_last a b mid) as [-> ->]. reflexivity. }
  assert (tuple_ne a b = true ->
          close_path paths item count
          = Ret (<[n := (a :: mid ++ [b]) ++ [(round4 a.1, round4 a.2)]]> paths))
    as Hopen.
  { intros Hne. rewrite Hclose, Hne. unfold add_point. rewrite Hcur.
    reflexivity. }
  assert (tuple_ne a b = false -> close_path paths item count = Ret paths)
    as Hshut.
  { intros Heq. rewrite Hclose, Heq. reflexivity. }
  split; [exact Hopen|]. split; [exact Hshut|].
  intros Hround.
  assert (forall q mid0 e count',
            current_path q item = Ret (Some n, a :: mid0 ++ [e]) ->
            tuple_ne a e = false -> close_path q item count' = Ret q) as Hfix.
  { intros q mid0 e count' Hq He. unfold close_path. rewrite Hq.
    cbn [mbind res_bind fst snd].
    destruct (decide (count' > 1)); [|reflexivity].
    destruct (list_get_first_last a e mid0) as [-> ->].
    cbn [mbind res_bind]. rewrite He. reflexivity. }
  destruct (tuple_ne a b) eqn:Hends.
  - eexists. split; [apply Hopen; reflexivity|]. split.
    + exists (mid ++ [b]), (round4 a.1, round4 a.2).
      split; [rewrite lookup_insert_eq; reflexivity | exact Hround].
    + intros count'. apply (Hfix _ (mid ++ [b]) (round4 a.1, round4 a.2));
        [|exact Hround].
      apply (current_path_store paths item n _ _ Hcur).
  - exists paths. split; [apply Hshut; reflexivity|]. split.
    + exists mid, b. split; [|exact Hends].
      exact (current_path_lookup _ _ _ _ Hcur).
    + intros count'. exact (Hfix paths mid b count' Hcur Hends).
Qed.

(** *** Reading points from text *)

Lemma list_pair_ind {A : Type} (P : list A -> Prop) :
  P [] -> (forall a, P [a]) -> (forall a b l, P l -> P (a :: b :: l)) ->
  forall l, P l.
Proof.
  intros Hnil Hone Hstep l.
  cut (P l /\ forall a, P (a :: l)); [intros [Hl _]; exact Hl|].
  induction l as [|b l [IH1 IH2]]; [auto|].
  split; [apply IH2|]. intros a. apply Hstep, IH1.
Qed.

Lemma csv_data_pairs (raw_data pre : list string) :
  match pairs_of raw_data with
  | Some data =>
      csv_data (pre ++ raw_data)
        ((fun k => length pre + 2 * k)%nat
           <$> seq 0 (Nat.div2 (S (length raw_data)))) = Ret data
  | None =>
      exists e,
        csv_data (pre ++ raw_data)
          ((fun k => length pre + 2 * k)%nat
             <$> seq 0 (Nat.div2 (S (length raw_data)))) = Exc e /\
        (e = PyIndexError \/ e = PyValueError)
  end.
Proof.
  revert pre. induction raw_data as [|a|a b l IH] using list_pair_ind;
    intros pre.
  - reflexivity.
  - simpl. unfold csv_point. rewrite Nat.add_0_r.
    rewrite (list_get_middle pre [] a (Z.of_nat (length pre))) by reflexivity.
    cbn [mbind res_bind].
    destruct (to_float a) as [x|]; cbn [mbind res_bind]; [|eauto].
    assert (list_get (pre ++ [a]) (Z.of_nat (length pre) + 1) = Exc PyIndexError)
      as ->; [|cbn [mbind res_bind]; eauto].
    unfold list_get, index_of. rewrite length_app. cbn [length].
    destruct (decide (0 <= Z.of_nat (length pre) + 1
                      < Z.of_nat (length pre + 1))); [lia|].
    destruct (decide (- Z.of_nat (length pre + 1)
                      <= Z.of_nat (length pre) + 1 < 0)); [lia|].
    reflexivity.
  - change (Nat.div2 (S (length (a :: b :: l))))
      with (S (Nat.div2 (S (length l)))).
    cbn [pairs_of seq fmap list_fmap csv_data].
    rewrite <- fmap_S_seq, <- list_fmap_compose.
    unfold csv_point. rewrite Nat.mul_0_r, Nat.add_0_r.
    rewrite (list_get_middle pre (b :: l) a (Z.of_nat (length pre)))
      by reflexivity.
    cbn [mbind res_bind].
    destruct (to_float a) as [x|]; cbn [mbind res_bind option_bind];
      [|eauto].
    replace (pre ++ a :: b :: l) with ((pre ++ [a]) ++ b :: l)
      by (rewrite <- app_assoc; reflexivity).
    rewrite (list_get_middle (pre ++ [a]) l b (Z.of_nat (length pre) + 1))
      by (rewrite length_app; simpl; lia).
    cbn [mbind res_bind].
    destruct (to_float b) as [y|]; cbn [mbind res_bind option_bind];
      [|eauto].
    specialize (IH (pre ++ [a; b])).
    replace ((pre ++ [a]) ++ b :: l) with ((pre ++ [a; b]) ++ l)
      by (rewrite <- !app_assoc; reflexivity).
    assert (((fun k => length pre + 2 * k)%nat ∘ S <$> seq 0 (Nat.div2 (S (length l))))
            = ((fun k => length (pre ++ [a; b]) + 2 * k)%nat
                 <$> seq 0 (Nat.div2 (S (length l))))) as ->.
    { apply list_fmap_ext. intros i k _. simpl. rewrite length_app. simpl. lia. }
    destruct (pairs_of l) as [data|].
    + rewrite IH. reflexivity.
    + destruct IH as (e & -> & He). exists e. split; [reflexivity | exact He].
Qed.

Lemma pairs_of_length (raw_data : list string) (data : list (num * num)) :
  pairs_of raw_data = Some data -> length raw_data = (2 * length data)%nat.
Proof.
  revert data. induction raw_data as [|a|a b l IH] using list_pair_ind;
    intros data; cbn [pairs_of].
  - intros [= <-]. reflexivity.
  - discriminate.
  - destruct (to_float a); [|discriminate]. destruct (to_float b); [|discriminate].
    cbn [mbind option_bind]. destruct (pairs_of l) as [d|]; [|discriminate].
    intros [= <-]. cbn [length]. rewrite (IH d eq_refl). lia.
Qed.

Lemma pairs_of_malformed (raw_data : list string) :
  Nat.Odd (length raw_data) \/ (exists s, s ∈ raw_data /\ to_float s = None) ->
  pairs_of raw_data = None.
Proof.
  induction raw_data as [|a|a b l IH] using list_pair_ind; cbn [pairs_of].
  - intros [[k Hk]|(s & Hs & _)]; [simpl in Hk; lia|].
    apply elem_of_nil in Hs. contradiction.
  - reflexivity.
  - intros Hbad. destruct (to_float a) as [x|] eqn:Ea; [|reflexivity].
    destruct (to_float b) as [y|] eqn:Eb; [|reflexivity].
    cbn [mbind option_bind]. rewrite IH; [reflexivity|].
    destruct Hbad as [[k Hk]|(s & Hs & Hnone)].
    + left. exists (k - 1)%nat. cbn [length] in Hk. lia.
    + right. exists s. split; [|exact Hnone].
      apply elem_of_cons in Hs as [-> | Hs]; [congruence|].
      apply elem_of_cons in Hs as [-> | Hs]; [congruence|]. exact Hs.
Qed.

Lemma add_points_current (data : list (num * num)) :
  forall (paths : gmap Z (list (num * num))) (item : option string) (n : Z)
         (p : list (num * num)),
    current_path paths item = Ret (Some n, p) ->
    add_points paths item data
    = Ret (<[n := p ++ ((fun pt => (round4 pt.1, round4 pt.2)) <$> data)]> paths).
Proof.
  induction data as [|[x y] data IH]; intros paths item n p Hcur;
    cbn [add_points].
  - cbn [fmap list_fmap]. rewrite app_nil_r, insert_id; [reflexivity|].
    exact (current_path_lookup _ _ _ _ Hcur).
  - unfold add_point. rewrite Hcur. cbn [mbind res_bind fst snd store].
    rewrite (IH _ item n (p ++ [(round4 x, round4 y)])
               (current_path_store paths item n _ _ Hcur)).
    rewrite insert_insert_eq, <- app_assoc. reflexivity.
Qed.

(** X10. Reading a csv text adds all its points or none: the points the
    fields give two by two, rounded, go to the end of the stored path of
    the current target when the number of fields is even and every field is
    a number; when a field is left over or is no number the stored paths
    stay as they are. *)
Theorem read_csv_all_or_nothing (paths : gmap Z (list (num * num)))
    (item : option string) (n : Z) (p : list (num * num))
    (raw_data : list string) :
  current_path paths item = Ret (Some n, p) ->
  read_path_from_csv paths item raw_data
  = Ret (<[n := p ++ ((fun pt => (round4 pt.1, round4 pt.2))
                        <$> default [] (pairs_of raw_data))]> paths) /\
  (forall data, pairs_of raw_data = Some data ->
     length raw_data = (2 * length data)%nat) /\
  (Nat.Odd (length raw_data) \/
   (exists s, s ∈ raw_data /\ to_float s = None) ->
   read_path_from_csv paths item raw_data = Ret paths).
Proof.
  intros Hcur.
  assert (read_path_from_csv paths item raw_data
          = match pairs_of raw_data with
            | Some data => add_points paths item data
            | None => Ret paths
            end) as Hread.
  { unfold read_path_from_csv, range_by_2.
    pose proof (csv_data_pairs raw_data []) as H0. cbn [app length] in H0.
    assert (((fun k => 0 + 2 * k)%nat <$> seq 0 (Nat.div2 (S (length raw_data))))
            = ((fun k => 2 * k)%nat <$> seq 0 (Nat.div2 (S (length raw_data)))))
      as Hrange by (apply list_fmap_ext; intros; lia).
    rewrite Hrange in H0.
    destruct (pairs_of raw_data) as [data|]; [rewrite H0; reflexivity|].
    destruct H0 as (e & -> & [-> | ->]); reflexivity. }
  split; [|split].
  - rewrite Hread. destruct (pairs_of raw_data) as [data|]; cbn [default].
    + apply add_points_current, Hcur.
    + cbn [fmap list_fmap]. rewrite app_nil_r, insert_id; [reflexivity|].
      exact (current_path_lookup _ _ _ _ Hcur).
  - apply pairs_of_length.
  - intros Hbad. rewrite Hread, (pairs_of_malformed raw_data Hbad). reflexivity.
Qed.

(** *** The check of the target paths *)

Lemma same_length_from_known (len : Z) (paths : list (list (num * num))) :
  0 <= len ->
  same_length_from len paths = true <->
  forall p, p ∈ paths -> Z.of_nat (length p) = len.
Proof.
  intros Hlen. induction paths as [|p paths IH]; cbn [same_length_from].
  - split; [|reflexivity]. intros _ p Hp. apply elem_of_nil in Hp. contradiction.
  - destruct (decide (len < 0)); [lia|].
    destruct (decide (Z.of_nat (length p) <> len)) as [Hne|Heq].
    + split; [discriminate|]. intros Hall. exfalso. apply Hne, Hall. left.
    + rewrite IH. apply dec_stable in Heq. split.
      * intros Hall q Hq. apply elem_of_cons in Hq as [-> | Hq]; auto.
      * intros Hall q Hq. apply Hall. right. exact Hq.
Qed.

(** X11. The check that starts a synthesis passes exactly when all the
    target paths have the same number of points, whatever their order; no
    target path at all passes. *)
Theorem targets_same_length_iff (paths : list (list (num * num))) :
  targets_same_length paths = true <->
  forall p q, p ∈ paths -> q ∈ paths -> length p = length q.
Proof.
  unfold targets_same_length. destruct paths as [|p0 paths].
  - split; [|reflexivity]. intros _ p q Hp. apply elem_of_nil in Hp.
    contradiction.
  - cbn [same_length_from]. destruct (decide (-1 < 0)); [|lia].
    destruct (decide (Z.of_nat (length p0) <> Z.of_nat (length p0)));
      [congruence|].
    rewrite same_length_from_known by lia. split.
    + intros Hall p q Hp Hq.
      assert (forall r, r ∈ p0 :: paths -> length r = length p0) as Hp0.
      { intros r Hr. apply elem_of_cons in Hr as [-> | Hr]; [reflexivity|].
        apply Nat2Z.inj, Hall, Hr. }
      rewrite (Hp0 p Hp), (Hp0 q Hq). reflexivity.
    + intros Hall p Hp. f_equal. apply Hall; [right; exact Hp | left].
Qed.

(** *** Replacing points *)

(** X16. Adjusting the path of the current target replaces it by the path
    of the dialog, every point rounded, and leaves the other targets as
    they are; a dialog that is not accepted changes nothing. *)
Theorem adjust_path_replaces_current (paths : gmap Z (list (num * num)))
    (item : option string) (n : Z) (p r_path : list (num * num)) :
  current_path paths item = Ret (Some n, p) ->
  adjust_path paths item true r_path
  = Ret (<[n := (fun pt => (round4 pt.1, round4 pt.2)) <$> r_path]> paths) /\
  adjust_path paths item false r_path = Ret paths.
Proof.
  intros Hcur. split; [|reflexivity].
  unfold adjust_path, clear_path. cbn [negb andb]. rewrite Hcur.
  cbn [mbind res_bind fst snd store].
  rewrite (add_points_current r_path _ item n []
             (current_path_store paths item n p [] Hcur)).
  rewrite insert_insert_eq. reflexivity.
Qed.

Lemma first_near_split (near : num * num -> bool) (path : list (num * num)) :
  forall i,
    match first_near near path i with
    | Some index =>
        exists pre c post,
          path = pre ++ c :: post /\ index = (i + length pre)%nat /\
          Forall (fun q => near q = false) pre /\ near c = true
    | None => Forall (fun q => near q = false) path
    end.
Proof.
  induction path as [|c path IH]; intros i; cbn [first_near]; [constructor|].
  destruct (near c) eqn:E.
  - exists [], c, path. repeat split; [simpl; lia | constructor | exact E].
  - specialize (IH (S i)). destruct (first_near near path (S i)) as [index|].
    + destruct IH as (pre & c' & post & -> & -> & Hpre & Hc').
      exists (c :: pre), c', post. repeat split; [simpl; lia | | exact Hc'].
      constructor; assumption.
    + constructor; assumption.
Qed.

(** X17. With the edit button checked, [set_point] moves the first point
    of the current path that is near the given position to that position,
    unrounded, and changes no other point; when no point is near, or the
    button is not checked, nothing changes. *)
Theorem set_point_moves_first_near (near : num -> num -> num * num -> bool)
    (paths : gmap Z (list (num * num))) (item : option string) (n : Z)
    (p : list (num * num)) (x y : num) :
  current_path paths item = Ret (Some n, p) ->
  (forall pre c post,
     p = pre ++ c :: post ->
     Forall (fun q => near x y q = false) pre -> near x y c = true ->
     set_point near paths item true x y
     = Ret (<[n := pre ++ (x, y) :: post]> paths)) /\
  (Forall (fun q => near x y q = false) p ->
   set_point near paths item true x y = Ret paths) /\
  set_point near paths item false x y = Ret paths.
Proof.
  intros Hcur.
  assert (forall q, Forall (fun c => near x y c = false) q ->
                    forall c, c ∈ q -> near x y c = false) as Hfar
    by (intros q Hq; apply Forall_forall, Hq).
  split; [|split; [|reflexivity]].
  - intros pre c post -> Hpre Hc. unfold set_point. cbn [negb].
    rewrite Hcur. cbn [mbind res_bind fst snd].
    pose proof (first_near_split (near x y) (pre ++ c :: post) 0) as Hsplit.
    destruct (first_near (near x y) (pre ++ c :: post) 0) as [index|].
    + destruct Hsplit as (pre' & c' & post' & Heq & -> & Hpre' & Hc').
      assert (length pre' = length pre) as Hlen.
      { destruct (Nat.lt_trichotomy (length pre') (length pre))
          as [Hlt | [Heq' | Hgt]]; [|exact Heq'|]; exfalso.
        - assert (pre !! length pre' = Some c') as Hin.
          { rewrite <- (lookup_app_l pre (c :: post)) by exact Hlt.
            rewrite Heq. apply list_lookup_middle. reflexivity. }
          apply list_elem_of_lookup_2 in Hin.
          rewrite (Hfar pre Hpre c' Hin) in Hc'. discriminate.
        - assert (pre' !! length pre = Some c) as Hin.
          { rewrite <- (lookup_app_l pre' (c' :: post')) by exact Hgt.
            rewrite <- Heq. apply list_lookup_middle. reflexivity. }
          apply list_elem_of_lookup_2 in Hin.
          rewrite (Hfar pre' Hpre' c Hin) in Hc. discriminate. }
      cbn [store]. rewrite Nat.add_0_l, Hlen.
      rewrite insert_middle. reflexivity.
    + rewrite (Hfar _ Hsplit c) in Hc; [discriminate|].
      apply elem_of_app. right. left.
  - intros Hnone. unfold set_point. cbn [negb].
    rewrite Hcur. cbn [mbind res_bind fst snd].
    pose proof (first_near_split (near x y) p 0) as Hsplit.
    destruct (first_near (near x y) p 0) as [index|]; [|reflexivity].
    destruct Hsplit as (pre' & c' & post' & -> & _ & _ & Hc').
    rewrite (Hfar _ Hnone c') in Hc'; [discriminate|].
    apply elem_of_app. right. left.
Qed.

End TargetPaths.

(** ** Saving a profile: lines 609-632 *)

Section Profiles.

(** A value of a profile dict: a dict by joint whose values may be [None]
    (as ['Placement'] and ['Target'] are), or any other value; the other
    values are taken as not iterable. *)
Context {V : Type}.

Inductive field : Type :=
| Table (t : gmap Z (option V))
| Other (v : V).

(** [for mp in table: table[mp] = None] *)
Definition blank_table (t : gmap Z (option V)) : gmap Z (option V) :=
  map_fold (fun mp _ acc => <[mp := None]> acc) t t.

(** The body of [for key in ('Placement', 'Target')]. *)
Definition blank_key (mech_params : gmap string field) (key : string)
  : res (gmap string field) :=
  match mech_params !! key with
  | None => Exc PyKeyError
  | Some (Other _) => Exc PyTypeError
  | Some (Table t) => Ret (<[key := Table (blank_table t)]> mech_params)
  end.

(** One turn of [while (not name) and (name not in self.collections)], on
    [(name, i)]: the test, then the body. *)
Definition name_turn (collections : gmap string (gmap string field))
    (st : string * Z) : string * Z :=
  if decide (st.1 = ""%string /\ collections !! st.1 = None)
  then ("Structure_" +:+ pretty st.2, st.2 + 1)
  else st.

(** The name after the loop: one turn ends it. *)
Definition profile_name (collections : gmap string (gmap string field))
    (name : string) : string :=
  (name_turn collections (name, 0)).1.

(** [__save_profile], on [self.collections]; [name] and [ok] are what the
    input dialog returns. *)
Definition save_profile (collections : gmap string (gmap string field))
    (mech_params : gmap string field) (name : string) (ok : bool)
  : res (gmap string (gmap string field)) :=
  if decide (mech_params = ∅) then Ret collections
  else if negb ok then Ret collections
  else
    let name := profile_name collections name in
    mech_params ← blank_key mech_params "Placement";
    mech_params ← blank_key mech_params "Target";
    Ret (<[name := mech_params]> collections).

Lemma blank_table_fmap (t : gmap Z (option V)) :
  blank_table t = (fun _ => None) <$> t.
Proof.
  unfold blank_table.
  assert (forall b : gmap Z (option V),
            map_fold (fun mp _ acc => <[mp := None]> acc) b t
            = ((fun _ => None) <$> t) ∪ b) as Hfold.
  { intros b.
    apply (map_fold_weak_ind
             (fun r m => r = ((fun _ => None) <$> m) ∪ b)).
    - rewrite fmap_empty, (left_id_L ∅ (∪)). reflexivity.
    - intros i x m r _ ->. rewrite fmap_insert, insert_union_l. reflexivity. }
  rewrite Hfold. apply map_eq. intros k.
  rewrite lookup_union, lookup_fmap. destruct (t !! k); reflexivity.
Qed.

(** X12. The loop that names a profile runs at most once: a name that is
    not empty is kept; an empty name becomes [Structure_0] when no profile
    has the empty name, and stays empty when one has. After that the test
    of the loop fails, and the profile is stored under the name whether or
    not a profile had it. *)
Theorem profile_name_cases (collections : gmap string (gmap string field))
    (name : string) :
  profile_name collections name
  = (if decide (name = ""%string) then
       if decide (collections !! ""%string = None) then "Structure_0"%string
       else ""%string
     else name) /\
  (forall turns i,
     Nat.iter turns (name_turn collections) (name_turn collections (name, i))
     = name_turn collections (name, i)) /\
  (forall mech_params mech_params1 mech_params2,
     mech_params <> ∅ ->
     blank_key mech_params "Placement" = Ret mech_params1 ->
     blank_key mech_params1 "Target" = Ret mech_params2 ->
     save_profile collections mech_params name true
     = Ret (<[profile_name collections name := mech_params2]> collections)).
Proof.
  split; [|split].
  - unfold profile_name, name_turn. cbn [fst snd].
    destruct (decide (name = ""%string)) as [-> | Hne].
    + destruct (decide (collections !! ""%string = None)) as [Hfree|Hused].
      * destruct (decide (""%string = ""%string /\ collections !! ""%string = None));
          [reflexivity | tauto].
      * destruct (decide (""%string = ""%string /\ collections !! ""%string = None));
          [tauto | reflexivity].
    + destruct (decide (name = ""%string /\ collections !! name = None));
        [tauto | reflexivity].
  - intros turns i.
    assert (name_turn collections (name_turn collections (name, i))
            = name_turn collections (name, i)) as Hdone.
    { unfold name_turn. cbn [fst snd].
      destruct (decide (name = ""%string /\ collections !! name = None))
        as [Hyes|Hno]; cbn [fst snd].
      - destruct (decide (("Structure_" +:+ pretty i)%string = ""%string /\
                          collections !! ("Structure_" +:+ pretty i)%string = None))
          as [[Hempty _]|_]; [discriminate | reflexivity].
      - destruct (decide (name = ""%string /\ collections !! name = None));
          [contradiction | reflexivity]. }
    induction turns as [|turns IH]; [reflexivity|].
    rewrite Nat.iter_succ, IH. exact Hdone.
  - intros mech_params mech_params1 mech_params2 Hne H1 H2.
    unfold save_profile. destruct (decide (mech_params = ∅)); [contradiction|].
    cbn [negb]. rewrite H1. cbn [mbind res_bind]. rewrite H2. reflexivity.
Qed.

(** X13. A profile that is saved keeps every entry of the settings but
    the placements and the targets: those keep their joints, each with
    [None]. The other profiles stay as they are. Settings without
    placements or without targets raise [KeyError] and nothing is saved. *)
Theorem save_profile_blanks_joints (collections : gmap string (gmap string field))
    (mech_params : gmap string field) (name : string) :
  mech_params <> ∅ ->
  (forall placement target,
     mech_params !! "Placement"%string = Some (Table placement) ->
     mech_params !! "Target"%string = Some (Table target) ->
     exists saved,
       save_profile collections mech_params name true
       = Ret (<[profile_name collections name := saved]> collections) /\
       saved !! "Placement"%string = Some (Table ((fun _ => None) <$> placement)) /\
       saved !! "Target"%string = Some (Table ((fun _ => None) <$> target)) /\
       forall key, key <> "Placement"%string -> key <> "Target"%string ->
                   saved !! key = mech_params !! key) /\
  (mech_params !! "Placement"%string = None \/
   (exists placement, mech_params !! "Placement"%string = Some (Table placement)) /\
   mech_params !! "Target"%string = None ->
   save_profile collections mech_params name true = Exc PyKeyError).
Proof.
  intros Hne. split.
  - intros placement target Hp Ht.
    exists (<["Target"%string := Table ((fun _ => None) <$> target)]>
              (<["Placement"%string := Table ((fun _ => None) <$> placement)]>
                 mech_params)).
    split; [|split; [|split]].
    + unfold save_profile. destruct (decide (mech_params = ∅)); [contradiction|].
      cbn [negb]. unfold blank_key at 2. rewrite Hp, blank_table_fmap.
      cbn [mbind res_bind]. unfold blank_key.
      rewrite lookup_insert_ne by discriminate. rewrite Ht, blank_table_fmap.
      reflexivity.
    + rewrite lookup_insert_ne by discriminate. apply lookup_insert_eq.
    + apply lookup_insert_eq.
    + intros key H1 H2. rewrite !lookup_insert_ne by auto. reflexivity.
  - intros Hmissing. unfold save_profile.
    destruct (decide (mech_params = ∅)); [contradiction|]. cbn [negb].
    destruct Hmissing as [Hp | [[placement Hp] Ht]].
    + unfold blank_key at 2. rewrite Hp. reflexivity.
    + unfold blank_key at 2. rewrite Hp. cbn [mbind res_bind].
      unfold blank_key. rewrite lookup_insert_ne by discriminate.
      rewrite Ht. reflexivity.
Qed.

End Profiles.

Arguments field V : clear implicits.

(** ** The options of the algorithm: lines 841-889 *)

Inductive algorithm : Set := RGA | Firefly | DE.

Section AlgorithmOptions.

(** The numbers of the option dialog, with the sum and the product of
    [max_time] and the integers 3600 and 60 among them. *)
Context {number : Type}.
Variable nadd nmul : number -> number -> number.
Variable of_int : Z -> number.

(** What the code reads of the dialog once it is closed. [alg_table] holds
    the value of the widget of column 1 of every row. *)
Record option_dialog : Type := mk_option_dialog {
  accepted : bool;
  report : number;
  max_gen_option : bool;
  max_gen : number;
  min_fit_option : bool;
  min_fit : number;
  max_time_option : bool;
  max_time_h : number;
  max_time_m : number;
  max_time_s : number;
  pop_size : number;
  alg_table : list number
}.

(** [for i, tag in enumerate(tags): self.alg_options[tag] = from_table(i)];
    a row without widget raises [AttributeError] and leaves the options
    set so far. *)
Fixpoint set_from_table (dlg : option_dialog) (alg_options : gmap string number)
    (i : nat) (tags : list string) : gmap string number * option pyexc :=
  match tags with
  | [] => (alg_options, None)
  | tag :: tags =>
      match alg_table dlg !! i with
      | Some v => set_from_table dlg (<[tag := v]> alg_options) (S i) tags
      | None => (alg_options, Some PyAttributeError)
      end
  end.

(** [__show_advance], on [self.alg_options]: the options when it returns
    or raises, and the exception raised if any. *)
Definition show_advance (type0 type1 : bool) (dlg : option_dialog)
    (alg_options : gmap string number) : gmap string number * option pyexc :=
  let type_num := if type0 then RGA else if type1 then Firefly else DE in
  if negb (accepted dlg) then (alg_options, None)
  else
    let alg_options := <["report"%string := report dlg]> alg_options in
    let alg_options := delete "max_gen"%string alg_options in
    let alg_options := delete "min_fit"%string alg_options in
    let alg_options := delete "max_time"%string alg_options in
    let stop :=
      if max_gen_option dlg
      then Some (<["max_gen"%string := max_gen dlg]> alg_options)
      else if min_fit_option dlg
      then Some (<["min_fit"%string := min_fit dlg]> alg_options)
      else if max_time_option dlg
      then Some (<["max_time"%string :=
                    nadd (nadd (nmul (max_time_h dlg) (of_int 3600))
                               (nmul (max_time_m dlg) (of_int 60)))
                         (max_time_s dlg)]> alg_options)
      else None in
    match stop with
    | None => (alg_options, Some PyValueError)
    | Some alg_options =>
        match type_num with
        | RGA =>
            set_from_table dlg (<["nPop"%string := pop_size dlg]> alg_options) 0
              ["pCross"; "pMute"; "pWin"; "bDelta"]%string
        | Firefly =>
            set_from_table dlg (<["n"%string := pop_size dlg]> alg_options) 0
              ["alpha"; "betaMin"; "gamma"; "beta0"]%string
        | DE =>
            set_from_table dlg (<["NP"%string := pop_size dlg]> alg_options) 0
              ["strategy"; "F"; "CR"]%string
        end
    end.

(** The stop criterion the dialog selects, its key first. *)
Definition chosen_stop (dlg : option_dialog) : option (string * number) :=
  if max_gen_option dlg then Some ("max_gen"%string, max_gen dlg)
  else if min_fit_option dlg then Some ("min_fit"%string, min_fit dlg)
  else if max_time_option dlg
  then Some ("max_time"%string,
             nadd (nadd (nmul (max_time_h dlg) (of_int 3600))
                        (nmul (max_time_m dlg) (of_int 60)))
                  (max_time_s dlg))
  else None.

Lemma set_from_table_other (dlg : option_dialog) (tags : list string)
    (key : string) :
  key ∉ tags ->
  forall alg_options i,
    (set_from_table dlg alg_options i tags).1 !! key = alg_options !! key.
Proof.
  intros Hkey. induction tags as [|tag tags IH]; intros alg_options i;
    cbn [set_from_table]; [reflexivity|].
  apply not_elem_of_cons in Hkey as [Hne Hkey].
  destruct (alg_table dlg !! i); [|reflexivity].
  rewrite (IH Hkey). apply lookup_insert_ne. congruence.
Qed.

(** X14. After the option dialog is accepted the options hold the report
    interval of the dialog and exactly the stop criterion it selects, the
    first checked of maximum generation, minimum fitness and maximum time:
    the other two are absent, whatever the options held before. When none
    is checked the call raises [ValueError] after it has set the report
    interval and removed all three. A dialog that is not accepted changes
    nothing. *)
Theorem show_advance_one_stop_criterion (type0 type1 : bool)
    (dlg : option_dialog) (alg_options : gmap string number) :
  (accepted dlg = true ->
   forall stop value,
     chosen_stop dlg = Some (stop, value) ->
     let after := (show_advance type0 type1 dlg alg_options).1 in
     after !! "report"%string = Some (report dlg) /\
     after !! stop = Some value /\
     forall key,
       key ∈ ["max_gen"; "min_fit"; "max_time"]%string -> key <> stop ->
       after !! key = None) /\
  (accepted dlg = true -> chosen_stop dlg = None ->
   show_advance type0 type1 dlg alg_options
   = (delete "max_time"%string
        (delete "min_fit"%string
           (delete "max_gen"%string
              (<["report"%string := report dlg]> alg_options))),
      Some PyValueError)) /\
  (accepted dlg = false ->
   show_advance type0 type1 dlg alg_options = (alg_options, None)).
Proof.
  split; [|split].
  - intros Hacc stop value Hstop. cbv zeta.
    unfold show_advance. rewrite Hacc. cbn [negb].
    set (cleared := delete "max_time"%string
                      (delete "min_fit"%string
                         (delete "max_gen"%string
                            (<["report"%string := report dlg]> alg_options)))).
    assert (cleared !! "report"%string = Some (report dlg)) as Hreport.
    { unfold cleared. rewrite !lookup_delete_ne by discriminate.
      apply lookup_insert_eq. }
    assert (forall key, key ∈ ["max_gen"; "min_fit"; "max_time"]%string ->
                        cleared !! key = None) as Hclear.
    { intros key Hkey. unfold cleared.
      repeat (apply elem_of_cons in Hkey as [-> | Hkey]);
        [| |  |apply elem_of_nil in Hkey; contradiction].
      - rewrite !lookup_delete_ne by discriminate. apply lookup_delete_eq.
      - rewrite lookup_delete_ne by discriminate. apply lookup_delete_eq.
      - apply lookup_delete_eq. }
    assert (forall after : gmap string number,
              after !! "report"%string = Some (report dlg) ->
              after !! stop = Some value ->
              (forall key, key ∈ ["max_gen"; "min_fit"; "max_time"]%string ->
                           key <> stop -> after !! key = None) ->
              stop ∈ ["max_gen"; "min_fit"; "max_time"]%string ->
              let final :=
                (match (if type0 then RGA else if type1 then Firefly else DE) with
                 | RGA =>
                     set_from_table dlg (<["nPop"%string := pop_size dlg]> after) 0
                       ["pCross"; "pMute"; "pWin"; "bDelta"]%string
                 | Firefly =>
                     set_from_table dlg (<["n"%string := pop_size dlg]> after) 0
                       ["alpha"; "betaMin"; "gamma"; "beta0"]%string
                 | DE =>
                     set_from_table dlg (<["NP"%string := pop_size dlg]> after) 0
                       ["strategy"; "F"; "CR"]%string
                 end).1 in
              final !! "report"%string = Some (report dlg) /\
              final !! stop = Some value /\
              forall key, key ∈ ["max_gen"; "min_fit"; "max_time"]%string ->
                          key <> stop -> final !! key = None) as Hrest.
    { intros after Hrep Hval Hnone Hin. cbv zeta.
      assert (forall key,
                key ∈ ["report"; "max_gen"; "min_fit"; "max_time"]%string ->
                (match (if type0 then RGA else if type1 then Firefly else DE) with
                 | RGA =>
                     set_from_table dlg (<["nPop"%string := pop_size dlg]> after) 0
                       ["pCross"; "pMute"; "pWin"; "bDelta"]%string
                 | Firefly =>
                     set_from_table dlg (<["n"%string := pop_size dlg]> after) 0
                       ["alpha"; "betaMin"; "gamma"; "beta0"]%string
                 | DE =>
                     set_from_table dlg (<["NP"%string := pop_size dlg]> after) 0
                       ["strategy"; "F"; "CR"]%string
                 end).1 !! key = after !! key) as Hkeep.
      { intros key Hkey.
        destruct (if type0 then RGA else if type1 then Firefly else DE);
          (rewrite set_from_table_other;
           [apply lookup_insert_ne|];
           repeat (apply elem_of_cons in Hkey as [-> | Hkey]);
           try (apply elem_of_nil in Hkey; contradiction);
           try discriminate;
           rewrite !not_elem_of_cons; repeat split;
           try discriminate; apply not_elem_of_nil). }
      split; [rewrite Hkeep; [exact Hrep | left]|].
      split; [rewrite Hkeep; [exact Hval | right; exact Hin]|].
      intros key Hkey Hne. rewrite Hkeep; [auto | right; exact Hkey]. }
    unfold chosen_stop in Hstop.
    destruct (max_gen_option dlg); [|destruct (min_fit_option dlg);
                                     [|destruct (max_time_option dlg);
                                       [|discriminate]]];
      injection Hstop as <- <-; apply Hrest;
      try (rewrite lookup_insert_ne by discriminate; exact Hreport);
      try apply lookup_insert_eq;
      try (intros key Hkey Hne; rewrite lookup_insert_ne by congruence;
           apply Hclear, Hkey);
      repeat first [left; reflexivity | right]; left.
  - intros Hacc Hnone. unfold show_advance. rewrite Hacc. cbn [negb].
    unfold chosen_stop in Hnone.
    destruct (max_gen_option dlg); [discriminate|].
    destruct (min_fit_option dlg); [discriminate|].
    destruct (max_time_option dlg); [discriminate|]. reflexivity.
  - intros Hacc. unfold show_advance. rewrite Hacc. reflexivity.
Qed.

End AlgorithmOptions.

(** ** The length of a trace *)

Section TraceLength.

Context {coord VPoint Mapping : Type}.
Variable vtype : VPoint -> VJoint.t.
Variable move : VPoint -> coord -> option coord -> VPoint.
Variable expr_solving :
  list expr -> Mapping -> list VPoint -> list Z -> option (list (solved coord)).
Variable exprs : list expr.
Variable mapping : Mapping.

(** The solves every driver may still need, over the turns left of the
    forward direction and the whole backward direction. *)
Definition solves_left (s : state coord VPoint) : nat :=
  (sum_list (steps_left 3 <$> angles_params s) + (i_count_of exprs - dp s))%nat.

Lemma sum_list_insert (l : list nat) (k x y : nat) :
  l !! k = Some x ->
  (sum_list (<[k := y]> l) + x = sum_list l + y)%nat.
Proof.
  revert k. induction l as [|z l IH]; intros [|k]; simpl; try discriminate.
  - intros [= ->]. lia.
  - intros Hk. specialize (IH k Hk). lia.
Qed.

Lemma steps_left_insert (ps : list Z) (k : nat) (c c' : Z) :
  ps !! k = Some c ->
  (sum_list (steps_left 3 <$> <[k := c']> ps) + steps_left 3 c
   = sum_list (steps_left 3 <$> ps) + steps_left 3 c')%nat.
Proof.
  intros Hk. rewrite list_fmap_insert. apply sum_list_insert.
  rewrite list_lookup_fmap, Hk. reflexivity.
Qed.

Lemma steps_left_sign (c : Z) : steps_left (-3) c = steps_left 3 c.
Proof. reflexivity. Qed.

(** A forward turn is one call and uses up one of the solves left. *)
Lemma forward_turn_counts (n : nat) (s s' : state coord VPoint) :
  (dp s < i_count_of exprs)%nat ->
  step vtype move expr_solving exprs mapping n 3 s = Ok s' ->
  (length (calls s') + solves_left s' <= length (calls s) + solves_left s)%nat.
Proof.
  intros Hdp H.
  apply step_Ok_inv in H as (a & _ & Hcalls & H).
  rewrite Hcalls, length_app. cbn [length]. unfold solves_left.
  destruct (expr_solving exprs mapping (vpoints s) (angles s)) as [sr|].
  - destruct H as (_ & c & Hc & Hp & H). rewrite Hp.
    pose proof (steps_left_insert (angles_params s) (dp s) c (c + Z.abs 3) Hc)
      as Hsum.
    pose proof (steps_left_pos 3 (c + Z.abs 3)) as Hpos.
    destruct (360 <? c + Z.abs 3) eqn:E; destruct H as [_ ->].
    + apply Z.ltb_lt in E.
      rewrite (steps_left_over 3 c) in Hsum by lia.
      assert (steps_left 3 (c + Z.abs 3) = 1%nat) as Hone.
      { unfold steps_left.
        assert ((360 - (c + Z.abs 3)) / Z.abs 3 < 0)
          by (apply Z.div_lt_upper_bound; lia).
        lia. }
      lia.
    + apply Z.ltb_ge in E.
      rewrite (steps_left_next 3 c) in Hsum by lia. lia.
  - destruct H as (_ & _ & _ & -> & ->). lia.
Qed.

(** A backward turn is one call and uses up one of the turns left. *)
Lemma backward_turn_counts (n : nat) (s s' : state coord VPoint) :
  well_formed exprs n s -> (dp s < i_count_of exprs)%nat ->
  step vtype move expr_solving exprs mapping n (-3) s = Ok s' ->
  (length (calls s') + turns_left (-3) s'
   <= length (calls s) + turns_left (-3) s)%nat.
Proof.
  intros Hwf Hdp H.
  pose proof (turns_left_step coord VPoint vtype move Mapping expr_solving
                exprs mapping n (-3) s s' ltac:(lia) Hwf Hdp H) as Hless.
  apply step_Ok_inv in H as (_ & _ & -> & _).
  rewrite length_app. cbn [length]. lia.
Qed.

Lemma sum_steps_left_zero (k : nat) :
  sum_list (steps_left 3 <$> replicate k 0) = (121 * k)%nat.
Proof.
  induction k as [|k IH]; [reflexivity|].
  cbn [replicate fmap list_fmap sum_list]. rewrite IH. unfold id.
  change (steps_left 3 0) with 121%nat. lia.
Qed.

(** The calls made for driver [k] among [cs]. *)
Definition driver_calls (k : nat) (cs : list (call coord VPoint)) : nat :=
  length (filter (fun c => call_dp c = k) cs).

(** The calls driver [k] may still get: the solves its progress leaves it
    when it is active or waits, and [bonus] for the failing solve that may
    end its turn in the direction; once it is settled, what the next
    direction may give it, [bonus] being 1 when there is one and 0 when
    there is none. *)
Definition driver_budget (bonus k : nat) (s : state coord VPoint) : nat :=
  match angles_params s !! k with
  | Some c =>
      if decide (dp s <= k)%nat then (steps_left 3 c + bonus)%nat
      else (bonus * steps_left 3 c)%nat
  | None => 0%nat
  end.

(** A turn is one call for the active driver and uses up one of the calls
    it may still get; the other drivers keep theirs. *)
Lemma turn_counts_driver (bonus n : nat) (interval : Z) (k : nat)
    (s s' : state coord VPoint) :
  (bonus <= 1)%nat -> Z.abs interval = 3 ->
  well_formed exprs n s -> (dp s < i_count_of exprs)%nat ->
  step vtype move expr_solving exprs mapping n interval s = Ok s' ->
  (driver_calls k (calls s') + driver_budget bonus k s'
   <= driver_calls k (calls s) + driver_budget bonus k s)%nat.
Proof.
  intros Hb Hi Hwf Hdp H.
  destruct (lookup_lt_is_Some_2 (angles_params s) (dp s)) as [c Hc].
  { destruct Hwf as (_ & _ & _ & ->). exact Hdp. }
  assert (exists c',
            angles_params s' = <[dp s := c']> (angles_params s) /\
            (dp s' = dp s /\ c' = c + 3 /\ c + 3 <= 360 \/
             dp s' = S (dp s) /\ (c' = c \/ c' = c + 3 /\ 360 < c + 3)))
    as (c' & Hp & Hcases).
  { apply step_Ok_inv in H as (a & _ & _ & H).
    destruct (expr_solving exprs mapping (vpoints s) (angles s)) as [sr|].
    - destruct H as (_ & c0 & Hc0 & Hp & H). rewrite Hc in Hc0.
      injection Hc0 as <-. rewrite Hi in *. exists (c + 3). split; [exact Hp|].
      destruct (360 <? c + 3) eqn:E; destruct H as [_ Hd].
      + apply Z.ltb_lt in E. right. auto.
      + apply Z.ltb_ge in E. left. auto.
    - destruct H as (_ & _ & _ & Hp & Hd). exists c.
      split; [rewrite Hp, list_insert_id by exact Hc; reflexivity|].
      right. auto. }
  apply step_Ok_inv in H as (_ & _ & Hcalls & _).
  unfold driver_calls, driver_budget.
  rewrite Hcalls, filter_app, length_app, Hp.
  rewrite filter_cons, filter_nil. cbn [call_dp].
  pose proof (steps_left_pos 3 c) as Hpos.
  destruct (decide (dp s = k)) as [<-|Hne].
  - rewrite list_lookup_insert_eq by (eapply lookup_lt_Some; exact Hc).
    rewrite Hc. cbn [length].
    destruct (decide (dp s <= dp s)%nat); [|lia].
    destruct Hcases as [(-> & -> & Hle) | (-> & Hc')].
    + destruct (decide (dp s <= dp s)%nat); [|lia].
      rewrite (steps_left_next 3 c) by (simpl; lia).
      change (Z.abs 3) with 3. lia.
    + destruct (decide (S (dp s) <= dp s)%nat); [lia|].
      destruct Hc' as [-> | [-> Hover]]; [nia|].
      rewrite (steps_left_over 3 c) by (simpl; lia).
      assert (steps_left 3 (c + 3) = 1%nat) as ->; [|nia].
      unfold steps_left.
      assert ((360 - (c + 3)) / Z.abs 3 < 0)
        by (apply Z.div_lt_upper_bound; simpl; lia).
      lia.
  - rewrite list_lookup_insert_ne by exact Hne. cbn [length].
    destruct (angles_params s !! k) as [ck|]; [|lia].
    assert (dp s' = dp s \/ dp s' = S (dp s)) as [-> | ->]
      by (destruct Hcases as [(? & _) | (? & _)]; auto); [lia|].
    destruct (decide (dp s <= k)%nat), (decide (S (dp s) <= k)%nat); lia.
Qed.

(** Throughout the loop of a direction no driver has had more calls than
    it had left when the loop began. *)
Lemma while_loop_counts_driver (bonus n : nat) (interval : Z) (bound : nat)
    (m : nat) (s s' : state coord VPoint) :
  (bonus <= 1)%nat -> Z.abs interval = 3 -> well_formed exprs n s ->
  (forall k, (driver_calls k (calls s) + driver_budget bonus k s <= bound)%nat) ->
  while_loop vtype move expr_solving exprs mapping n interval m s = Ok s' ->
  forall k, (driver_calls k (calls s') + driver_budget bonus k s' <= bound)%nat.
Proof.
  intros Hb Hi Hwf Hle H.
  cut (well_formed exprs n s' /\
       forall k, (driver_calls k (calls s') + driver_budget bonus k s'
                  <= bound)%nat).
  { intros [_ Hall]. exact Hall. }
  revert H.
  apply (while_loop_invariant coord VPoint vtype move Mapping expr_solving
           exprs mapping n interval
           (fun s => well_formed exprs n s /\
                     forall k, (driver_calls k (calls s)
                                + driver_budget bonus k s <= bound)%nat));
    [|split; assumption].
  intros s2 s3 [Hwf2 Hle2] Hdp Hstep. split.
  - eapply well_formed_step; eauto.
  - intros k.
    pose proof (turn_counts_driver bonus n interval k s2 s3 Hb Hi Hwf2 Hdp Hstep).
    specialize (Hle2 k). lia.
Qed.

(** No driver is solved for more than 122 times in a trace. *)
Lemma driver_calls_bounded (vpoints0 : list VPoint) (s : state coord VPoint) :
  get_path_state vtype move expr_solving exprs mapping vpoints0 = Ok s ->
  forall k, (driver_calls k (calls s) <= 122)%nat.
Proof.
  intros Hs.
  apply get_path_state_inv in Hs as (s1 & H1 & H2).
  unfold direction, sweep in H1, H2.
  set (n := length vpoints0) in *.
  set (s0 := start_sweep exprs (init_state exprs vpoints0)) in *.
  assert (well_formed exprs n s0) as Hwf0
    by (apply well_formed_start, well_formed_init).
  pose proof (sweep_Ok_inv coord VPoint vtype move Mapping expr_solving exprs
                mapping n 3 s0 s1 ltac:(lia) Hwf0 ltac:(simpl; lia) H1)
    as [Hwf1 Hdp1].
  assert (forall k, (driver_calls k (calls s1) + driver_budget 1 k s1 <= 122)%nat)
    as Hfwd.
  { apply (while_loop_counts_driver 1 n 3 122 (turns_left 3 s0) s0 s1);
      [lia | reflexivity | exact Hwf0 | | exact H1].
    intros k. unfold driver_calls, driver_budget, s0.
    cbn [calls angles_params dp start_sweep init_state filter length].
    rewrite filter_nil. cbn [length].
    destruct (replicate (i_count_of exprs) 0 !! k) as [c|] eqn:E; [|lia].
    apply lookup_replicate in E as [-> _].
    destruct (decide (0 <= k)%nat); [|lia].
    change (steps_left 3 0) with 121%nat. lia. }
  intros k.
  assert (driver_calls k (calls s) + driver_budget 0 k s <= 122)%nat; [|lia].
  apply (while_loop_counts_driver 0 n (-3) 122
           (turns_left (-3) (start_sweep exprs s1)) (start_sweep exprs s1) s);
    [lia | reflexivity | apply well_formed_start, Hwf1 | | exact H2].
  clear k. intros k. specialize (Hfwd k).
  unfold driver_budget in *. cbn [calls angles_params dp start_sweep].
  destruct (angles_params s1 !! k) as [c|] eqn:E; [|exact Hfwd].
  apply lookup_lt_Some in E. destruct Hwf1 as (_ & _ & _ & Hlen).
  destruct (decide (dp s1 <= k)%nat); [lia|].
  destruct (decide (0 <= k)%nat); lia.
Qed.

(** X15. A trace solves for no driver more than 122 times, both
    directions together; so it makes at most 122 calls of the solver for
    every driver there is, and with a solver that keeps its contract no
    path holds more samples than that. *)
Theorem trace_length_bounded (vpoints0 : list VPoint) :
  (forall s,
     get_path_state vtype move expr_solving exprs mapping vpoints0 = Ok s ->
     (forall k, (driver_calls k (calls s) <= 122)%nat) /\
     (length (calls s) <= 122 * i_count_of exprs)%nat) /\
  (solver_ok vtype expr_solving exprs mapping ->
   exists p,
     get_path vtype move expr_solving exprs mapping vpoints0 = Ok p /\
     forall seq, seq ∈ p -> (length seq <= 122 * i_count_of exprs)%nat).
Proof.
  assert (forall s,
            get_path_state vtype move expr_solving exprs mapping vpoints0 = Ok s ->
            (length (calls s) <= 122 * i_count_of exprs)%nat) as Hcalls.
  { intros s Hs.
    apply get_path_state_inv in Hs as (s1 & H1 & H2).
    unfold direction, sweep in H1, H2.
    set (n := length vpoints0) in *.
    set (s0 := start_sweep exprs (init_state exprs vpoints0)) in *.
    assert (well_formed exprs n s0) as Hwf0
      by (apply well_formed_start, well_formed_init).
    (* forward *)
    assert ((length (calls s1) + solves_left s1 <= 122 * i_count_of exprs)%nat
            /\ well_formed exprs n s1) as [Hfwd Hwf1].
    { revert H1.
      apply (while_loop_invariant coord VPoint vtype move Mapping expr_solving
               exprs mapping n 3
               (fun s => (length (calls s) + solves_left s
                          <= 122 * i_count_of exprs)%nat /\
                         well_formed exprs n s)).
      - intros s2 s3 [Hle Hwf] Hdp Hstep. split.
        + pose proof (forward_turn_counts n s2 s3 Hdp Hstep). lia.
        + eapply well_formed_step; eauto.
      - split; [|exact Hwf0]. unfold solves_left, s0. cbn [calls angles_params dp
          start_sweep init_state length].
        rewrite sum_steps_left_zero. lia. }
    assert (dp s1 = i_count_of exprs) as Hdp1.
    { eapply (sweep_Ok_inv coord VPoint vtype move Mapping expr_solving exprs
                mapping n 3 s0 s1); [lia | exact Hwf0 | simpl; lia | exact H1]. }
    (* backward *)
    set (t0 := start_sweep exprs s1) in *.
    assert ((length (calls s) + turns_left (-3) s <= 122 * i_count_of exprs)%nat
            /\ well_formed exprs n s) as [Hbwd _]; [|lia].
    revert H2.
    apply (while_loop_invariant coord VPoint vtype move Mapping expr_solving
             exprs mapping n (-3)
             (fun s => (length (calls s) + turns_left (-3) s
                        <= 122 * i_count_of exprs)%nat /\
                       well_formed exprs n s)).
    - intros s2 s3 [Hle Hwf] Hdp Hstep. split.
      + pose proof (backward_turn_counts n s2 s3 Hwf Hdp Hstep). lia.
      + eapply well_formed_step; eauto.
    - split; [|apply well_formed_start, Hwf1].
      unfold turns_left, t0. cbn [calls angles_params dp start_sweep drop].
      unfold solves_left in Hfwd. rewrite Hdp1, Nat.sub_diag in Hfwd.
      rewrite drop_0.
      assert (steps_left (-3) <$> angles_params s1
              = steps_left 3 <$> angles_params s1) as ->
        by (apply list_fmap_ext; intros; apply steps_left_sign).
      lia. }
  split.
  { intros s Hs. split; [|apply Hcalls, Hs].
    exact (driver_calls_bounded vpoints0 s Hs). }
  intros Hok.
  destruct (get_path_state_total coord VPoint vtype move Mapping expr_solving
              exprs mapping vpoints0 Hok)
    as (s1 & s & _ & _ & _ & _ & _ & _ & Hs).
  exists (path s). split; [unfold get_path; rewrite Hs; reflexivity|].
  intros seq Hseq. apply list_elem_of_lookup in Hseq as [i Hi].
  pose proof (paths_aligned coord VPoint vtype move Mapping expr_solving exprs
                mapping vpoints0 (-3) s Hok
                (during_trace_final coord VPoint vtype move Mapping expr_solving
                   exprs mapping vpoints0 s Hs) i seq Hi) as Hall.
  rewrite (Forall2_length _ _ _ Hall). apply Hcalls, Hs.
Qed.

End TraceLength.

(** ** The rest of the widget on sample data *)

(** A result with four joints, the last a duplicate of joint 1, and a
    solved coordinate for joint 1. *)
Definition sample_result : result_entries xy :=
  mk_result_entries
    [(0, (0, 0)); (1, (10, 0)); (2, (5, 5)); (3, (10, 0))]
    {[3 := 1]}
    {["P1"%string := (12, 1)]}.

(** [int] and [float] on the texts of one digit. *)
Definition digit (s : string) : option Z :=
  match s with
  | String c EmptyString =>
      let n := Z.of_nat (Ascii.nat_of_ascii c) in
      if decide (48 <= n <= 57) then Some (n - 48) else None
  | _ => None
  end.

(** Whole coordinates, which rounding leaves alone. *)
Definition no_rounding (x : Z) : Z := x.

(** Two targets: an open path of three points and a path of one point. *)
Definition stored_paths : gmap Z (list (Z * Z)) :=
  {[0 := [(1, 1); (2, 2); (3, 3)]; 1 := [(7, 7)]]}.

(** Settings with a placement, a target and an expression. *)
Definition sample_settings : gmap string (field Z) :=
  {["Placement"%string := Table {[0 := Some 5]};
    "Target"%string := Table {[2 := Some 9]};
    "Expression"%string := Other 1]}.

(** A dialog closed with the minimum fitness checked. *)
Definition sample_dialog : option_dialog :=
  mk_option_dialog true 10 false 1000 true 25 true 1 2 3 50 [1; 2; 3; 4].

Lemma sample_result_keys : NoDup (res_pos sample_result).*1.
Proof. apply (bool_decide_unpack _). vm_compute. exact I. Qed.

Lemma stored_paths_current :
  current_path digit stored_paths (Some "P0"%string)
  = Ret (Some 0, [(1, 1); (2, 2); (3, 3)]).
Proof. vm_compute. reflexivity. Qed.

Lemma sample_settings_not_empty : sample_settings <> ∅.
Proof.
  intros H. assert (sample_settings !! "Target"%string = None) as Hnone
    by (rewrite H; apply lookup_empty).
  vm_compute in Hnone. discriminate.
Qed.

Lemma mapping_numbers_own_joints_witness :
  NoDup (res_pos sample_result).*1 /\
  (trace_inputs sample_result).1.2
  = [(0%nat, "P0"%string); (1%nat, "P1"%string); (2%nat, "P2"%string)] /\
  (trace_inputs sample_result).2 = 3%nat.
Proof.
  split; [exact sample_result_keys|].
  destruct (mapping_numbers_own_joints sample_result sample_result_keys)
    as [Hmap Hcount].
  split; [rewrite Hmap | rewrite Hcount]; vm_compute; reflexivity.
Defined.

Lemma pos_prefers_result_entry_witness :
  NoDup (res_pos sample_result).*1 /\
  (trace_inputs sample_result).1.1
  = [(0, (0, 0)); (1, (12, 1)); (2, (5, 5)); (3, (10, 0))].
Proof.
  split; [exact sample_result_keys|].
  rewrite (pos_prefers_result_entry sample_result sample_result_keys).
  vm_compute. reflexivity.
Defined.

Lemma mapping_names_distinct_witness :
  NoDup (res_pos sample_result).*1 /\
  (1%nat, "P1"%string) ∈ (trace_inputs sample_result).1.2 /\
  exists n, "P1"%string = joint_name n /\ res_same sample_result !! n = None.
Proof.
  assert ((1%nat, "P1"%string) ∈ (trace_inputs sample_result).1.2) as Hin
    by (apply (bool_decide_unpack _); vm_compute; exact I).
  split; [exact sample_result_keys|]. split; [exact Hin|].
  destruct (mapping_names_distinct sample_result 1 1 "P1" sample_result_keys
              Hin Hin) as (_ & n & Hname & Hsame & _).
  exists n. split; [exact Hname | exact Hsame].
Defined.

Lemma move_swaps_neighbours_witness :
  current_path digit stored_paths (Some "P0"%string)
  = Ret (Some 0, [(1, 1)] ++ (2, 2) :: (3, 3) :: []) /\
  move_up_point digit stored_paths (Some "P0"%string) 3 2
  = Ret (<[0 := [(1, 1); (3, 3); (2, 2)]]> stored_paths, 1).
Proof.
  split; [exact stored_paths_current|].
  destruct (move_swaps_neighbours digit stored_paths (Some "P0"%string) 0
              [(1, 1)] [] (2, 2) (3, 3) 3 stored_paths_current
              ltac:(simpl; lia)) as [Hup _].
  exact Hup.
Defined.

Lemma move_up_then_down_witness :
  current_path digit stored_paths (Some "P0"%string)
  = Ret (Some 0, [(1, 1); (2, 2); (3, 3)]) /\
  (move_up_point digit stored_paths (Some "P0"%string) 3 2 ≫=
     fun pr => move_down_point digit pr.1 (Some "P0"%string) 3 pr.2)
  = Ret (stored_paths, 2).
Proof.
  split; [exact stored_paths_current|].
  destruct (move_up_then_down digit stored_paths (Some "P0"%string) 0
              [(1, 1); (2, 2); (3, 3)] 3 2 stored_paths_current
              ltac:(simpl; lia) ltac:(lia)) as [Hround _].
  exact Hround.
Defined.

Lemma move_keeps_points_witness :
  move_down_point digit stored_paths (Some "P0"%string) 3 0
  = Ret (<[0 := [(2, 2); (1, 1); (3, 3)]]> stored_paths, 1) /\
  option_Forall2 Permutation
    (<[0 := [(2, 2); (1, 1); (3, 3)]]> stored_paths !! 0)
    (stored_paths !! 0).
Proof.
  assert (move_down_point digit stored_paths (Some "P0"%string) 3 0
          = Ret (<[0 := [(2, 2); (1, 1); (3, 3)]]> stored_paths, 1)) as Hdown
    by (vm_compute; reflexivity).
  split; [exact Hdown|].
  apply (move_keeps_points digit stored_paths _ (Some "P0"%string) 3 0 1).
  right. split; [lia | exact Hdown].
Defined.

Lemma delete_point_removes_row_witness :
  current_path digit stored_paths (Some "P0"%string)
  = Ret (Some 0, [(1, 1); (2, 2); (3, 3)]) /\
  delete_point digit stored_paths (Some "P0"%string) 1
  = Ret (<[0 := [(1, 1); (3, 3)]]> stored_paths) /\
  delete_point digit stored_paths (Some "P0"%string) 3 = Exc PyIndexError.
Proof.
  split; [exact stored_paths_current|].
  destruct (delete_point_removes_row digit stored_paths (Some "P0"%string) 0
              [(1, 1); (2, 2); (3, 3)] 1 stored_paths_current) as (Hrow & _).
  destruct (delete_point_removes_row digit stored_paths (Some "P0"%string) 0
              [(1, 1); (2, 2); (3, 3)] 3 stored_paths_current) as (_ & Hout & _).
  split.
  - exact (Hrow [(1, 1)] (2, 2) [(3, 3)] eq_refl eq_refl).
  - apply Hout. simpl. lia.
Defined.

Lemma add_then_delete_point_witness :
  current_path digit stored_paths (Some "P0"%string)
  = Ret (Some 0, [(1, 1); (2, 2); (3, 3)]) /\
  (add_point no_rounding digit stored_paths (Some "P0"%string) 4 4 ≫=
     fun paths' => delete_point digit paths' (Some "P0"%string) 3)
  = Ret stored_paths.
Proof.
  split; [exact stored_paths_current|].
  destruct (add_then_delete_point no_rounding digit stored_paths
              (Some "P0"%string) 0 [(1, 1); (2, 2); (3, 3)] 4 4
              stored_paths_current) as [_ Hround].
  exact Hround.
Defined.

(** [!=] on two points of whole coordinates. *)
Definition points_differ (a b : Z * Z) : bool :=
  negb (bool_decide (a = b)).

Lemma close_path_joins_ends_witness :
  current_path digit stored_paths (Some "P0"%string)
  = Ret (Some 0, (1, 1) :: [(2, 2)] ++ [(3, 3)]) /\
  points_differ (1, 1) (3, 3) = true /\
  points_differ (1, 1) (no_rounding 1, no_rounding 1) = false /\
  close_path no_rounding digit points_differ stored_paths (Some "P0"%string) 3
  = Ret (<[0 := [(1, 1); (2, 2); (3, 3); (1, 1)]]> stored_paths) /\
  close_path no_rounding digit points_differ
    (<[0 := [(1, 1); (2, 2); (3, 3); (1, 1)]]> stored_paths)
    (Some "P0"%string) 4
  = Ret (<[0 := [(1, 1); (2, 2); (3, 3); (1, 1)]]> stored_paths).
Proof.
  split; [exact stored_paths_current|].
  split; [reflexivity|]. split; [reflexivity|].
  destruct (close_path_joins_ends no_rounding digit points_differ stored_paths
              (Some "P0"%string) 0 (1, 1) (3, 3) [(2, 2)] 3
              stored_paths_current ltac:(lia)) as (Hopen & _ & Hagain).
  split; [exact (Hopen eq_refl)|].
  destruct (Hagain eq_refl) as (paths' & Hclosed & _ & Hfix).
  rewrite (Hopen eq_refl) in Hclosed. injection Hclosed as <-.
  apply Hfix.
Defined.

Lemma read_csv_all_or_nothing_witness :
  current_path digit stored_paths (Some "P1"%string) = Ret (Some 1, [(7, 7)]) /\
  read_path_from_csv no_rounding digit digit stored_paths (Some "P1"%string)
    ["1"; "2"; "3"; "4"]%string
  = Ret (<[1 := [(7, 7); (1, 2); (3, 4)]]> stored_paths) /\
  read_path_from_csv no_rounding digit digit stored_paths (Some "P1"%string)
    ["1"; "2"; "3"]%string
  = Ret stored_paths.
Proof.
  assert (current_path digit stored_paths (Some "P1"%string)
          = Ret (Some 1, [(7, 7)])) as Hcur by (vm_compute; reflexivity).
  split; [exact Hcur|].
  destruct (read_csv_all_or_nothing no_rounding digit digit stored_paths
              (Some "P1"%string) 1 [(7, 7)] ["1"; "2"; "3"; "4"]%string Hcur)
    as (Hread & _).
  destruct (read_csv_all_or_nothing no_rounding digit digit stored_paths
              (Some "P1"%string) 1 [(7, 7)] ["1"; "2"; "3"]%string Hcur)
    as (_ & _ & Hbad).
  split.
  - rewrite Hread. reflexivity.
  - apply Hbad. left. exists 1%nat. reflexivity.
Defined.

Lemma adjust_path_replaces_current_witness :
  current_path digit stored_paths (Some "P0"%string)
  = Ret (Some 0, [(1, 1); (2, 2); (3, 3)]) /\
  adjust_path no_rounding digit stored_paths (Some "P0"%string) true
    [(8, 8); (9, 9)]
  = Ret (<[0 := [(8, 8); (9, 9)]]> stored_paths).
Proof.
  split; [exact stored_paths_current|].
  destruct (adjust_path_replaces_current no_rounding digit stored_paths
              (Some "P0"%string) 0 [(1, 1); (2, 2); (3, 3)] [(8, 8); (9, 9)]
              stored_paths_current) as [Hset _].
  exact Hset.
Defined.

(** [hypot(x - cx, y - cy) < 3] on whole coordinates: the root of the sum
    of the squares is below 3 exactly when the sum is below 9. *)
Definition hypot_below_3 (x y : Z) (c : Z * Z) : bool :=
  (x - c.1) * (x - c.1) + (y - c.2) * (y - c.2) <? 9.

(** A target of three points far from each other. *)
Definition spread_paths : gmap Z (list (Z * Z)) :=
  {[0 := [(0, 0); (10, 10); (20, 20)]]}.

Lemma hypot_below_3_root (x y : Z) (c : Z * Z) :
  hypot_below_3 x y c
  = (Z.sqrt ((x - c.1) * (x - c.1) + (y - c.2) * (y - c.2)) <? 3).
Proof.
  unfold hypot_below_3.
  set (d := (x - c.1) * (x - c.1) + (y - c.2) * (y - c.2)).
  assert (0 <= d) as Hpos.
  { pose proof (Z.square_nonneg (x - c.1)).
    pose proof (Z.square_nonneg (y - c.2)). unfold d. lia. }
  destruct (Z.ltb_spec d 9) as [Hd|Hd]; symmetry.
  - apply Z.ltb_lt. apply Z.sqrt_lt_square; lia.
  - apply Z.ltb_ge. change 3 with (Z.sqrt 9). apply Z.sqrt_le_mono. exact Hd.
Qed.

Lemma set_point_moves_first_near_witness :
  current_path digit spread_paths (Some "P0"%string)
  = Ret (Some 0, [(0, 0); (10, 10); (20, 20)]) /\
  hypot_below_3 11 9 (0, 0) = false /\ hypot_below_3 11 9 (10, 10) = true /\
  set_point digit hypot_below_3 spread_paths (Some "P0"%string) true 11 9
  = Ret (<[0 := [(0, 0); (11, 9); (20, 20)]]> spread_paths) /\
  set_point digit hypot_below_3 spread_paths (Some "P0"%string) true 15 15
  = Ret spread_paths.
Proof.
  assert (current_path digit spread_paths (Some "P0"%string)
          = Ret (Some 0, [(0, 0); (10, 10); (20, 20)])) as Hcur
    by (vm_compute; reflexivity).
  split; [exact Hcur|]. split; [reflexivity|]. split; [reflexivity|].
  destruct (set_point_moves_first_near digit hypot_below_3 spread_paths
              (Some "P0"%string) 0 [(0, 0); (10, 10); (20, 20)] 11 9 Hcur)
    as [Hmove _].
  destruct (set_point_moves_first_near digit hypot_below_3 spread_paths
              (Some "P0"%string) 0 [(0, 0); (10, 10); (20, 20)] 15 15 Hcur)
    as (_ & Hnone & _).
  split.
  - apply (Hmove [(0, 0)] (10, 10) [(20, 20)] eq_refl).
    + repeat constructor.
    + reflexivity.
  - apply Hnone. repeat constructor.
Defined.

Lemma profile_name_cases_witness :
  profile_name (∅ : gmap string (gmap string (field Z))) "" = "Structure_0"%string /\
  profile_name ({["Structure_0"%string := sample_settings]}
                : gmap string (gmap string (field Z))) ""
  = "Structure_0"%string.
Proof.
  split.
  - exact (proj1 (profile_name_cases
                    (∅ : gmap string (gmap string (field Z))) "")).
  - exact (proj1 (profile_name_cases
                    ({["Structure_0"%string := sample_settings]}
                     : gmap string (gmap string (field Z))) "")).
Defined.

Lemma save_profile_blanks_joints_witness :
  sample_settings <> ∅ /\
  exists saved,
    save_profile ∅ sample_settings "four bar" true
    = Ret (<["four bar"%string := saved]> ∅) /\
    saved !! "Target"%string = Some (Table {[2 := None]}) /\
    saved !! "Expression"%string = Some (Other 1).
Proof.
  split; [exact sample_settings_not_empty|].
  destruct (save_profile_blanks_joints ∅ sample_settings "four bar"
              sample_settings_not_empty) as [Hsave _].
  destruct (Hsave {[0 := Some 5]} {[2 := Some 9]} eq_refl eq_refl)
    as (saved & Hret & _ & Htarget & Hother).
  exists saved. split; [exact Hret|]. split.
  - rewrite Htarget. reflexivity.
  - rewrite Hother by discriminate. reflexivity.
Defined.

Lemma show_advance_one_stop_criterion_witness :
  let after :=
    (show_advance Z.add Z.mul (fun z => z) false false sample_dialog
       {["max_gen"%string := 500; "max_time"%string := 60]}).1 in
  after !! "min_fit"%string = Some 25 /\
  after !! "max_gen"%string = None /\ after !! "max_time"%string = None.
Proof.
  destruct (show_advance_one_stop_criterion Z.add Z.mul (fun z => z)
              false false sample_dialog
              {["max_gen"%string := 500; "max_time"%string := 60]})
    as (Hone & _).
  destruct (Hone eq_refl "min_fit"%string 25 eq_refl) as (_ & Hfit & Hnone).
  cbv zeta. split; [exact Hfit|]. split; apply Hnone; try discriminate.
  - left.
  - right. right. left.
Defined.

Lemma trace_length_bounded_witness :
  let s := final_state (get_path_state vp_type vp_move solve_always two_inputs
                          names three_joints) in
  get_path_state vp_type vp_move solve_always two_inputs names three_joints
  = Ok s /\
  driver_calls 0 (calls s) = 122%nat /\
  (forall k, (driver_calls k (calls s) <= 122)%nat) /\
  solver_ok vp_type solve_limited two_inputs names /\
  exists p,
    get_path vp_type vp_move solve_limited two_inputs names three_joints = Ok p /\
    forall seq, seq ∈ p -> (length seq <= 244)%nat.
Proof.
  cbv zeta.
  assert (get_path_state vp_type vp_move solve_always two_inputs names
            three_joints
          = Ok (final_state (get_path_state vp_type vp_move solve_always
                               two_inputs names three_joints))) as Hs
    by (vm_compute; reflexivity).
  split; [exact Hs|]. split; [vm_compute; reflexivity|].
  destruct (trace_length_bounded vp_type vp_move solve_always two_inputs names
              three_joints) as [Hcalls _].
  destruct (trace_length_bounded vp_type vp_move solve_limited two_inputs names
              three_joints) as [_ Hpath].
  split; [exact (proj1 (Hcalls _ Hs))|].
  split; [apply solve_limited_ok|].
  exact (Hpath (solve_limited_ok two_inputs names)).
Defined.
